(** * xitorch: one-dimensional cubic-spline interpolation

    A shallow embedding of [xitorch/_impls/interpolate/interp_1d.py]
    ([BaseInterp1D], [CubicSpline1D], [_get_spline_mat_inv],
    [check_and_get_extrap], [check_periodic_value]).

    Modelling conventions.
    - Floating-point tensors hold rationals ([Q]) and arithmetic is exact;
      results are compared with [Qeq].  Not-a-number only ever enters a
      tensor as an explicit fill value, so the tensor returned by
      [__call__] has elements of type [fl].
    - Exact arithmetic has no overflow.  Where binary64 departs from it in
      kind (an infinity from an overflowing square, not-a-number from the
      difference of two infinities), the module [Binary64] repeats the
      embedding with the kernel's primitive floats, and what fails there
      is shown there.
    - The abscissas [x] and the queries [xq] are 1-D tensors: [list Q].
      An ordinate tensor (any batch prefix, then [nr]) is the list of its
      rows; every tensor operation of the source acts on the last axis and
      is broadcast over the rows.
    - [torch.solve] is external: it is a parameter of the model, and the
      properties that depend on it assume its contract at the one system
      it is called on ([solve_shape] where only the shape of the answer
      matters, [solve_contract] where the answer itself does).
    - Index tensors (int64) are lists of [Z].
    - Python exceptions are values of [exn], carried by [result]. *)

From Stdlib Require Import String.
From Stdlib Require Import List ZArith QArith Qabs Qround Qminmax Bool Lia Lqa.
From Stdlib Require Import Setoid Morphisms.
From Stdlib Require PrimFloat.
Import ListNotations.

(** ** Exceptions and the error monad *)

(** One constructor per [raise] site of the source, named after the spec's
    taxonomy; [KeyError] is the failed dictionary lookup of
    [check_and_get_extrap]; [AttributeError] is the read of an attribute
    that was never set; [IndexError] and [TorchError] are raised from
    inside tensor primitives (indexing out of range, shape mismatch,
    reduction over an empty tensor); [UnknownExtrapolation] is the refusal
    of an extrapolation tag outside the spec's variant type. *)
Inductive exn : Type :=
| KeyError (key : string)
| ConfigurationError (bc : string)   (* "Unimplemented %s bc_type. ..." *)
| MissingDataError                   (* "y must be given" *)
| PeriodicityViolation               (* "The value of y must be periodic ..." *)
| UnknownExtrapolation (name : string)
| AttributeError (name : string)
| IndexError
| TorchError.

Inductive result (A : Type) : Type :=
| Ok (a : A)
| Raise (e : exn).
Arguments Ok {A} a.
Arguments Raise {A} e.

Definition bind {A B : Type} (m : result A) (k : A -> result B) : result B :=
  match m with
  | Ok a => k a
  | Raise e => Raise e
  end.

Notation "x <- m ;; k" := (bind m (fun x => k))
  (at level 61, m at next level, right associativity).
Notation "m ;;; k" := (bind m (fun _ => k))
  (at level 61, right associativity).

Fixpoint mapM {A B : Type} (f : A -> result B) (l : list A) : result (list B) :=
  match l with
  | [] => Ok []
  | a :: l' => b <- f a ;; bs <- mapM f l' ;; Ok (b :: bs)
  end.

(** The [warnings.warn] channel: the only diagnostic of the module. *)
Inductive warning : Type :=
| ConflictingInputAdvisory.  (* "y has been supplied when initiating ..." *)

(** ** Tensors *)

Abbreviation vec := (list Q) (only parsing).
Abbreviation batch := (list (list Q)) (only parsing).
Abbreviation mat := (list (list Q)) (only parsing).

(** Element of a returned tensor: a finite value or not-a-number. *)
Inductive fl : Type :=
| Fin (q : Q)
| NaN.

Definition veq : vec -> vec -> Prop := Forall2 Qeq.
Definition beq : batch -> batch -> Prop := Forall2 veq.

Module Torch.

Local Open Scope Q_scope.

(** Elementwise binary operation on two tensors of equal length. *)
Definition map2 {A B C : Type} (f : A -> B -> C) (a : list A) (b : list B) : list C :=
  map (fun p => f (fst p) (snd p)) (combine a b).

(** [t[..., :-1]] and [t[..., 1:]]. *)
Definition init {A : Type} (l : list A) : list A := removelast l.
Definition rest {A : Type} (l : list A) : list A := tl l.

(** [t[..., i]] for an integer [i]: Python wraps a negative index once and
    raises [IndexError] outside [-n, n). *)
Definition getitem {A : Type} (l : list A) (i : Z) : result A :=
  let n := Z.of_nat (length l) in
  let j := if (i <? 0)%Z then (i + n)%Z else i in
  if (j <? 0)%Z then Raise IndexError
  else match nth_error l (Z.to_nat j) with
       | Some a => Ok a
       | None => Raise IndexError
       end.

(** [t[..., idx]] for an index tensor [idx]. *)
Definition index {A : Type} (l : list A) (idx : list Z) : result (list A) :=
  mapM (getitem l) idx.

(** [torch.gather(t, -1, idx)]: indices must lie in [0, n). *)
Definition gather {A : Type} (l : list A) (idx : list Z) : result (list A) :=
  mapM (fun i => if (i <? 0)%Z then Raise IndexError
                 else match nth_error l (Z.to_nat i) with
                      | Some a => Ok a
                      | None => Raise IndexError
                      end) idx.

(** [torch.clamp(i, lo, hi)] is [min(max(i, lo), hi)]. *)
Definition clamp (i lo hi : Z) : Z := Z.min (Z.max i lo) hi.

(** [torch.searchsorted(x, v, right=False)] for one value: the lower-bound
    binary search over the half-open window [lo, hi).  The window has at
    most [length x] elements and halves at every probe, so [length x]
    probes always suffice. *)
Fixpoint lower_bound (fuel : nat) (x : vec) (v : Q) (lo hi : nat) : nat :=
  match fuel with
  | O => lo
  | S fuel' =>
      if (lo <? hi)%nat then
        let mid := (lo + (hi - lo) / 2)%nat in
        if Qle_bool v (nth mid x 0) then lower_bound fuel' x v lo mid
        else lower_bound fuel' x v (S mid) hi
      else lo
  end.

Definition searchsorted1 (x : vec) (v : Q) : Z :=
  Z.of_nat (lower_bound (length x) x v 0 (length x)).

Definition searchsorted (x : vec) (xq : vec) : list Z :=
  map (searchsorted1 x) xq.

(** [t[mask]]: the selected elements, in order. *)
Fixpoint masked_select {A : Type} (l : list A) (mask : list bool) : list A :=
  match l, mask with
  | a :: l', true :: m' => a :: masked_select l' m'
  | _ :: l', false :: m' => masked_select l' m'
  | _, _ => []
  end.

(** [t[..., mask] = src]: the selected positions of [t] receive the
    elements of [src] in order.  Every call of the source passes exactly
    as many source elements as the mask selects. *)
Fixpoint masked_assign {A : Type} (dst : list A) (mask : list bool) (src : list A) : list A :=
  match dst, mask with
  | d :: dst', true :: m' =>
      match src with
      | s :: src' => s :: masked_assign dst' m' src'
      | [] => d :: masked_assign dst' m' []
      end
  | d :: dst', false :: m' => d :: masked_assign dst' m' src
  | _, _ => dst
  end.

(** Dot product and [torch.matmul(M, y.unsqueeze(-1)).squeeze(-1)] for one
    row [y]; the inner dimensions must agree. *)
Definition dot (a b : vec) : Q := fold_right Qplus 0 (map2 Qmult a b).

Definition matvec (M : mat) (y : vec) : result vec :=
  if forallb (fun r => (length r =? length y)%nat) M
  then Ok (map (fun r => dot r y) M)
  else Raise TorchError.

Definition matmul_rows (M : mat) (y : batch) : result batch :=
  mapM (matvec M) y.

(** Matrix product, used to state what [torch.solve] returns. *)
Definition col (j : nat) (M : mat) : vec := map (fun r => nth j r 0) M.

Definition mat_mul (A B : mat) : mat :=
  map (fun ar => map (fun j => dot ar (col j B)) (seq 0 (length (hd [] B)))) A.

(** [torch.zeros((n, m))]. *)
Definition zeros (n m : nat) : mat := repeat (repeat 0 m) n.

(** Apply [f i j] to the entry at row [i], column [j]. *)
Fixpoint imap_from {A B : Type} (f : nat -> A -> B) (i : nat) (l : list A) : list B :=
  match l with
  | [] => []
  | a :: l' => f i a :: imap_from f (S i) l'
  end.

Definition mat_imap (f : nat -> nat -> Q -> Q) (M : mat) : mat :=
  imap_from (fun i r => imap_from (fun j e => f i j e) 0 r) 0 M.

(** Length of [M.diagonal(offset=k)] for a square [M]. *)
Definition diag_len (k : Z) (M : mat) : nat :=
  (length M - Z.abs_nat k)%nat.

(** [M.diagonal(offset=k)[..., :] = v]: writes through the diagonal view.
    The [p]-th element of the [k]-th diagonal sits at row [p], column
    [p + k] for [k >= 0] and at row [p - k], column [p] otherwise.  The
    source and the view have equal lengths in every call that succeeds
    (a shorter source is a shape error). *)
Definition diag_write (k : Z) (v : vec) (i j : nat) (e : Q) : Q :=
  if (Z.of_nat j =? Z.of_nat i + k)%Z then nth (Nat.min i j) v 0 else e.

Definition set_diagonal (k : Z) (v : vec) (M : mat) : result mat :=
  if (length v =? diag_len k M)%nat then Ok (mat_imap (diag_write k v) M)
  else Raise TorchError.

(** [M[..., i, :] = c] and [M[..., i, j] = c] with Python index wrapping. *)
Definition wrap (n : nat) (i : Z) : Z :=
  if (i <? 0)%Z then (i + Z.of_nat n)%Z else i.

Definition row_write (r : Z) (c : Q) (i j : nat) (e : Q) : Q :=
  if (Z.of_nat i =? r)%Z then c else e.

Definition fill_row (i : Z) (c : Q) (M : mat) : result mat :=
  let r := wrap (length M) i in
  if ((0 <=? r) && (r <? Z.of_nat (length M)))%Z then
    Ok (mat_imap (row_write r c) M)
  else Raise IndexError.

Definition entry_write (r s : Z) (c : Q) (i j : nat) (e : Q) : Q :=
  if ((Z.of_nat i =? r) && (Z.of_nat j =? s))%Z then c else e.

Definition set_entry (i j : Z) (c : Q) (M : mat) : result mat :=
  let r := wrap (length M) i in
  let s := wrap (length (hd [] M)) j in
  if ((0 <=? r) && (r <? Z.of_nat (length M))
      && (0 <=? s) && (s <? Z.of_nat (length (hd [] M))))%Z then
    Ok (mat_imap (entry_write r s c) M)
  else Raise IndexError.

(** [M[i, j]] for in-range naturals. *)
Definition entry (M : mat) (i j : nat) : Q := nth j (nth i M []) 0.

(** [torch.min(x, dim=-1)] and [torch.max(x, dim=-1)]: a reduction over an
    empty axis raises. *)
Definition min (x : vec) : result Q :=
  match x with
  | [] => Raise TorchError
  | a :: x' => Ok (fold_left Qmin x' a)
  end.

Definition max (x : vec) : result Q :=
  match x with
  | [] => Raise TorchError
  | a :: x' => Ok (fold_left Qmax x' a)
  end.

(** [torch.allclose(a, b)] with the default [rtol=1e-05], [atol=1e-08]:
    every pair satisfies [|a - b| <= atol + rtol * |b|]. *)
Definition rtol : Q := 1 # 100000.
Definition atol : Q := 1 # 100000000.

Definition isclose (a b : Q) : bool :=
  Qle_bool (Qabs (a - b)) (atol + rtol * Qabs b).

Definition allclose (a b : vec) : bool :=
  forallb (fun p => isclose (fst p) (snd p)) (combine a b).

End Torch.

(** [o is not None]. *)
Definition is_not_None {A : Type} (o : option A) : bool :=
  match o with
  | Some _ => true
  | None => false
  end.

(** ** Extrapolation options *)

(** The [extrap] argument once its default is resolved: a string tag, a
    number, or a callable on the exterior abscissas. *)
Inductive extrap_t : Type :=
| ExtrapStr (s : string)
| ExtrapNum (v : Q)
| ExtrapFun (f : vec -> vec).

(** [extrap == s] for a string literal [s]. *)
Definition extrap_is (e : extrap_t) (s : string) : bool :=
  match e with
  | ExtrapStr s' => String.eqb s' s
  | _ => false
  end.

(** Subscript of a dictionary literal. *)
Fixpoint dict_getitem {V : Type} (d : list (string * V)) (k : string) : result V :=
  match d with
  | [] => Raise (KeyError k)
  | (k', v) :: d' => if String.eqb k' k then Ok v else dict_getitem d' k
  end.

Definition check_and_get_extrap (extrap : option extrap_t) (bc_type : string)
  : result extrap_t :=
  match extrap with
  | None =>
      dict_getitem [("natural", ExtrapStr "nan");
                    ("clamped", ExtrapStr "mirror")]%string bc_type
  | Some e => Ok e
  end.

Definition check_periodic_value (y : batch) : result unit :=
  y0 <- mapM (fun r => Torch.getitem r 0) y ;;
  y1 <- mapM (fun r => Torch.getitem r (-1)) y ;;
  if negb (Torch.allclose y0 y1) then Raise PeriodicityViolation else Ok tt.

Module ExtrapUtils.

Local Open Scope Q_scope.

(** Modelled from the spec: the two quantities that the remapping of
    [get_extrap_pos] below needs, the position of [q] in the domain in
    units of the domain length, split into its integer part and its
    fractional part. *)
Definition periods (q xmin xmax : Q) : Z := Qfloor ((q - xmin) / (xmax - xmin)).
Definition phase (q xmin xmax : Q) : Q :=
  (q - xmin) / (xmax - xmin) - inject_Z (periods q xmin xmax).

(** Modelled from the spec: [get_extrap_pos] of
    [xitorch/_impls/interpolate/extrap_utils.py], which is not among the
    sources.  Spec 4.4: Bound clamps the abscissa to the nearest domain
    edge; Mirror reflects the excess distance back into the domain as a
    triangular (fold-back) wave; Periodic wraps the excess distance
    modulo the domain length [xmax - xmin].  Only called with one of the
    three position-remap tags. *)
Definition get_extrap_pos (xqextrap : vec) (extrap : extrap_t) (xmin xmax : Q) : vec :=
  if extrap_is extrap "bound" then
    map (fun q => Qmin (Qmax q xmin) xmax) xqextrap
  else if extrap_is extrap "periodic" then
    map (fun q => xmin + phase q xmin xmax * (xmax - xmin)) xqextrap
  else
    map (fun q => if Z.even (periods q xmin xmax)
                  then xmin + phase q xmin xmax * (xmax - xmin)
                  else xmax - phase q xmin xmax * (xmax - xmin)) xqextrap.

(** Modelled from the spec: [get_extrap_val] of the same absent module.
    Spec 4.4: Constant broadcasts the fixed value, Nan broadcasts
    not-a-number, Custom applies the supplied function directly to the
    exterior abscissas; the result has one row per row of [y].  The spec's
    variant type is closed, so any other tag is refused. *)
Definition get_extrap_val (xqextrap : vec) (y : batch) (extrap : extrap_t)
  : result (list (list fl)) :=
  match extrap with
  | ExtrapNum v => Ok (map (fun _ => map (fun _ => Fin v) xqextrap) y)
  | ExtrapFun f => Ok (map (fun _ => map Fin (f xqextrap)) y)
  | ExtrapStr s =>
      if String.eqb s "nan" then Ok (map (fun _ => map (fun _ => NaN) xqextrap) y)
      else Raise (UnknownExtrapolation s)
  end.

End ExtrapUtils.

(** ** [BaseInterp1D] *)

Module BaseInterp1D.

Record t : Type := mk {
  _y_is_given : bool;
  _extrap : extrap_t;
  _xmin : Q;
  _xmax : Q;
  _is_periodic_required : bool
}.

Definition __init__ (x : vec) (y : option batch) (extrap : extrap_t) : result t :=
  xmin <- Torch.min x ;;
  xmax <- Torch.max x ;;
  Ok (mk (is_not_None y) extrap xmin xmax false).

Definition set_periodic_required (self : t) (val : bool) : t :=
  mk (_y_is_given self) (_extrap self) (_xmin self) (_xmax self) val.

Definition is_periodic_required (self : t) : bool := _is_periodic_required self.

(** What [__call__] needs from a subclass: the base-class state, the
    attribute [self.y] when it has been set, and the abstract method
    [_interp]. *)
Class Kernel (S : Type) : Type := {
  base : S -> t;
  attr_y : S -> option batch;
  _interp : S -> vec -> batch -> result batch
}.

Section Call.
Context {S : Type} `{Kernel S}.

(** Content of the memory that [torch.empty] hands out. *)
Variable uninit : fl.

(** Lines 31-36: the ordinates of this call. *)
Definition ordinates (self : S) (y : option batch) : result batch :=
  if _y_is_given (base self) then
    match attr_y self with
    | Some y' => Ok y'
    | None => Raise (AttributeError "y")
    end
  else match y with
       | None => Raise MissingDataError
       | Some y' =>
           if is_periodic_required (base self)
           then check_periodic_value y' ;;; Ok y'
           else Ok y'
       end.

(** Lines 38-57: interpolation inside the domain, extrapolation outside. *)
Definition evaluate (self : S) (xq : vec) (y : batch) : result (list (list fl)) :=
  let extrap := _extrap (base self) in
  let xqinterp_mask :=
    map (fun q => Qle_bool (_xmin (base self)) q && Qle_bool q (_xmax (base self))) xq in
  let xqextrap_mask := map negb xqinterp_mask in
  let allinterp := forallb (fun b => b) xqinterp_mask in
  if allinterp then
    yq <- _interp self xq y ;; Ok (map (map Fin) yq)
  else if extrap_is extrap "mirror" || extrap_is extrap "periodic"
          || extrap_is extrap "bound" then
    (* extrapolation by mapping it to the interpolated region *)
    let xq2 :=
      Torch.masked_assign xq xqextrap_mask
        (ExtrapUtils.get_extrap_pos (Torch.masked_select xq xqextrap_mask)
           extrap (_xmin (base self)) (_xmax (base self))) in
    yq <- _interp self xq2 y ;; Ok (map (map Fin) yq)
  else
    (* interpolation *)
    yqinterp <- _interp self (Torch.masked_select xq xqinterp_mask) y ;;
    yqextrap <- ExtrapUtils.get_extrap_val
                  (Torch.masked_select xq xqextrap_mask) y extrap ;;
    let yq := map (fun _ => map (fun _ => uninit) xq) y in
    let yq := Torch.map2 (fun row src => Torch.masked_assign row xqinterp_mask src)
                yq (map (map Fin) yqinterp) in
    let yq := Torch.map2 (fun row src => Torch.masked_assign row xqextrap_mask src)
                yq yqextrap in
    Ok yq.

(** [__call__] returns the warnings it emitted and either the tensor
    [yq] or the exception it raised. *)
Definition __call__ (self : S) (xq : vec) (y : option batch)
  : list warning * result (list (list fl)) :=
  let warned :=
    if _y_is_given (base self) && is_not_None y
    then [ConflictingInputAdvisory] else [] in
  (warned, y <- ordinates self y ;; evaluate self xq y).
End Call.

End BaseInterp1D.

(** ** The spline matrices *)

Section SplineMatrix.

Local Open Scope Q_scope.

(** [torch.solve(B, A)]: the external dense solver, which returns a
    solution [X] of [A X = B]. *)
Variable solve : mat -> mat -> mat.

(** Lines 242-282 of [_get_spline_mat_inv]: the left-hand matrix
    [spline_mat] and the right-hand matrix [matr]. *)
Definition spline_matrices (x : vec) (bc_type : string) : result (mat * mat) :=
  let nr := length x in
  (* construct the matrix for the left hand side *)
  let dxinv0 := Torch.map2 (fun a b => 1 / (a - b)) (Torch.rest x) (Torch.init x) in
  let zero_pad := map (fun _ => 0) (firstn 1 dxinv0) in
  let dxinv := zero_pad ++ dxinv0 ++ zero_pad in
  let diag := map (fun s => s * 2) (Torch.map2 Qplus (Torch.init dxinv) (Torch.rest dxinv)) in
  let offdiag := dxinv0 in
  let spline_mat := Torch.zeros nr nr in
  spline_mat <- Torch.set_diagonal 0 diag spline_mat ;;
  spline_mat <- Torch.set_diagonal 1 offdiag spline_mat ;;
  spline_mat <- Torch.set_diagonal (-1) offdiag spline_mat ;;
  (* construct the matrix on the right hand side *)
  let dxinv2 := map (fun d => (d * d) * 3) dxinv in
  let diagr := Torch.map2 Qminus (Torch.init dxinv2) (Torch.rest dxinv2) in
  let udiagr := Torch.init (Torch.rest dxinv2) in
  let ldiagr := map Qopp udiagr in
  let matr := Torch.zeros nr nr in
  matr <- Torch.set_diagonal 0 diagr matr ;;
  matr <- Torch.set_diagonal 1 udiagr matr ;;
  matr <- Torch.set_diagonal (-1) ldiagr matr ;;
  if String.eqb bc_type "clamped" then
    spline_mat <- Torch.fill_row 0 0 spline_mat ;;
    spline_mat <- Torch.set_entry 0 0 1 spline_mat ;;
    spline_mat <- Torch.fill_row (-1) 0 spline_mat ;;
    spline_mat <- Torch.set_entry (-1) (-1) 1 spline_mat ;;
    matr <- Torch.fill_row 0 0 matr ;;
    matr <- Torch.fill_row (-1) 0 matr ;;
    Ok (spline_mat, matr)
  else Ok (spline_mat, matr).

Definition _get_spline_mat_inv (x : vec) (bc_type : string) : result mat :=
  sm <- spline_matrices x bc_type ;;
  (* solve the matrix inverse *)
  Ok (solve (snd sm) (fst sm)).

End SplineMatrix.

(** ** [CubicSpline1D] *)

Module CubicSpline1D.

Local Open Scope Q_scope.

Record t : Type := mk {
  super : BaseInterp1D.t;
  x : vec;
  bc_type : string;
  spline_mat_inv : mat;
  y_is_given : bool;
  y : option batch;
  ks : option batch
}.

Definition bc_types : list string := ["natural"; "clamped"]%string.

(** The constructor.  [x] is one-dimensional by its type, so the guard
    [x.ndim != 1] of line 115 cannot fire and has no counterpart here. *)
Definition __init__ (solve : mat -> mat -> mat)
    (x : vec) (y : option batch) (bc_type : option string)
    (extrap : option extrap_t) : result t :=
  (* get the default extrapolation method and boundary condition *)
  let bc_type := match bc_type with None => "natural"%string | Some b => b end in
  extrap <- check_and_get_extrap extrap bc_type ;;
  super <- BaseInterp1D.__init__ x y extrap ;;
  if negb (existsb (String.eqb bc_type) bc_types) then
    Raise (ConfigurationError bc_type)
  else
    let super := BaseInterp1D.set_periodic_required super (extrap_is extrap "periodic") in
    (* precompute the inverse of spline matrix *)
    spline_mat_inv <- _get_spline_mat_inv solve x bc_type ;;
    let y_is_given := is_not_None y in
    match y with
    | Some y' =>
        (if BaseInterp1D.is_periodic_required super
         then check_periodic_value y' else Ok tt) ;;;
        ks <- Torch.matmul_rows spline_mat_inv y' ;;
        Ok (mk super x bc_type spline_mat_inv y_is_given (Some y') (Some ks))
    | None =>
        Ok (mk super x bc_type spline_mat_inv y_is_given None None)
    end.

(** Lines 144-147: the segment of every query. *)
Definition segment_indices (x xq : vec) : list Z * list Z :=
  let nr := Z.of_nat (length x) in
  let idxr := Torch.searchsorted x xq in
  let idxr := map (fun i => Torch.clamp i 1 (nr - 1)) idxr in
  let idxl := map (fun i => (i - 1)%Z) idxr in
  (idxl, idxr).

(** Lines 150-173: the polynomial (Horner) formulation. *)
Definition interp_polynomial (x xq : vec) (idxl : list Z) (y ks : batch) : result batch :=
  let xl := Torch.init x in
  let dx := Torch.map2 Qminus (Torch.rest x) xl in
  xlg <- Torch.gather xl idxl ;;
  dxg <- Torch.gather dx idxl ;;
  let t := Torch.map2 Qdiv (Torch.map2 Qminus xq xlg) dxg in
  mapM (fun yk =>
          let y := fst yk in
          let ks := snd yk in
          (* get the variables needed *)
          let yl := Torch.init y in
          let dy := Torch.map2 Qminus (Torch.rest y) yl in
          let a := Torch.map2 Qminus (Torch.map2 Qmult (Torch.init ks) dx) dy in
          let b := Torch.map2 Qplus (Torch.map2 Qmult (map Qopp (Torch.rest ks)) dx) dy in
          (* calculate the coefficients for the t-polynomial *)
          let p0 := yl in
          let p1 := Torch.map2 Qplus dy a in
          let p2 := Torch.map2 Qminus b (map (Qmult 2) a) in
          let p3 := Torch.map2 Qminus a b in
          p3g <- Torch.index p3 idxl ;;
          let yq := Torch.map2 Qmult p3g t in
          p2g <- Torch.index p2 idxl ;;
          let yq := Torch.map2 Qplus yq p2g in
          let yq := Torch.map2 Qmult yq t in
          p1g <- Torch.index p1 idxl ;;
          let yq := Torch.map2 Qplus yq p1g in
          let yq := Torch.map2 Qmult yq t in
          p0g <- Torch.index p0 idxl ;;
          let yq := Torch.map2 Qplus yq p0g in
          Ok yq)
       (combine y ks).

(** Lines 176-197: the Hermite-basis formulation. *)
Definition interp_hermite (x xq : vec) (idxl idxr : list Z) (y ks : batch) : result batch :=
  xl <- Torch.gather x idxl ;;
  xr <- Torch.gather x idxr ;;
  let dxrl := Torch.map2 Qminus xr xl in
  (* calculate the coefficients of the large matrices *)
  let t := Torch.map2 Qdiv (Torch.map2 Qminus xq xl) dxrl in
  let tinv := map (fun t => 1 - t) t in
  let tta := Torch.map2 Qmult (Torch.map2 Qmult t tinv) tinv in
  let ttb := Torch.map2 Qmult (Torch.map2 Qmult t tinv) t in
  let tyl := Torch.map2 Qminus (Torch.map2 Qplus tinv tta) ttb in
  let tyr := Torch.map2 Qplus (Torch.map2 Qminus t tta) ttb in
  let tkl := Torch.map2 Qmult tta dxrl in
  let tkr := Torch.map2 Qmult (map Qopp ttb) dxrl in
  mapM (fun yk =>
          let y := fst yk in
          let ks := snd yk in
          yl <- Torch.index y idxl ;;
          yr <- Torch.index y idxr ;;
          kl <- Torch.index ks idxl ;;
          kr <- Torch.index ks idxr ;;
          Ok (Torch.map2 Qplus
                (Torch.map2 Qplus
                   (Torch.map2 Qplus (Torch.map2 Qmult yl tyl) (Torch.map2 Qmult yr tyr))
                   (Torch.map2 Qmult kl tkl))
                (Torch.map2 Qmult kr tkr)))
       (combine y ks).

Definition _interp (self : t) (xq : vec) (y : batch) : result batch :=
  (* get the k-vector (i.e. the gradient at every points) *)
  ks <- (if y_is_given self then
           match ks self with
           | Some k => Ok k
           | None => Raise (AttributeError "ks")
           end
         else Torch.matmul_rows (spline_mat_inv self) y) ;;
  let x := x self in
  (* find the index location of xq *)
  let idx := segment_indices x xq in
  let idxl := fst idx in
  let idxr := snd idx in
  if (length x <? length xq)%nat
  then interp_polynomial x xq idxl y ks
  else interp_hermite x xq idxl idxr y ks.

#[global] Instance kernel : BaseInterp1D.Kernel t := {
  BaseInterp1D.base := super;
  BaseInterp1D.attr_y := y;
  BaseInterp1D._interp := _interp
}.

(** [CubicSpline1D(...)(xq, y)]. *)
Definition __call__ (uninit : fl) (self : t) (xq : vec) (y : option batch)
  : list warning * result (list (list fl)) :=
  BaseInterp1D.__call__ uninit self xq y.

(** Lines 199-204. *)
Definition getparamnames (self : t) : list string :=
  if y_is_given self then ["x"; "y"; "ks"]%string
  else ["spline_mat_inv"; "x"]%string.

(** The tensor attributes of an instance, by name: [self.x] and
    [self.spline_mat_inv] are always set, [self.y] and [self.ks] only by the
    branch of lines 127-131. *)
Inductive tensor : Type :=
| Tensor1 (v : vec)
| Tensor2 (m : list (list Q)).

Definition getattr (self : t) (name : string) : option tensor :=
  if String.eqb name "x" then Some (Tensor1 (x self))
  else if String.eqb name "spline_mat_inv" then Some (Tensor2 (spline_mat_inv self))
  else if String.eqb name "y" then option_map Tensor2 (y self)
  else if String.eqb name "ks" then option_map Tensor2 (ks self)
  else None.

End CubicSpline1D.

(** ** A reference solver

    An executable stand-in for the external [torch.solve], used to run the
    model on concrete inputs: Gauss-Jordan elimination on the augmented
    rows [A | B] with the first non-zero entry of the column as pivot. *)

Module Reference.

Local Open Scope Q_scope.

Definition axpy (c : Q) (p r : vec) : vec :=
  Torch.map2 (fun ri pi => Qred (ri - c * pi)) r p.

Definition reduce_by (k : nat) (p : vec) (r : vec) : vec := axpy (nth k r 0) p r.

Fixpoint pick_pivot (k : nat) (rows : list vec) : option (vec * list vec) :=
  match rows with
  | [] => None
  | r :: rows' =>
      if Qeq_bool (nth k r 0) 0 then
        match pick_pivot k rows' with
        | Some (p, others) => Some (p, r :: others)
        | None => None
        end
      else Some (r, rows')
  end.

Fixpoint gauss_jordan (steps k : nat) (done todo : list vec) : list vec :=
  match steps with
  | O => done ++ todo
  | S steps' =>
      match pick_pivot k todo with
      | None => done ++ todo
      | Some (p, others) =>
          let p' := map (fun e => Qred (e / nth k p 0)) p in
          gauss_jordan steps' (S k)
            (map (reduce_by k p') done ++ [p'])
            (map (reduce_by k p') others)
      end
  end.

(** [solve B A] returns [X] with [A X = B] when [A] is regular. *)
Definition solve (B A : mat) : mat :=
  let n := length A in
  map (skipn n) (gauss_jordan n 0 [] (Torch.map2 (@app Q) A B)).

(** A second solver: the equations are taken in the opposite order, so
    the pivots are found in other rows. *)
Definition solve_reversed (B A : mat) : mat := solve (rev B) (rev A).

End Reference.

(** ** Preconditions on the inputs *)

(** The abscissas are strictly increasing. *)
Fixpoint strictly_increasing (x : vec) : bool :=
  match x with
  | a :: (b :: _) as x' => negb (Qle_bool b a) && strictly_increasing x'
  | _ => true
  end.

(** Every row of a batch has [n] elements. *)
Definition rows_of_length (n : nat) (y : batch) : Prop :=
  Forall (fun r => length r = n) y.

(** ** The contract of the external solver

    [torch.solve(B, A)] returns [X] of the shape of [B] with [A X = B].  The
    contract is stated at the one system that [_get_spline_mat_inv] hands
    to the solver, as a decidable check. *)

Definition squareb (n : nat) (M : mat) : bool :=
  (length M =? n)%nat && forallb (fun r => (length r =? n)%nat) M.

Definition veqb (a b : vec) : bool :=
  (length a =? length b)%nat
  && forallb (fun p => Qeq_bool (fst p) (snd p)) (combine a b).

Definition mat_eqb (A B : mat) : bool :=
  (length A =? length B)%nat
  && forallb (fun p => veqb (fst p) (snd p)) (combine A B).

(** The answer has the shape of the right-hand side. *)
Definition solve_shape (solve : mat -> mat -> mat) (x : vec) (bc_type : string) : bool :=
  match spline_matrices x bc_type with
  | Ok (A, B) => squareb (length x) (solve B A)
  | Raise _ => true
  end.

(** The answer has that shape and solves the system. *)
Definition solve_contract (solve : mat -> mat -> mat) (x : vec) (bc_type : string) : bool :=
  solve_shape solve x bc_type
  && match spline_matrices x bc_type with
     | Ok (A, B) => mat_eqb (Torch.mat_mul A (solve B A)) B
     | Raise _ => true
     end.

(** ** The spline system as the specification words it

    Entry by entry, what section 4.1 of the specification says.  [dxinv]
    is the zero-padded sequence of inverse spacings: index 0 and index [nr]
    hold the padding, index [i] in between holds [1 / (x[i] - x[i-1])]. *)

Module Spec.

Local Open Scope Q_scope.

Definition dxinv (x : vec) (i : nat) : Q :=
  if ((i =? 0) || (length x <=? i))%nat then 0
  else 1 / (nth i x 0 - nth (i - 1) x 0).

(** A boundary row under the clamped condition. *)
Definition pinned (x : vec) (bc_type : string) (i : nat) : bool :=
  String.eqb bc_type "clamped" && ((i =? 0) || (i =? length x - 1))%nat.

Definition LeftHand (x : vec) (bc_type : string) (i j : nat) : Q :=
  if pinned x bc_type i then (if (j =? i)%nat then 1 else 0)
  else if (j =? i)%nat then 2 * (dxinv x i + dxinv x (i + 1))
  else if (j =? i + 1)%nat then dxinv x (i + 1)
  else if (i =? j + 1)%nat then dxinv x (j + 1)
  else 0.

Definition RightHand (x : vec) (bc_type : string) (i j : nat) : Q :=
  if pinned x bc_type i then 0
  else if (j =? i)%nat then 3 * (dxinv x i * dxinv x i - dxinv x (i + 1) * dxinv x (i + 1))
  else if (j =? i + 1)%nat then 3 * (dxinv x (i + 1) * dxinv x (i + 1))
  else if (i =? j + 1)%nat then - (3 * (dxinv x (j + 1) * dxinv x (j + 1)))
  else 0.

(** [sum_{k < n} f k]. *)
Definition sum (n : nat) (f : nat -> Q) : Q :=
  fold_right Qplus 0 (map f (seq 0 n)).

End Spec.

(** A tensor of [n] rows and [m] columns. *)
Definition shape (n m : nat) (M : mat) : Prop :=
  length M = n /\ rows_of_length m M.

(** ** The value at one query

    The scalar reading of the vectorised code of [_interp]: what lines
    144-197 compute at one position of [xq] and one row of [y]. *)

Module AtQuery.

Local Open Scope Q_scope.

Definition idxr (x : vec) (q : Q) : Z :=
  Torch.clamp (Torch.searchsorted1 x q) 1 (Z.of_nat (length x) - 1).

Definition idxl (x : vec) (q : Q) : Z := (idxr x q - 1)%Z.

Definition polynomial (x y ks : vec) (q : Q) : Q :=
  let l := Z.to_nat (idxl x q) in
  let xl := Torch.init x in
  let dx := Torch.map2 Qminus (Torch.rest x) xl in
  let t := (q - nth l xl 0) / nth l dx 0 in
  let yl := Torch.init y in
  let dy := Torch.map2 Qminus (Torch.rest y) yl in
  let a := Torch.map2 Qminus (Torch.map2 Qmult (Torch.init ks) dx) dy in
  let b := Torch.map2 Qplus (Torch.map2 Qmult (map Qopp (Torch.rest ks)) dx) dy in
  let p0 := yl in
  let p1 := Torch.map2 Qplus dy a in
  let p2 := Torch.map2 Qminus b (map (Qmult 2) a) in
  let p3 := Torch.map2 Qminus a b in
  ((nth l p3 0 * t + nth l p2 0) * t + nth l p1 0) * t + nth l p0 0.

Definition hermite (x y ks : vec) (q : Q) : Q :=
  let l := Z.to_nat (idxl x q) in
  let r := Z.to_nat (idxr x q) in
  let xl := nth l x 0 in
  let xr := nth r x 0 in
  let yl := nth l y 0 in
  let yr := nth r y 0 in
  let kl := nth l ks 0 in
  let kr := nth r ks 0 in
  let dxrl := xr - xl in
  let t := (q - xl) / dxrl in
  let tinv := 1 - t in
  let tta := t * tinv * tinv in
  let ttb := t * tinv * t in
  let tyl := tinv + tta - ttb in
  let tyr := t - tta + ttb in
  let tkl := tta * dxrl in
  let tkr := - ttb * dxrl in
  yl * tyl + yr * tyr + kl * tkl + kr * tkr.

End AtQuery.


(** What [_interp] returns, row by row and query by query: the polynomial
    formulation when [poly] holds, the Hermite one otherwise. *)
Definition interp_values (poly : bool) (x : vec) (y ks : batch) (xq : vec) : batch :=
  map (fun yk => map ((if poly then AtQuery.polynomial else AtQuery.hermite)
                        x (fst yk) (snd yk)) xq)
      (combine y ks).

(** The two ways of handing the ordinates [y] to an interpolant: bound at
    construction, or supplied with the call. *)
Definition passes (y : batch) (at_init at_call : option batch) : Prop :=
  (at_init = Some y /\ at_call = None) \/ (at_init = None /\ at_call = Some y).

(** The ordinates pass the periodicity check whenever the resolved
    extrapolation mode asks for it. *)
Definition periodic_ok (extrap : option extrap_t) (bc_type : string) (y : batch) : Prop :=
  forall e, check_and_get_extrap extrap bc_type = Ok e ->
            extrap_is e "periodic" = true -> check_periodic_value y = Ok tt.

(** The first and the last ordinate of every row are close in the sense of
    [torch.allclose]. *)
Definition endpoints_close (y : batch) : bool :=
  forallb (fun r => Torch.isclose (nth 0 r 0) (nth (length r - 1) r 0)) y.

(** The modes that lines 44-57 and the extrapolation helpers know. *)
Definition known_mode (e : extrap_t) : Prop :=
  forall s, e = ExtrapStr s ->
            In s ["mirror"; "periodic"; "bound"; "nan"]%string.

(** ** The data of [_tests/test_interp.py] *)

Module TestData.

Local Open Scope Q_scope.

Definition x : vec := [0; 2 # 10; 3 # 10; 5 # 10; 8 # 10; 1].

(** [test_interp1_cspline]: [y1], [y2], [xq1 = linspace(0, 1, 10)]. *)
Definition y1 : batch := [[1; 15 # 10; 21 # 10; 11 # 10; 23 # 10; 25 # 10]].

Definition y2 : batch :=
  [[1; 15 # 10; 21 # 10; 11 # 10; 23 # 10; 25 # 10];
   [8 # 10; 12 # 10; 22 # 10; 4 # 10; 32 # 10; 12 # 10]].

Definition xq1 : vec := map (fun k => inject_Z (Z.of_nat k) / 9) (seq 0 10).

Definition yq11_true : batch :=
  [[1; 110966822 # 100000000; 165764362 # 100000000; 208516021 # 100000000;
    140964624 # 100000000; 104718761 # 100000000; 152146065 # 100000000;
    219990128 # 100000000; 249291361 # 100000000; 25 # 10]].

(** [test_extrap]: [y1], [xq1] and the expected interior values. *)
Definition ye : batch :=
  [[1; 21 # 10; 15 # 10; 11 # 10; 23 # 10; 25 # 10];
   [0; 12 # 10; 22 # 10; 4 # 10; 32 # 10; 12 # 10]].

Definition xqe : vec :=
  [0; 1 # 3; 2 # 3; 1; - (1 # 3); - 1; - (4 # 3); 4 # 3; 2; 7 # 3; 3].

Definition yq_mir_true : batch :=
  [[1; 13127193 # 10000000; 17445744 # 10000000; 25 # 10; 13127193 # 10000000;
    25 # 10; 17445744 # 10000000; 17445744 # 10000000; 1; 13127193 # 10000000;
    25 # 10];
   [0; 213368966 # 100000000; 182654566 # 100000000; 12 # 10;
    213368966 # 100000000; 12 # 10; 182654566 # 100000000;
    182654566 # 100000000; 0; 213368966 # 100000000; 12 # 10]].

(** Ordinates whose endpoints differ by one part in a million. *)
Definition y_almost_periodic : batch :=
  [[1; 15 # 10; 21 # 10; 11 # 10; 23 # 10; 1000001 # 1000000]].

(** All entries are finite and within [tol] of the expected ones. *)
Definition within (tol : Q) (got : list (list fl)) (want : batch) : bool :=
  (length got =? length want)%nat
  && forallb (fun p =>
                (length (fst p) =? length (snd p))%nat
                && forallb (fun e => match fst e with
                                     | Fin v => Qle_bool (Qabs (v - snd e)) tol
                                     | NaN => false
                                     end)
                     (combine (fst p) (snd p)))
       (combine got want).

(** [Interp1D(x, y, method="cspline", bc_type=..., extrap=...)(xq)], with
    the reference solver. *)
Definition interp (bc : string) (extrap : extrap_t) (y : batch) (xq : vec)
  : result (list (list fl)) :=
  itp <- CubicSpline1D.__init__ Reference.solve x (Some y) (Some bc) (Some extrap) ;;
  snd (CubicSpline1D.__call__ NaN itp xq None).

(** The same with the ordinates supplied at the call. *)
Definition interp_unbound (bc : string) (extrap : extrap_t) (y : batch) (xq : vec)
  : result (list (list fl)) :=
  itp <- CubicSpline1D.__init__ Reference.solve x None (Some bc) (Some extrap) ;;
  snd (CubicSpline1D.__call__ NaN itp xq (Some y)).

Definition returns {A : Type} (r : result A) : bool :=
  match r with
  | Ok _ => true
  | Raise _ => false
  end.

End TestData.

(** ** The cubic of one segment

    Lines 151-162 for one row of [y] and [ks]: the spacings and the
    coefficients of the polynomial in [t] of every segment, then the value
    of segment [l] at the normalised position [t] and its first and second
    derivative with respect to the abscissa (the derivative of the
    polynomial in [t], divided by the spacing once per order). *)

Module Segment.

Local Open Scope Q_scope.

Definition dx (x : vec) : vec := Torch.map2 Qminus (Torch.rest x) (Torch.init x).

Definition dy (y : vec) : vec := Torch.map2 Qminus (Torch.rest y) (Torch.init y).

Definition a (x y ks : vec) : vec :=
  Torch.map2 Qminus (Torch.map2 Qmult (Torch.init ks) (dx x)) (dy y).

Definition b (x y ks : vec) : vec :=
  Torch.map2 Qplus (Torch.map2 Qmult (map Qopp (Torch.rest ks)) (dx x)) (dy y).

Definition p0 (y : vec) : vec := Torch.init y.

Definition p1 (x y ks : vec) : vec := Torch.map2 Qplus (dy y) (a x y ks).

Definition p2 (x y ks : vec) : vec :=
  Torch.map2 Qminus (b x y ks) (map (Qmult 2) (a x y ks)).

Definition p3 (x y ks : vec) : vec := Torch.map2 Qminus (a x y ks) (b x y ks).

Definition value (x y ks : vec) (l : nat) (t : Q) : Q :=
  ((nth l (p3 x y ks) 0 * t + nth l (p2 x y ks) 0) * t + nth l (p1 x y ks) 0) * t
  + nth l (p0 y) 0.

Definition slope (x y ks : vec) (l : nat) (t : Q) : Q :=
  ((3 * nth l (p3 x y ks) 0 * t + 2 * nth l (p2 x y ks) 0) * t + nth l (p1 x y ks) 0)
  / nth l (dx x) 0.

Definition curvature (x y ks : vec) (l : nat) (t : Q) : Q :=
  (6 * nth l (p3 x y ks) 0 * t + 2 * nth l (p2 x y ks) 0)
  / (nth l (dx x) 0 * nth l (dx x) 0).

End Segment.

(** * The same program at binary64

    The tensors of the source hold binary64 numbers.  This module repeats
    the embedding with the kernel's primitive floats, operation by
    operation and in the order of the source, so that overflow, infinities
    and not-a-number behave as they do in the program. *)

Module Binary64.

Import PrimFloat.
Local Open Scope float_scope.
#[local] Set Warnings "-inexact-float".

(** ** Tensor primitives *)

(** [torch.searchsorted(x, v, right=False)] for one value. *)
Fixpoint lower_bound (fuel : nat) (x : list float) (v : float) (lo hi : nat) : nat :=
  match fuel with
  | O => lo
  | S fuel' =>
      if (lo <? hi)%nat then
        let mid := (lo + (hi - lo) / 2)%nat in
        if v <=? nth mid x 0 then lower_bound fuel' x v lo mid
        else lower_bound fuel' x v (S mid) hi
      else lo
  end.

Definition searchsorted1 (x : list float) (v : float) : Z :=
  Z.of_nat (lower_bound (length x) x v 0 (length x)).

Definition searchsorted (x xq : list float) : list Z := map (searchsorted1 x) xq.

(** [torch.matmul(M, y.unsqueeze(-1)).squeeze(-1)] for one row [y]. *)
Definition dot (a b : list float) : float := fold_right add 0 (Torch.map2 mul a b).

Definition matvec (M : list (list float)) (y : list float) : result (list float) :=
  if forallb (fun r => (length r =? length y)%nat) M
  then Ok (map (fun r => dot r y) M)
  else Raise TorchError.

Definition matmul_rows (M y : list (list float)) : result (list (list float)) :=
  mapM (matvec M) y.

(** [torch.zeros((n, m))] and the writes through views of a matrix. *)
Definition zeros (n m : nat) : list (list float) := repeat (repeat 0 m) n.

Definition mat_imap (f : nat -> nat -> float -> float) (M : list (list float))
  : list (list float) :=
  Torch.imap_from (fun i r => Torch.imap_from (fun j e => f i j e) 0%nat r) 0%nat M.

Definition diag_len (k : Z) (M : list (list float)) : nat :=
  (length M - Z.abs_nat k)%nat.

Definition diag_write (k : Z) (v : list float) (i j : nat) (e : float) : float :=
  if (Z.of_nat j =? Z.of_nat i + k)%Z then nth (Nat.min i j) v 0 else e.

Definition set_diagonal (k : Z) (v : list float) (M : list (list float))
  : result (list (list float)) :=
  if (length v =? diag_len k M)%nat then Ok (mat_imap (diag_write k v) M)
  else Raise TorchError.

Definition row_write (r : Z) (c : float) (i j : nat) (e : float) : float :=
  if (Z.of_nat i =? r)%Z then c else e.

Definition fill_row (i : Z) (c : float) (M : list (list float))
  : result (list (list float)) :=
  let r := Torch.wrap (length M) i in
  if ((0 <=? r) && (r <? Z.of_nat (length M)))%Z then
    Ok (mat_imap (row_write r c) M)
  else Raise IndexError.

Definition entry_write (r s : Z) (c : float) (i j : nat) (e : float) : float :=
  if ((Z.of_nat i =? r) && (Z.of_nat j =? s))%Z then c else e.

Definition set_entry (i j : Z) (c : float) (M : list (list float))
  : result (list (list float)) :=
  let r := Torch.wrap (length M) i in
  let s := Torch.wrap (length (hd [] M)) j in
  if ((0 <=? r) && (r <? Z.of_nat (length M))
      && (0 <=? s) && (s <? Z.of_nat (length (hd [] M))))%Z then
    Ok (mat_imap (entry_write r s c) M)
  else Raise IndexError.

(** [torch.min] and [torch.max] over the last axis; not-a-number
    propagates. *)
Definition fmin (a b : float) : float :=
  if is_nan a || is_nan b then nan else if b <? a then b else a.

Definition fmax (a b : float) : float :=
  if is_nan a || is_nan b then nan else if a <? b then b else a.

Definition min (x : list float) : result float :=
  match x with
  | [] => Raise TorchError
  | a :: x' => Ok (fold_left fmin x' a)
  end.

Definition max (x : list float) : result float :=
  match x with
  | [] => Raise TorchError
  | a :: x' => Ok (fold_left fmax x' a)
  end.

(** [torch.allclose(a, b)] with the default [rtol=1e-05], [atol=1e-08]. *)
Definition isclose (a b : float) : bool :=
  abs (a - b) <=? 1e-8 + 1e-5 * abs b.

Definition allclose (a b : list float) : bool :=
  forallb (fun p => isclose (fst p) (snd p)) (combine a b).

(** ** Extrapolation options *)

Inductive extrap_t : Type :=
| ExtrapStr (s : string)
| ExtrapNum (v : float)
| ExtrapFun (f : list float -> list float).

Definition extrap_is (e : extrap_t) (s : string) : bool :=
  match e with
  | ExtrapStr s' => String.eqb s' s
  | _ => false
  end.

Definition check_and_get_extrap (extrap : option extrap_t) (bc_type : string)
  : result extrap_t :=
  match extrap with
  | None =>
      dict_getitem [("natural", ExtrapStr "nan");
                    ("clamped", ExtrapStr "mirror")]%string bc_type
  | Some e => Ok e
  end.

Definition check_periodic_value (y : list (list float)) : result unit :=
  y0 <- mapM (fun r => Torch.getitem r 0) y ;;
  y1 <- mapM (fun r => Torch.getitem r (-1)) y ;;
  if negb (allclose y0 y1) then Raise PeriodicityViolation else Ok tt.

(** Modelled from the spec: the largest integer not above [z].  Below
    [2^52] in magnitude, adding and subtracting [2^52] rounds to an
    integer; at and above it every binary64 number is an integer. *)
Definition floor (z : float) : float :=
  if is_nan z || (4503599627370496 <=? abs z) then z
  else let r := if 0 <=? z then (z + 4503599627370496) - 4503599627370496
                else (z - 4503599627370496) + 4503599627370496 in
       if z <? r then r - 1 else r.

(** Modelled from the spec: position of [q] in the domain in units of the
    domain length, split into its integer part and its fractional part. *)
Definition periods (q xmin xmax : float) : float := floor ((q - xmin) / (xmax - xmin)).
Definition phase (q xmin xmax : float) : float :=
  (q - xmin) / (xmax - xmin) - periods q xmin xmax.
Definition even (p : float) : bool := floor (p / 2) * 2 =? p.

(** Modelled from the spec: [get_extrap_pos] of
    [xitorch/_impls/interpolate/extrap_utils.py], which is not among the
    sources.  Spec 4.4: Bound clamps the abscissa to the nearest domain
    edge; Mirror reflects the excess distance back into the domain;
    Periodic wraps it modulo the domain length. *)
Definition get_extrap_pos (xqextrap : list float) (extrap : extrap_t) (xmin xmax : float)
  : list float :=
  if extrap_is extrap "bound" then
    map (fun q => fmin (fmax q xmin) xmax) xqextrap
  else if extrap_is extrap "periodic" then
    map (fun q => xmin + phase q xmin xmax * (xmax - xmin)) xqextrap
  else
    map (fun q => if even (periods q xmin xmax)
                  then xmin + phase q xmin xmax * (xmax - xmin)
                  else xmax - phase q xmin xmax * (xmax - xmin)) xqextrap.

(** Modelled from the spec: [get_extrap_val] of the same absent module.
    Spec 4.4: Constant broadcasts the fixed value, Nan broadcasts
    not-a-number, Custom applies the supplied function to the exterior
    abscissas. *)
Definition get_extrap_val (xqextrap : list float) (y : list (list float))
    (extrap : extrap_t) : result (list (list float)) :=
  match extrap with
  | ExtrapNum v => Ok (map (fun _ => map (fun _ => v) xqextrap) y)
  | ExtrapFun f => Ok (map (fun _ => f xqextrap) y)
  | ExtrapStr s =>
      if String.eqb s "nan" then Ok (map (fun _ => map (fun _ => nan) xqextrap) y)
      else Raise (UnknownExtrapolation s)
  end.

(** ** [_get_spline_mat_inv] *)

(** Lines 242-282: the left-hand matrix [spline_mat] and the right-hand
    matrix [matr]. *)
Definition spline_matrices (x : list float) (bc_type : string)
  : result (list (list float) * list (list float)) :=
  let nr := length x in
  (* construct the matrix for the left hand side *)
  let dxinv0 := Torch.map2 (fun a b => 1 / (a - b)) (Torch.rest x) (Torch.init x) in
  let zero_pad := map (fun _ => 0) (firstn 1 dxinv0) in
  let dxinv := zero_pad ++ dxinv0 ++ zero_pad in
  let diag := map (fun s => s * 2) (Torch.map2 add (Torch.init dxinv) (Torch.rest dxinv)) in
  let offdiag := dxinv0 in
  let spline_mat := zeros nr nr in
  spline_mat <- set_diagonal 0 diag spline_mat ;;
  spline_mat <- set_diagonal 1 offdiag spline_mat ;;
  spline_mat <- set_diagonal (-1) offdiag spline_mat ;;
  (* construct the matrix on the right hand side *)
  let dxinv2 := map (fun d => (d * d) * 3) dxinv in
  let diagr := Torch.map2 sub (Torch.init dxinv2) (Torch.rest dxinv2) in
  let udiagr := Torch.init (Torch.rest dxinv2) in
  let ldiagr := map opp udiagr in
  let matr := zeros nr nr in
  matr <- set_diagonal 0 diagr matr ;;
  matr <- set_diagonal 1 udiagr matr ;;
  matr <- set_diagonal (-1) ldiagr matr ;;
  if String.eqb bc_type "clamped" then
    spline_mat <- fill_row 0 0 spline_mat ;;
    spline_mat <- set_entry 0 0 1 spline_mat ;;
    spline_mat <- fill_row (-1) 0 spline_mat ;;
    spline_mat <- set_entry (-1) (-1) 1 spline_mat ;;
    matr <- fill_row 0 0 matr ;;
    matr <- fill_row (-1) 0 matr ;;
    Ok (spline_mat, matr)
  else Ok (spline_mat, matr).

(** Line 285, for a given solver. *)
Definition _get_spline_mat_inv (solve : list (list float) -> list (list float) -> list (list float))
    (x : list float) (bc_type : string) : result (list (list float)) :=
  sm <- spline_matrices x bc_type ;;
  Ok (solve (snd sm) (fst sm)).

(** ** The instance *)

Record t : Type := mk {
  _y_is_given : bool;
  _extrap : extrap_t;
  _xmin : float;
  _xmax : float;
  _is_periodic_required : bool;
  x : list float;
  bc_type : string;
  spline_mat_inv : list (list float);
  y_is_given : bool;
  y : option (list (list float));
  ks : option (list (list float))
}.

(** Lines 104-131, with lines 9-14 of the base class in the place of the
    [super().__init__] call. *)
Definition __init__ (solve : list (list float) -> list (list float) -> list (list float))
    (x : list float) (y : option (list (list float))) (bc_type : option string)
    (extrap : option extrap_t) : result t :=
  let bc_type := match bc_type with None => "natural"%string | Some b => b end in
  extrap <- check_and_get_extrap extrap bc_type ;;
  xmin <- min x ;;
  xmax <- max x ;;
  if negb (existsb (String.eqb bc_type) CubicSpline1D.bc_types) then
    Raise (ConfigurationError bc_type)
  else
    let periodic := extrap_is extrap "periodic" in
    spline_mat_inv <- _get_spline_mat_inv solve x bc_type ;;
    let y_is_given := is_not_None y in
    match y with
    | Some y' =>
        (if periodic then check_periodic_value y' else Ok tt) ;;;
        ks <- matmul_rows spline_mat_inv y' ;;
        Ok (mk (is_not_None y) extrap xmin xmax periodic
               x bc_type spline_mat_inv y_is_given (Some y') (Some ks))
    | None =>
        Ok (mk (is_not_None y) extrap xmin xmax periodic
               x bc_type spline_mat_inv y_is_given None None)
    end.

(** ** [_interp] *)

(** Lines 144-147. *)
Definition segment_indices (x xq : list float) : list Z * list Z :=
  let nr := Z.of_nat (length x) in
  let idxr := searchsorted x xq in
  let idxr := map (fun i => Torch.clamp i 1 (nr - 1)) idxr in
  let idxl := map (fun i => (i - 1)%Z) idxr in
  (idxl, idxr).

(** Lines 150-173. *)
Definition interp_polynomial (x xq : list float) (idxl : list Z)
    (y ks : list (list float)) : result (list (list float)) :=
  let xl := Torch.init x in
  let dx := Torch.map2 sub (Torch.rest x) xl in
  xlg <- Torch.gather xl idxl ;;
  dxg <- Torch.gather dx idxl ;;
  let t := Torch.map2 div (Torch.map2 sub xq xlg) dxg in
  mapM (fun yk =>
          let y := fst yk in
          let ks := snd yk in
          let yl := Torch.init y in
          let dy := Torch.map2 sub (Torch.rest y) yl in
          let a := Torch.map2 sub (Torch.map2 mul (Torch.init ks) dx) dy in
          let b := Torch.map2 add (Torch.map2 mul (map opp (Torch.rest ks)) dx) dy in
          let p0 := yl in
          let p1 := Torch.map2 add dy a in
          let p2 := Torch.map2 sub b (map (mul 2) a) in
          let p3 := Torch.map2 sub a b in
          p3g <- Torch.index p3 idxl ;;
          let yq := Torch.map2 mul p3g t in
          p2g <- Torch.index p2 idxl ;;
          let yq := Torch.map2 add yq p2g in
          let yq := Torch.map2 mul yq t in
          p1g <- Torch.index p1 idxl ;;
          let yq := Torch.map2 add yq p1g in
          let yq := Torch.map2 mul yq t in
          p0g <- Torch.index p0 idxl ;;
          let yq := Torch.map2 add yq p0g in
          Ok yq)
       (combine y ks).

(** Lines 176-197. *)
Definition interp_hermite (x xq : list float) (idxl idxr : list Z)
    (y ks : list (list float)) : result (list (list float)) :=
  xl <- Torch.gather x idxl ;;
  xr <- Torch.gather x idxr ;;
  let dxrl := Torch.map2 sub xr xl in
  let t := Torch.map2 div (Torch.map2 sub xq xl) dxrl in
  let tinv := map (fun t => 1 - t) t in
  let tta := Torch.map2 mul (Torch.map2 mul t tinv) tinv in
  let ttb := Torch.map2 mul (Torch.map2 mul t tinv) t in
  let tyl := Torch.map2 sub (Torch.map2 add tinv tta) ttb in
  let tyr := Torch.map2 add (Torch.map2 sub t tta) ttb in
  let tkl := Torch.map2 mul tta dxrl in
  let tkr := Torch.map2 mul (map opp ttb) dxrl in
  mapM (fun yk =>
          let y := fst yk in
          let ks := snd yk in
          yl <- Torch.index y idxl ;;
          yr <- Torch.index y idxr ;;
          kl <- Torch.index ks idxl ;;
          kr <- Torch.index ks idxr ;;
          Ok (Torch.map2 add
                (Torch.map2 add
                   (Torch.map2 add (Torch.map2 mul yl tyl) (Torch.map2 mul yr tyr))
                   (Torch.map2 mul kl tkl))
                (Torch.map2 mul kr tkr)))
       (combine y ks).

Definition _interp (self : t) (xq : list float) (y : list (list float))
  : result (list (list float)) :=
  ks <- (if y_is_given self then
           match ks self with
           | Some k => Ok k
           | None => Raise (AttributeError "ks")
           end
         else matmul_rows (spline_mat_inv self) y) ;;
  let x := x self in
  let idx := segment_indices x xq in
  let idxl := fst idx in
  let idxr := snd idx in
  if (length x <? length xq)%nat
  then interp_polynomial x xq idxl y ks
  else interp_hermite x xq idxl idxr y ks.

(** ** [__call__] *)

(** Lines 22-57; [uninit] is the content of the memory that [torch.empty]
    hands out. *)
Definition __call__ (uninit : float) (self : t) (xq : list float)
    (y : option (list (list float)))
  : list warning * result (list (list float)) :=
  let warned :=
    if _y_is_given self && is_not_None y then [ConflictingInputAdvisory] else [] in
  (warned,
   y <- (if _y_is_given self then
           match Binary64.y self with
           | Some y' => Ok y'
           | None => Raise (AttributeError "y")
           end
         else match y with
              | None => Raise MissingDataError
              | Some y' =>
                  if _is_periodic_required self
                  then check_periodic_value y' ;;; Ok y'
                  else Ok y'
              end) ;;
   let extrap := _extrap self in
   let xqinterp_mask := map (fun q => (_xmin self <=? q) && (q <=? _xmax self)) xq in
   let xqextrap_mask := map negb xqinterp_mask in
   let allinterp := forallb (fun b => b) xqinterp_mask in
   if allinterp then _interp self xq y
   else if extrap_is extrap "mirror" || extrap_is extrap "periodic"
           || extrap_is extrap "bound" then
     let xq2 :=
       Torch.masked_assign xq xqextrap_mask
         (get_extrap_pos (Torch.masked_select xq xqextrap_mask)
            extrap (_xmin self) (_xmax self)) in
     _interp self xq2 y
   else
     yqinterp <- _interp self (Torch.masked_select xq xqinterp_mask) y ;;
     yqextrap <- get_extrap_val (Torch.masked_select xq xqextrap_mask) y extrap ;;
     let yq := map (fun _ => map (fun _ => uninit) xq) y in
     let yq := Torch.map2 (fun row src => Torch.masked_assign row xqinterp_mask src)
                 yq yqinterp in
     let yq := Torch.map2 (fun row src => Torch.masked_assign row xqextrap_mask src)
                 yq yqextrap in
     Ok yq).

(** ** A reference solver

    An executable stand-in for the external [torch.solve] at binary64:
    elimination with partial pivoting on the augmented rows [A | B], then
    back substitution, the method of LAPACK's [gesv]. *)

(** The row of [rows] with the largest entry in column [k], and the
    others. *)
Fixpoint pick_pivot (k : nat) (rows : list (list float))
  : option (list float * list (list float)) :=
  match rows with
  | [] => None
  | r :: rows' =>
      match pick_pivot k rows' with
      | Some (p, others) =>
          if abs (nth k r 0) <? abs (nth k p 0) then Some (p, r :: others)
          else Some (r, p :: others)
      | None => Some (r, [])
      end
  end.

Definition eliminate (k : nat) (p r : list float) : list float :=
  let l := nth k r 0 / nth k p 0 in
  Torch.map2 (fun ri pi => ri - l * pi) r p.

(** Forward elimination: the rows of the upper-triangular system, first
    pivot first. *)
Fixpoint forward (steps k : nat) (todo : list (list float)) : list (list float) :=
  match steps with
  | O => []
  | S steps' =>
      match pick_pivot k todo with
      | None => []
      | Some (p, others) => p :: forward steps' (S k) (map (eliminate k p) others)
      end
  end.

(** Back substitution, last row first: [solved] holds the rows of the
    answer for the unknowns after [k]. *)
Definition back_row (n k : nat) (row : list float) (solved : list (list float))
  : list float :=
  let rhs := skipn n row in
  let coeffs := firstn (n - S k) (skipn (S k) row) in
  let acc := fold_left (fun b cx => Torch.map2 (fun bi xi => bi - fst cx * xi) b (snd cx))
               (combine coeffs solved) rhs in
  map (fun b => b / nth k row 0) acc.

Fixpoint back (n k : nat) (upper : list (list float)) : list (list float) :=
  match upper with
  | [] => []
  | row :: upper' =>
      let solved := back n (S k) upper' in
      back_row n k row solved :: solved
  end.

Definition solve (B A : list (list float)) : list (list float) :=
  let n := length A in
  back n 0 (forward n 0 (Torch.map2 (@app float) A B)).

(** ** Inputs and test data *)

Fixpoint strictly_increasing (x : list float) : bool :=
  match x with
  | a :: (b :: _) as x' => (a <? b) && strictly_increasing x'
  | _ => true
  end.

(** Neither an infinity nor not-a-number. *)
Definition finite (v : float) : bool := (abs v <? infinity).

Definition finite_entries (M : list (list float)) : list (list bool) :=
  map (map finite) M.

(** The right-hand matrix and the solved matrix of [x], when they exist. *)
Definition right_hand (x : list float) (bc : string) : list (list float) :=
  match spline_matrices x bc with
  | Ok sm => snd sm
  | Raise _ => []
  end.

Definition solved (x : list float) (bc : string) : list (list float) :=
  match _get_spline_mat_inv solve x bc with
  | Ok Zm => Zm
  | Raise _ => []
  end.


(** [torch.allclose(got, want, equal_nan=True)], row by row. *)
Definition close (got want : list (list float)) : bool :=
  (length got =? length want)%nat
  && forallb (fun p =>
                (length (fst p) =? length (snd p))%nat
                && forallb (fun e => (is_nan (fst e) && is_nan (snd e))
                                     || isclose (fst e) (snd e))
                     (combine (fst p) (snd p)))
       (combine got want).

(** [CubicSpline1D(x, y, bc_type=..., extrap=...)(xq)] with the reference
    solver. *)
Definition interp (bc : string) (extrap : option extrap_t) (x : list float)
    (y : list (list float)) (xq : list float) : result (list (list float)) :=
  itp <- __init__ solve x (Some y) (Some bc) extrap ;;
  snd (__call__ 0 itp xq None).

Definition close_to (r : result (list (list float))) (want : list (list float)) : bool :=
  match r with
  | Ok got => close got want
  | Raise _ => false
  end.

(** The data of [_tests/test_interp.py]. *)
Definition x_test : list float := [0; 0.2; 0.3; 0.5; 0.8; 1].
Definition y1 : list (list float) := [[1; 1.5; 2.1; 1.1; 2.3; 2.5]].
Definition xq1 : list float := map (fun k => k / 9) [0; 1; 2; 3; 4; 5; 6; 7; 8; 9].
Definition yq11_true : list (list float) :=
  [[1; 1.10966822; 1.65764362; 2.08516021; 1.40964624; 1.04718761;
    1.52146065; 2.19990128; 2.49291361; 2.5]].

Definition ye : list (list float) :=
  [[1; 2.1; 1.5; 1.1; 2.3; 2.5]; [0; 1.2; 2.2; 0.4; 3.2; 1.2]].
Definition xqe : list float :=
  [0; 1 / 3; 2 / 3; 3 / 3; -1 / 3; -1; -4 / 3; 4 / 3; 6 / 3; 7 / 3; 9 / 3].
Definition yq_nan_true : list (list float) :=
  [[1; 1.3127193; 1.7445744; 2.5; nan; nan; nan; nan; nan; nan; nan];
   [0; 2.13368966; 1.82654566; 1.2; nan; nan; nan; nan; nan; nan; nan]].
Definition yq_mir_true : list (list float) :=
  [[1; 1.3127193; 1.7445744; 2.5; 1.3127193; 2.5; 1.7445744; 1.7445744; 1;
    1.3127193; 2.5];
   [0; 2.13368966; 1.82654566; 1.2; 2.13368966; 1.2; 1.82654566; 1.82654566; 0;
    2.13368966; 1.2]].
Definition yq_bnd_true : list (list float) :=
  [[1; 1.3127193; 1.7445744; 2.5; 1; 1; 1; 2.5; 2.5; 2.5; 2.5];
   [0; 2.13368966; 1.82654566; 1.2; 0; 0; 0; 1.2; 1.2; 1.2; 1.2]].
Definition yq_1_true : list (list float) :=
  [[1; 1.3127193; 1.7445744; 2.5; 1; 1; 1; 1; 1; 1; 1];
   [0; 2.13368966; 1.82654566; 1.2; 1; 1; 1; 1; 1; 1; 1]].

(** Strictly increasing abscissas with one gap of [1e-200], ordinates for
    them, and queries outside and on both sides of the domain [[0, 1]]. *)
Definition x_gap : list float := [0; 1e-200; 0.5; 1].

End Binary64.

(** * Properties *)

(** ** The error monad and list helpers *)

Lemma mapM_ok {A B : Type} (f : A -> result B) (g : A -> B) (l : list A) :
  (forall a, In a l -> f a = Ok (g a)) -> mapM f l = Ok (map g l).
Proof.
  induction l as [|a l IH]; intros Hf; simpl.
  - reflexivity.
  - rewrite (Hf a (or_introl eq_refl)). simpl.
    rewrite IH by (intros b Hb; apply Hf; now right).
    reflexivity.
Qed.

Lemma mapM_length {A B : Type} (f : A -> result B) (l : list A) (r : list B) :
  mapM f l = Ok r -> length r = length l.
Proof.
  revert r. induction l as [|a l IH]; intros r; simpl.
  - intros [= <-]. reflexivity.
  - destruct (f a); simpl; [|discriminate].
    destruct (mapM f l); simpl; [|discriminate].
    intros [= <-]. simpl. f_equal. now apply IH.
Qed.

Section Map2.
Context {A B C D : Type}.

Lemma map2_length (f : A -> B -> C) (a : list A) (b : list B) :
  length (Torch.map2 f a b) = Nat.min (length a) (length b).
Proof. unfold Torch.map2. now rewrite length_map, length_combine. Qed.

Lemma map2_nth (f : A -> B -> C) (a : list A) (b : list B) (k : nat) da db dc :
  (k < length a)%nat -> (k < length b)%nat ->
  nth k (Torch.map2 f a b) dc = f (nth k a da) (nth k b db).
Proof.
  revert b k. induction a as [|a0 a IH]; intros [|b0 b] [|k]; simpl; try lia; auto.
  intros Ha Hb. apply IH; lia.
Qed.

Lemma map2_map_map (f : A -> B -> C) (g : D -> A) (h : D -> B) (l : list D) :
  Torch.map2 f (map g l) (map h l) = map (fun d => f (g d) (h d)) l.
Proof. induction l as [|d l IH]; simpl; [reflexivity|]. unfold Torch.map2 in *. simpl. now f_equal. Qed.

Lemma map2_self_map (f : D -> B -> C) (h : D -> B) (l : list D) :
  Torch.map2 f l (map h l) = map (fun d => f d (h d)) l.
Proof. induction l as [|d l IH]; simpl; [reflexivity|]. unfold Torch.map2 in *. simpl. now f_equal. Qed.
End Map2.

Lemma map_nth_in {A B : Type} (f : A -> B) (l : list A) (k : nat) d d' :
  (k < length l)%nat -> nth k (map f l) d = f (nth k l d').
Proof.
  intros Hk. rewrite (nth_indep _ d (f d')) by now rewrite length_map.
  apply map_nth.
Qed.

Lemma init_length {A : Type} (l : list A) : length (Torch.init l) = (length l - 1)%nat.
Proof.
  unfold Torch.init. induction l as [|a [|b l] IH]; simpl in *; try reflexivity.
  rewrite IH. lia.
Qed.

Lemma init_nth {A : Type} (l : list A) (k : nat) d :
  (k < length l - 1)%nat -> nth k (Torch.init l) d = nth k l d.
Proof.
  unfold Torch.init. revert k. induction l as [|a [|b l] IH]; intros k Hk; simpl in *; try lia.
  destruct k as [|k]; [reflexivity|]. apply IH. lia.
Qed.

Lemma rest_length {A : Type} (l : list A) : length (Torch.rest l) = (length l - 1)%nat.
Proof. destruct l; simpl; lia. Qed.

Lemma rest_nth {A : Type} (l : list A) (k : nat) d : nth k (Torch.rest l) d = nth (S k) l d.
Proof. destruct l; simpl; [now destruct k|reflexivity]. Qed.

(** ** Indexing *)

Lemma getitem_in_range {A : Type} (l : list A) (i : Z) d :
  (0 <= i < Z.of_nat (length l))%Z -> Torch.getitem l i = Ok (nth (Z.to_nat i) l d).
Proof.
  intros Hi. unfold Torch.getitem.
  destruct (Z.ltb_spec i 0); [lia|].
  destruct (Z.ltb_spec i 0); [lia|].
  rewrite (nth_error_nth' l d) by lia. reflexivity.
Qed.

Lemma index_in_range {A D : Type} (l : list A) (i : D -> Z) (qs : list D) d :
  (forall q, In q qs -> (0 <= i q < Z.of_nat (length l))%Z) ->
  Torch.index l (map i qs) = Ok (map (fun q => nth (Z.to_nat (i q)) l d) qs).
Proof.
  intros Hi. unfold Torch.index.
  induction qs as [|q qs IH]; simpl; [reflexivity|].
  rewrite (getitem_in_range l (i q) d) by (apply Hi; now left). simpl.
  rewrite IH by (intros; apply Hi; now right). reflexivity.
Qed.

Lemma gather_in_range {A D : Type} (l : list A) (i : D -> Z) (qs : list D) d :
  (forall q, In q qs -> (0 <= i q < Z.of_nat (length l))%Z) ->
  Torch.gather l (map i qs) = Ok (map (fun q => nth (Z.to_nat (i q)) l d) qs).
Proof.
  intros Hi. unfold Torch.gather.
  induction qs as [|q qs IH]; simpl; [reflexivity|].
  assert (Hq := Hi q (or_introl eq_refl)).
  destruct (Z.ltb_spec (i q) 0); [lia|].
  rewrite (nth_error_nth' l d) by lia. simpl.
  rewrite IH by (intros; apply Hi; now right). reflexivity.
Qed.

(** ** Sorted abscissas and the binary search *)

Lemma strictly_increasing_step (x : vec) (k : nat) :
  strictly_increasing x = true -> (S k < length x)%nat ->
  nth k x 0 < nth (S k) x 0.
Proof.
  revert k. induction x as [|a [|b x] IH]; intros k Hs Hk; simpl in Hk; try lia.
  simpl in Hs. apply andb_prop in Hs as [Hab Hs].
  destruct k as [|k].
  - simpl. apply Qnot_le_lt. intros Hle. apply Qle_bool_iff in Hle.
    rewrite Hle in Hab. discriminate.
  - apply (IH k Hs). simpl. lia.
Qed.

Lemma strictly_increasing_nth (x : vec) (i j : nat) :
  strictly_increasing x = true -> (i < j)%nat -> (j < length x)%nat ->
  nth i x 0 < nth j x 0.
Proof.
  intros Hs Hij Hj. induction j as [|j IH]; [lia|].
  assert (Hstep := strictly_increasing_step x j Hs Hj).
  destruct (Nat.eq_dec i j) as [->|Hne]; [exact Hstep|].
  apply Qlt_trans with (nth j x 0); [apply IH; lia | exact Hstep].
Qed.

Lemma strictly_increasing_le (x : vec) (i j : nat) :
  strictly_increasing x = true -> (i <= j)%nat -> (j < length x)%nat ->
  nth i x 0 <= nth j x 0.
Proof.
  intros Hs Hij Hj. destruct (Nat.eq_dec i j) as [->|Hne]; [apply Qle_refl|].
  apply Qlt_le_weak, strictly_increasing_nth; auto; lia.
Qed.

(** The loop invariant of the search: everything left of the window is
    below [v], everything right of it is at least [v]. *)
Lemma lower_bound_spec (x : vec) (v : Q) :
  strictly_increasing x = true ->
  forall (fuel lo hi : nat),
    (hi - lo <= fuel)%nat -> (lo <= hi)%nat -> (hi <= length x)%nat ->
    (forall i, (i < lo)%nat -> nth i x 0 < v) ->
    (forall i, (hi <= i)%nat -> (i < length x)%nat -> v <= nth i x 0) ->
    let r := Torch.lower_bound fuel x v lo hi in
    (lo <= r)%nat /\ (r <= hi)%nat /\
    (forall i, (i < r)%nat -> nth i x 0 < v) /\
    (forall i, (r <= i)%nat -> (i < length x)%nat -> v <= nth i x 0).
Proof.
  intros Hs. induction fuel as [|fuel IH]; intros lo hi Hf Hlh Hhi Hlo Hge;
    cbn [Torch.lower_bound]; cbv zeta.
  - assert (hi = lo) by lia. subst hi. repeat split; auto.
  - destruct (Nat.ltb_spec lo hi) as [Hlt|Hnlt].
    + assert (Hhalf : ((hi - lo) / 2 < hi - lo)%nat)
        by (apply Nat.div_lt; lia).
      set (mid := (lo + (hi - lo) / 2)%nat) in *.
      destruct (Qle_bool v (nth mid x 0)) eqn:Hprobe.
      * apply Qle_bool_iff in Hprobe.
        destruct (IH lo mid) as (H1 & H2 & H3 & H4); try (unfold mid; lia); auto.
        { intros i Hmi Hi. apply Qle_trans with (nth mid x 0); [exact Hprobe|].
          apply strictly_increasing_le; auto. }
        repeat split; auto; unfold mid in *; lia.
      * assert (Hbelow : nth mid x 0 < v).
        { apply Qnot_le_lt. intros Hle. apply Qle_bool_iff in Hle. congruence. }
        destruct (IH (S mid) hi) as (H1 & H2 & H3 & H4); try (unfold mid; lia); auto.
        { intros i Hi. apply Qle_lt_trans with (nth mid x 0); [|exact Hbelow].
          apply strictly_increasing_le; auto; unfold mid; lia. }
        repeat split; auto; unfold mid in *; lia.
    + assert (hi = lo) by lia. subst hi. repeat split; auto.
Qed.

(** [searchsorted] returns the first index whose abscissa is at least the
    query, or [length x] when there is none. *)
Lemma searchsorted1_spec (x : vec) (v : Q) :
  strictly_increasing x = true ->
  let s := Torch.searchsorted1 x v in
  (0 <= s <= Z.of_nat (length x))%Z /\
  (forall i, (Z.of_nat i < s)%Z -> nth i x 0 < v) /\
  (forall i, (s <= Z.of_nat i)%Z -> (i < length x)%nat -> v <= nth i x 0).
Proof.
  intros Hs. unfold Torch.searchsorted1.
  destruct (lower_bound_spec x v Hs (length x) 0 (length x)) as (H1 & H2 & H3 & H4);
    try lia.
  simpl. repeat split; try lia.
  - intros i Hi. apply H3. lia.
  - intros i Hi Hi'. apply H4; lia.
Qed.

(** ** The two formulations, query by query *)

Lemma segment_indices_map (x xq : vec) :
  CubicSpline1D.segment_indices x xq
  = (map (AtQuery.idxl x) xq, map (AtQuery.idxr x) xq).
Proof.
  unfold CubicSpline1D.segment_indices, Torch.searchsorted, AtQuery.idxl, AtQuery.idxr.
  now rewrite !map_map.
Qed.

Lemma idxr_range (x : vec) (q : Q) :
  (2 <= length x)%nat ->
  (1 <= AtQuery.idxr x q <= Z.of_nat (length x) - 1)%Z.
Proof. intros Hn. unfold AtQuery.idxr, Torch.clamp. lia. Qed.

Lemma idxl_range (x : vec) (q : Q) :
  (2 <= length x)%nat ->
  (0 <= AtQuery.idxl x q <= Z.of_nat (length x) - 2)%Z.
Proof. intros Hn. unfold AtQuery.idxl. pose proof (idxr_range x q Hn). lia. Qed.

Lemma idxr_succ_idxl (x : vec) (q : Q) :
  (2 <= length x)%nat ->
  Z.to_nat (AtQuery.idxr x q) = S (Z.to_nat (AtQuery.idxl x q)).
Proof. intros Hn. unfold AtQuery.idxl. pose proof (idxr_range x q Hn). lia. Qed.

Ltac fuse_maps :=
  repeat (rewrite ?map2_map_map, ?map2_self_map, ?map_map).

Lemma interp_hermite_at_query (x xq : vec) (y ks : batch) :
  (2 <= length x)%nat ->
  rows_of_length (length x) y -> rows_of_length (length x) ks ->
  CubicSpline1D.interp_hermite x xq (map (AtQuery.idxl x) xq) (map (AtQuery.idxr x) xq) y ks
  = Ok (map (fun yk => map (AtQuery.hermite x (fst yk) (snd yk)) xq) (combine y ks)).
Proof.
  intros Hn Hy Hk. unfold CubicSpline1D.interp_hermite.
  rewrite (gather_in_range x (AtQuery.idxl x) xq 0)
    by (intros q _; pose proof (idxl_range x q Hn); lia).
  rewrite (gather_in_range x (AtQuery.idxr x) xq 0)
    by (intros q _; pose proof (idxr_range x q Hn); lia).
  cbn [bind]. apply mapM_ok. intros [y0 k0] Hin. cbn [fst snd].
  assert (Hy0 : length y0 = length x).
  { apply in_combine_l in Hin. eapply Forall_forall in Hy; eauto. }
  assert (Hk0 : length k0 = length x).
  { apply in_combine_r in Hin. eapply Forall_forall in Hk; eauto. }
  rewrite (index_in_range y0 (AtQuery.idxl x) xq 0)
    by (intros q _; pose proof (idxl_range x q Hn); lia).
  rewrite (index_in_range y0 (AtQuery.idxr x) xq 0)
    by (intros q _; pose proof (idxr_range x q Hn); lia).
  rewrite (index_in_range k0 (AtQuery.idxl x) xq 0)
    by (intros q _; pose proof (idxl_range x q Hn); lia).
  rewrite (index_in_range k0 (AtQuery.idxr x) xq 0)
    by (intros q _; pose proof (idxr_range x q Hn); lia).
  cbn [bind]. fuse_maps. reflexivity.
Qed.

Ltac list_length :=
  repeat (rewrite ?map2_length, ?length_map, ?init_length, ?rest_length).

Lemma interp_polynomial_at_query (x xq : vec) (y ks : batch) :
  (2 <= length x)%nat ->
  rows_of_length (length x) y -> rows_of_length (length x) ks ->
  CubicSpline1D.interp_polynomial x xq (map (AtQuery.idxl x) xq) y ks
  = Ok (map (fun yk => map (AtQuery.polynomial x (fst yk) (snd yk)) xq) (combine y ks)).
Proof.
  intros Hn Hy Hk. unfold CubicSpline1D.interp_polynomial.
  rewrite (gather_in_range (Torch.init x) (AtQuery.idxl x) xq 0)
    by (intros q _; pose proof (idxl_range x q Hn); list_length; lia).
  rewrite (gather_in_range _ (AtQuery.idxl x) xq 0)
    by (intros q _; pose proof (idxl_range x q Hn); list_length; lia).
  cbn [bind]. apply mapM_ok. intros [y0 k0] Hin. cbn [fst snd].
  assert (Hy0 : length y0 = length x).
  { apply in_combine_l in Hin. eapply Forall_forall in Hy; eauto. }
  assert (Hk0 : length k0 = length x).
  { apply in_combine_r in Hin. eapply Forall_forall in Hk; eauto. }
  rewrite (index_in_range _ (AtQuery.idxl x) xq 0)
    by (intros q _; pose proof (idxl_range x q Hn); list_length; rewrite ?Hy0, ?Hk0; lia).
  cbn [bind].
  rewrite (index_in_range _ (AtQuery.idxl x) xq 0)
    by (intros q _; pose proof (idxl_range x q Hn); list_length; rewrite ?Hy0, ?Hk0; lia).
  cbn [bind].
  rewrite (index_in_range _ (AtQuery.idxl x) xq 0)
    by (intros q _; pose proof (idxl_range x q Hn); list_length; rewrite ?Hy0, ?Hk0; lia).
  cbn [bind].
  rewrite (index_in_range _ (AtQuery.idxl x) xq 0)
    by (intros q _; pose proof (idxl_range x q Hn); list_length; rewrite ?Hy0, ?Hk0; lia).
  cbn [bind]. fuse_maps. reflexivity.
Qed.

(** Both formulations are expansions of the same cubic. *)
Lemma polynomial_eq_hermite (x y ks : vec) (q : Q) :
  (2 <= length x)%nat -> length y = length x -> length ks = length x ->
  AtQuery.polynomial x y ks q == AtQuery.hermite x y ks q.
Proof.
  intros Hn Hy Hk.
  pose proof (idxl_range x q Hn) as Hl.
  unfold AtQuery.polynomial, AtQuery.hermite. cbv zeta.
  rewrite (idxr_succ_idxl x q Hn).
  set (l := Z.to_nat (AtQuery.idxl x q)).
  assert (Hlt : (l < length x - 1)%nat) by (unfold l; lia).
  repeat (rewrite (map2_nth _ _ _ l 0 0 0) by (list_length; rewrite ?Hy, ?Hk; lia)).
  rewrite (map_nth_in (Qmult 2) _ l 0 0) by (list_length; rewrite ?Hy, ?Hk; lia).
  repeat (rewrite (map2_nth _ _ _ l 0 0 0) by (list_length; rewrite ?Hy, ?Hk; lia)).
  rewrite (map_nth_in Qopp _ l 0 0) by (list_length; rewrite ?Hy, ?Hk; lia).
  rewrite !rest_nth.
  rewrite !init_nth by (rewrite ?Hy, ?Hk; lia).
  unfold Qdiv. ring.
Qed.

(** ** Queries at the knots *)



(** ** The domain *)


Lemma fold_left_Qmax_ge (l : vec) (a : Q) :
  a <= fold_left Qmax l a /\ (forall b, In b l -> b <= fold_left Qmax l a).
Proof.
  revert a. induction l as [|c l IH]; intros a; simpl.
  - split; [apply Qle_refl | tauto].
  - destruct (IH (Qmax a c)) as [H1 H2]. split.
    + eapply Qle_trans; [apply Q.le_max_l | exact H1].
    + intros b [<-|Hb]; [|now apply H2].
      eapply Qle_trans; [apply Q.le_max_r | exact H1].
Qed.


Lemma max_ge_all (x : vec) (m : Q) :
  Torch.max x = Ok m -> forall a, In a x -> a <= m.
Proof.
  destruct x as [|a0 x]; simpl; [discriminate|]. intros [= <-] a Ha.
  destruct (fold_left_Qmax_ge x a0) as [H1 H2].
  destruct Ha as [<-|Ha]; [exact H1 | now apply H2].
Qed.

(** For increasing abscissas the domain is [x[0], x[-1]]. *)
Lemma fold_left_Qmin_below (l : vec) (a : Q) :
  (forall b, In b l -> a <= b) -> fold_left Qmin l a == a.
Proof.
  revert a. induction l as [|c l IH]; intros a Hl; simpl; [reflexivity|].
  assert (Hac : Qmin a c == a) by (apply Q.min_l, Hl; now left).
  rewrite IH.
  - exact Hac.
  - intros b Hb. rewrite Hac. apply Hl. now right.
Qed.

Lemma min_increasing (x : vec) (m : Q) :
  strictly_increasing x = true -> Torch.min x = Ok m -> m == nth 0 x 0.
Proof.
  intros Hs. destruct x as [|a x]; simpl; [discriminate|]. intros [= <-].
  apply fold_left_Qmin_below. intros b Hb.
  destruct (In_nth _ _ 0 Hb) as (k & Hk & <-).
  apply (strictly_increasing_le (a :: x) 0 (S k) Hs); simpl; lia.
Qed.

Lemma max_increasing (x : vec) (m : Q) :
  strictly_increasing x = true -> Torch.max x = Ok m ->
  m == nth (length x - 1) x 0.
Proof.
  intros Hs Hm.
  assert (Hne : x <> []) by (intros ->; discriminate).
  assert (Hlen : (length x - 1 < length x)%nat) by (destruct x; simpl; [congruence|lia]).
  apply Qle_antisym.
  - assert (Hin : exists k, (k < length x)%nat /\ m == nth k x 0).
    { destruct x as [|a x]; [congruence|]. simpl in Hm. injection Hm as <-.
      clear Hs Hne Hlen. revert a. induction x as [|c x IH]; intros a.
      - exists 0%nat. simpl. split; [lia|reflexivity].
      - cbn [fold_left].
        destruct (IH (Qmax a c)) as (k & Hk & Hv).
        destruct k as [|k].
        + simpl in Hv.
          destruct (Q.max_spec a c) as [[_ He]|[_ He]].
          * exists 1%nat. simpl. split; [lia|]. now rewrite Hv.
          * exists 0%nat. simpl. split; [lia|]. now rewrite Hv.
        + exists (S (S k)). simpl in *. split; [lia|exact Hv]. }
    destruct Hin as (k & Hk & ->). apply strictly_increasing_le; auto. lia.
  - apply (max_ge_all x m Hm). apply nth_In. exact Hlen.
Qed.

(** ** Equality of tensors up to [Qeq] *)




Lemma veq_map (f g : Q -> Q) (l : vec) :
  (forall q, In q l -> f q == g q) -> veq (map f l) (map g l).
Proof.
  induction l as [|a l IH]; intros Hfg; simpl; constructor.
  - apply Hfg. now left.
  - apply IH. intros q Hq. apply Hfg. now right.
Qed.



(** ** What [_interp] returns *)

Lemma matmul_rows_shape (M : mat) (y ks : batch) :
  Torch.matmul_rows M y = Ok ks ->
  length ks = length y /\ rows_of_length (length M) ks.
Proof.
  unfold Torch.matmul_rows. revert ks.
  induction y as [|y0 y IH]; intros ks; simpl.
  - intros [= <-]. split; [reflexivity|constructor].
  - unfold Torch.matvec at 1.
    destruct (forallb (fun r => (length r =? length y0)%nat) M); [|discriminate].
    cbn [bind].
    destruct (mapM (Torch.matvec M) y) as [ks'|]; [|discriminate]. cbn [bind].
    intros [= <-]. destruct (IH ks' eq_refl) as [Hl Hr]. split.
    + simpl. now f_equal.
    + constructor; [now rewrite length_map | exact Hr].
Qed.

Lemma matmul_rows_ok (M : mat) (n : nat) (y : batch) :
  rows_of_length n M -> rows_of_length n y ->
  exists ks, Torch.matmul_rows M y = Ok ks.
Proof.
  intros HZ Hy. unfold Torch.matmul_rows.
  induction Hy as [|y0 y Hy0 Hy IH]; simpl.
  - now exists [].
  - unfold Torch.matvec at 1.
    replace (forallb (fun r => (length r =? length y0)%nat) M) with true.
    + cbn [bind]. destruct IH as [ks ->]. cbn [bind]. eauto.
    + symmetry. apply forallb_forall. intros r Hr. apply Nat.eqb_eq.
      eapply Forall_forall in HZ; eauto. congruence.
Qed.

(** With in-range shapes neither formulation raises, and whichever one
    [_interp] picks returns the values of the spline. *)
Lemma interp_formulations (x xq : vec) (y ks : batch) :
  (2 <= length x)%nat ->
  rows_of_length (length x) y -> rows_of_length (length x) ks ->
  (if (length x <? length xq)%nat
   then CubicSpline1D.interp_polynomial x xq (fst (CubicSpline1D.segment_indices x xq)) y ks
   else CubicSpline1D.interp_hermite x xq (fst (CubicSpline1D.segment_indices x xq))
          (snd (CubicSpline1D.segment_indices x xq)) y ks)
  = Ok (interp_values (length x <? length xq)%nat x y ks xq).
Proof.
  intros Hn Hy Hk. rewrite segment_indices_map. cbn [fst snd]. unfold interp_values.
  destruct (length x <? length xq)%nat.
  - now apply interp_polynomial_at_query.
  - now apply interp_hermite_at_query.
Qed.


(** ** Construction *)

Lemma spline_matrices_not_singleton (a : Q) (bc : string) :
  spline_matrices [a] bc = Raise TorchError.
Proof. reflexivity. Qed.

(** What a successful construction has established. *)
Lemma init_inversion solve x y bc extrap itp :
  CubicSpline1D.__init__ solve x y (Some bc) extrap = Ok itp ->
  exists e xmin xmax A B,
    check_and_get_extrap extrap bc = Ok e /\
    Torch.min x = Ok xmin /\ Torch.max x = Ok xmax /\
    existsb (String.eqb bc) CubicSpline1D.bc_types = true /\
    spline_matrices x bc = Ok (A, B) /\
    (2 <= length x)%nat /\
    (forall y', y = Some y' -> extrap_is e "periodic" = true ->
                check_periodic_value y' = Ok tt) /\
    exists ks,
      (forall y', y = Some y' -> Torch.matmul_rows (solve B A) y' = Ok ks) /\
      itp = CubicSpline1D.mk
              (BaseInterp1D.mk (is_not_None y) e xmin xmax (extrap_is e "periodic"))
              x bc (solve B A) (is_not_None y) y
              (match y with Some _ => Some ks | None => None end).
Proof.
  unfold CubicSpline1D.__init__.
  destruct (check_and_get_extrap extrap bc) as [e|]; [|discriminate]. cbn [bind].
  unfold BaseInterp1D.__init__.
  destruct (Torch.min x) as [xmin|] eqn:Hmin; [|discriminate]. cbn [bind].
  destruct (Torch.max x) as [xmax|] eqn:Hmax; [|discriminate]. cbn [bind].
  destruct (existsb (String.eqb bc) CubicSpline1D.bc_types) eqn:Hbc; [|discriminate].
  cbn [negb]. unfold _get_spline_mat_inv.
  destruct (spline_matrices x bc) as [[A B]|] eqn:Hsm; [|discriminate].
  cbn [bind fst snd].
  unfold BaseInterp1D.set_periodic_required, BaseInterp1D.is_periodic_required.
  cbn [BaseInterp1D._y_is_given BaseInterp1D._extrap BaseInterp1D._xmin
       BaseInterp1D._xmax BaseInterp1D._is_periodic_required].
  intros Hitp. exists e, xmin, xmax, A, B.
  assert (Hn : (2 <= length x)%nat).
  { destruct x as [|a [|b x]]; simpl; try lia.
    - discriminate.
    - rewrite spline_matrices_not_singleton in Hsm. discriminate. }
  do 6 (split; [first [reflexivity | assumption]|]).
  destruct y as [y'|].
  - destruct (extrap_is e "periodic") eqn:Hper.
    + destruct (check_periodic_value y') as [[]|] eqn:Hchk; [|discriminate].
      cbn [bind] in Hitp.
      destruct (Torch.matmul_rows (solve B A) y') as [ks|] eqn:Hks; [|discriminate].
      cbn [bind] in Hitp. injection Hitp as <-.
      split; [intros y0 [= <-] _; exact Hchk|].
      exists ks. split; [intros y0 [= <-]; exact Hks | reflexivity].
    + cbn [bind] in Hitp.
      destruct (Torch.matmul_rows (solve B A) y') as [ks|] eqn:Hks; [|discriminate].
      cbn [bind] in Hitp. injection Hitp as <-.
      split; [intros y0 _ [=]|].
      exists ks. split; [intros y0 [= <-]; exact Hks | reflexivity].
  - injection Hitp as <-. split; [intros y0 [=]|].
    exists []. split; [intros y0 [=] | reflexivity].
Qed.

Lemma squareb_spec (n : nat) (M : mat) :
  squareb n M = true -> length M = n /\ rows_of_length n M.
Proof.
  unfold squareb. intros H. apply andb_prop in H as [H1 H2].
  apply Nat.eqb_eq in H1. split; [exact H1|].
  apply Forall_forall. intros r Hr.
  rewrite forallb_forall in H2. now apply Nat.eqb_eq, H2.
Qed.

Lemma contract_gives_shape solve x bc :
  solve_contract solve x bc = true -> solve_shape solve x bc = true.
Proof. unfold solve_contract. intros Hc. now apply andb_prop in Hc as [Hc _]. Qed.

Lemma solution_shape solve x bc A B :
  solve_shape solve x bc = true -> spline_matrices x bc = Ok (A, B) ->
  length (solve B A) = length x /\ rows_of_length (length x) (solve B A).
Proof.
  unfold solve_shape. intros Hc Hsm. rewrite Hsm in Hc. now apply squareb_spec.
Qed.

Lemma inverse_shape solve x bc Zm :
  solve_shape solve x bc = true -> _get_spline_mat_inv solve x bc = Ok Zm ->
  shape (length x) (length x) Zm.
Proof.
  intros Hc. unfold _get_spline_mat_inv.
  destruct (spline_matrices x bc) as [[A B]|e] eqn:Hsm; [|discriminate].
  cbn [bind fst snd]. intros [= <-]. now apply (solution_shape solve x bc A B).
Qed.

(** ** Matrices and their entries *)

Lemma imap_from_length {A B : Type} (f : nat -> A -> B) (i : nat) (l : list A) :
  length (Torch.imap_from f i l) = length l.
Proof. revert i. induction l; intros i; simpl; auto. Qed.

Lemma imap_from_nth {A B : Type} (f : nat -> A -> B) (i : nat) (l : list A) (k : nat) d d' :
  (k < length l)%nat -> nth k (Torch.imap_from f i l) d = f (i + k)%nat (nth k l d').
Proof.
  revert i k. induction l as [|a l IH]; intros i k Hk; simpl in Hk; [lia|].
  destruct k as [|k]; simpl.
  - now rewrite Nat.add_0_r.
  - rewrite IH by lia. f_equal. lia.
Qed.

Lemma imap_from_Forall {A B : Type} (P : A -> Prop) (R : B -> Prop)
      (f : nat -> A -> B) (i : nat) (l : list A) :
  (forall k a, P a -> R (f k a)) -> Forall P l -> Forall R (Torch.imap_from f i l).
Proof.
  intros Hf Hl. revert i. induction Hl; intros i; simpl; constructor; auto.
Qed.

Lemma shape_row (n m : nat) (M : mat) (i : nat) :
  shape n m M -> (i < n)%nat -> length (nth i M []) = m.
Proof.
  intros [Hn Hm] Hi. eapply Forall_forall in Hm; [exact Hm|].
  apply nth_In. lia.
Qed.

Lemma mat_imap_shape (f : nat -> nat -> Q -> Q) (M : mat) (n m : nat) :
  shape n m M -> shape n m (Torch.mat_imap f M).
Proof.
  intros [Hn Hm]. split.
  - unfold Torch.mat_imap. now rewrite imap_from_length.
  - unfold Torch.mat_imap.
    apply (imap_from_Forall (fun r => length r = m)); [|exact Hm].
    intros k a Ha. now rewrite imap_from_length.
Qed.

Lemma mat_imap_entry (f : nat -> nat -> Q -> Q) (M : mat) (n m i j : nat) :
  shape n m M -> (i < n)%nat -> (j < m)%nat ->
  Torch.entry (Torch.mat_imap f M) i j = f i j (Torch.entry M i j).
Proof.
  intros HM Hi Hj. unfold Torch.entry, Torch.mat_imap.
  rewrite (imap_from_nth _ 0 M i [] []) by (destruct HM; lia).
  rewrite (imap_from_nth _ 0 _ j 0 0) by (rewrite (shape_row n m M i HM Hi); lia).
  reflexivity.
Qed.

Lemma zeros_shape (n m : nat) : shape n m (Torch.zeros n m).
Proof.
  split.
  - apply repeat_length.
  - apply Forall_forall. intros r Hr. apply repeat_spec in Hr. subst.
    apply repeat_length.
Qed.

Lemma zeros_entry (n m i j : nat) : Torch.entry (Torch.zeros n m) i j = 0.
Proof.
  unfold Torch.entry, Torch.zeros.
  destruct (Nat.lt_ge_cases i n) as [Hi|Hi].
  - rewrite nth_repeat_lt by exact Hi. apply nth_repeat.
  - rewrite (nth_overflow (repeat (repeat 0 m) n)) by now rewrite repeat_length.
    now destruct j.
Qed.

Lemma set_diagonal_run (k : Z) (v : vec) (M : mat) (n : nat) :
  shape n n M -> length v = (n - Z.abs_nat k)%nat ->
  exists M', Torch.set_diagonal k v M = Ok M' /\ shape n n M' /\
    forall i j, (i < n)%nat -> (j < n)%nat ->
      Torch.entry M' i j = Torch.diag_write k v i j (Torch.entry M i j).
Proof.
  intros HM Hv. unfold Torch.set_diagonal, Torch.diag_len.
  destruct HM as [Hn Hr]. rewrite Hn, Hv, Nat.eqb_refl.
  eexists. split; [reflexivity|]. split.
  - now apply mat_imap_shape.
  - intros i j Hi Hj. now apply (mat_imap_entry _ M n n).
Qed.

Lemma fill_row_run (r : Z) (c : Q) (M : mat) (n : nat) :
  shape n n M -> (0 <= Torch.wrap n r < Z.of_nat n)%Z ->
  exists M', Torch.fill_row r c M = Ok M' /\ shape n n M' /\
    forall i j, (i < n)%nat -> (j < n)%nat ->
      Torch.entry M' i j = Torch.row_write (Torch.wrap n r) c i j (Torch.entry M i j).
Proof.
  intros HM Hr. unfold Torch.fill_row.
  destruct HM as [Hn Hrows]. rewrite Hn.
  destruct (Z.leb_spec 0 (Torch.wrap n r)); [|lia].
  destruct (Z.ltb_spec (Torch.wrap n r) (Z.of_nat n)); [|lia].
  eexists. split; [reflexivity|]. split.
  - now apply mat_imap_shape.
  - intros i j Hi Hj. now apply (mat_imap_entry _ M n n).
Qed.

Lemma set_entry_run (r s : Z) (c : Q) (M : mat) (n : nat) :
  shape n n M -> (0 <= Torch.wrap n r < Z.of_nat n)%Z ->
  (0 <= Torch.wrap n s < Z.of_nat n)%Z ->
  exists M', Torch.set_entry r s c M = Ok M' /\ shape n n M' /\
    forall i j, (i < n)%nat -> (j < n)%nat ->
      Torch.entry M' i j
      = Torch.entry_write (Torch.wrap n r) (Torch.wrap n s) c i j (Torch.entry M i j).
Proof.
  intros HM Hr Hs. unfold Torch.set_entry.
  assert (Hhd : length (hd [] M) = n).
  { destruct HM as [Hn Hrows]. destruct M as [|r0 M]; simpl in *; [lia|].
    now inversion Hrows. }
  destruct HM as [Hn Hrows]. rewrite Hhd, Hn.
  destruct (Z.leb_spec 0 (Torch.wrap n r)); [|lia].
  destruct (Z.ltb_spec (Torch.wrap n r) (Z.of_nat n)); [|lia].
  destruct (Z.leb_spec 0 (Torch.wrap n s)); [|lia].
  destruct (Z.ltb_spec (Torch.wrap n s) (Z.of_nat n)); [|lia].
  eexists. split; [reflexivity|]. split.
  - now apply mat_imap_shape.
  - intros i j Hi Hj. now apply (mat_imap_entry _ M n n).
Qed.

(** ** The spline system *)

Lemma padded_dxinv_nth (x : vec) (i : nat) :
  (2 <= length x)%nat ->
  nth i ([0] ++ Torch.map2 (fun a b => 1 / (a - b)) (Torch.rest x) (Torch.init x) ++ [0]) 0
  = Spec.dxinv x i.
Proof.
  intros Hn. unfold Spec.dxinv.
  destruct i as [|i]; [reflexivity|].
  cbn [app nth Nat.eqb orb].
  destruct (Nat.leb_spec (length x) (S i)).
  - rewrite app_nth2 by (list_length; lia). list_length.
    destruct (i - Nat.min (length x - 1) (length x - 1))%nat as [|[|k]]; reflexivity.
  - rewrite app_nth1 by (list_length; lia).
    rewrite (map2_nth _ _ _ i 0 0 0) by (list_length; lia).
    rewrite rest_nth, init_nth by lia.
    replace (S i - 1)%nat with i by lia. reflexivity.
Qed.

Ltac split_cases :=
  repeat (match goal with
          | |- context [Z.eqb ?a ?b] => destruct (Z.eqb_spec a b)
          | |- context [Nat.eqb ?a ?b] => destruct (Nat.eqb_spec a b)
          end; cbn [andb orb]; try lia).

Lemma spline_matrices_entries (x : vec) (bc : string) :
  (2 <= length x)%nat ->
  exists A B,
    spline_matrices x bc = Ok (A, B) /\
    shape (length x) (length x) A /\ shape (length x) (length x) B /\
    forall i j, (i < length x)%nat -> (j < length x)%nat ->
      Torch.entry A i j == Spec.LeftHand x bc i j /\
      Torch.entry B i j == Spec.RightHand x bc i j.
Proof.
  intros Hn. unfold spline_matrices. cbv zeta.
  set (dxinv0 := Torch.map2 (fun a b => 1 / (a - b)) (Torch.rest x) (Torch.init x)).
  assert (Hl0 : length dxinv0 = (length x - 1)%nat) by (unfold dxinv0; list_length; lia).
  assert (Hzp : map (fun _ : Q => 0) (firstn 1 dxinv0) = [0]).
  { destruct dxinv0; simpl in *; [lia|reflexivity]. }
  rewrite Hzp.
  assert (Hpad : forall i, nth i ([0] ++ dxinv0 ++ [0]) 0 = Spec.dxinv x i)
    by (intros i; now apply padded_dxinv_nth).
  set (dxinv := [0] ++ dxinv0 ++ [0]) in *.
  assert (Hld : length dxinv = (length x + 1)%nat)
    by (unfold dxinv; rewrite !length_app, Hl0; simpl; lia).
  set (diag := map (fun s : Q => s * 2) (Torch.map2 Qplus (Torch.init dxinv) (Torch.rest dxinv))).
  set (dxinv2 := map (fun d : Q => d * d * 3) dxinv).
  set (diagr := Torch.map2 Qminus (Torch.init dxinv2) (Torch.rest dxinv2)).
  set (udiagr := Torch.init (Torch.rest dxinv2)).
  assert (Hdiag : forall p, (p < length x)%nat ->
            nth p diag 0 == 2 * (Spec.dxinv x p + Spec.dxinv x (p + 1))).
  { intros p Hp. unfold diag.
    rewrite (map_nth_in (fun s : Q => s * 2) _ p 0 0) by (list_length; lia).
    rewrite (map2_nth _ _ _ p 0 0 0) by (list_length; lia).
    rewrite init_nth, rest_nth by lia. rewrite !Hpad.
    replace (S p) with (p + 1)%nat by lia. ring. }
  assert (Hoff : forall p, nth p dxinv0 0 = Spec.dxinv x (p + 1)).
  { intros p. rewrite <- Hpad. unfold dxinv.
    replace (p + 1)%nat with (S p) by lia. cbn [app nth].
    destruct (Nat.lt_ge_cases p (length dxinv0)) as [Hp|Hp].
    - now rewrite app_nth1.
    - rewrite app_nth2 by exact Hp. rewrite nth_overflow by exact Hp.
      destruct (p - length dxinv0)%nat as [|[|k]]; reflexivity. }
  assert (Hd2 : forall p, nth p dxinv2 0 == 3 * (Spec.dxinv x p * Spec.dxinv x p)).
  { intros p. unfold dxinv2. rewrite <- Hpad.
    destruct (Nat.lt_ge_cases p (length dxinv)) as [Hp|Hp].
    - rewrite (map_nth_in (fun d : Q => d * d * 3) _ p 0 0) by exact Hp. ring.
    - rewrite !nth_overflow by (list_length; lia). ring. }
  assert (Hdiagr : forall p, (p < length x)%nat ->
            nth p diagr 0 == 3 * (Spec.dxinv x p * Spec.dxinv x p
                                  - Spec.dxinv x (p + 1) * Spec.dxinv x (p + 1))).
  { intros p Hp. unfold diagr.
    rewrite (map2_nth _ _ _ p 0 0 0) by (unfold dxinv2; list_length; lia).
    rewrite init_nth, rest_nth by (unfold dxinv2; list_length; lia). rewrite !Hd2.
    replace (S p) with (p + 1)%nat by lia. ring. }
  assert (Hud : forall p, (p < length x - 1)%nat ->
            nth p udiagr 0 == 3 * (Spec.dxinv x (p + 1) * Spec.dxinv x (p + 1))).
  { intros p Hp. unfold udiagr.
    rewrite init_nth by (unfold dxinv2; list_length; lia). rewrite rest_nth, Hd2.
    replace (S p) with (p + 1)%nat by lia. reflexivity. }
  assert (Hlo : forall p, (p < length x - 1)%nat ->
            nth p (map Qopp udiagr) 0
            == - (3 * (Spec.dxinv x (p + 1) * Spec.dxinv x (p + 1)))).
  { intros p Hp.
    rewrite (map_nth_in Qopp _ p 0 0) by (unfold udiagr, dxinv2; list_length; lia).
    now rewrite Hud. }
  assert (Hlu : length udiagr = (length x - 1)%nat)
    by (unfold udiagr, dxinv2; list_length; lia).
  destruct (set_diagonal_run 0 diag (Torch.zeros (length x) (length x)) (length x))
    as (A1 & -> & HsA1 & HeA1);
    [apply zeros_shape | unfold diag; list_length; lia|]. cbn [bind].
  destruct (set_diagonal_run 1 dxinv0 A1 (length x)) as (A2 & -> & HsA2 & HeA2);
    [assumption | lia|]. cbn [bind].
  destruct (set_diagonal_run (-1) dxinv0 A2 (length x)) as (A3 & -> & HsA3 & HeA3);
    [assumption | lia|]. cbn [bind].
  destruct (set_diagonal_run 0 diagr (Torch.zeros (length x) (length x)) (length x))
    as (B1 & -> & HsB1 & HeB1);
    [apply zeros_shape | unfold diagr, dxinv2; list_length; lia|]. cbn [bind].
  destruct (set_diagonal_run 1 udiagr B1 (length x)) as (B2 & -> & HsB2 & HeB2);
    [assumption | lia|]. cbn [bind].
  destruct (set_diagonal_run (-1) (map Qopp udiagr) B2 (length x))
    as (B3 & -> & HsB3 & HeB3);
    [assumption | rewrite length_map; lia|]. cbn [bind].
  assert (HA3 : forall i j, (i < length x)%nat -> (j < length x)%nat ->
            Torch.entry A3 i j ==
            if (j =? i)%nat then 2 * (Spec.dxinv x i + Spec.dxinv x (i + 1))
            else if (j =? i + 1)%nat then Spec.dxinv x (i + 1)
            else if (i =? j + 1)%nat then Spec.dxinv x (j + 1)
            else 0).
  { intros i j Hi Hj. rewrite HeA3, HeA2, HeA1, zeros_entry by assumption.
    unfold Torch.diag_write. split_cases;
      first [ reflexivity
            | replace (Nat.min i j) with i by lia;
              first [ rewrite Hoff; reflexivity | apply Hdiag; lia ]
            | replace (Nat.min i j) with j by lia; rewrite Hoff; reflexivity ]. }
  assert (HB3 : forall i j, (i < length x)%nat -> (j < length x)%nat ->
            Torch.entry B3 i j ==
            if (j =? i)%nat
            then 3 * (Spec.dxinv x i * Spec.dxinv x i
                      - Spec.dxinv x (i + 1) * Spec.dxinv x (i + 1))
            else if (j =? i + 1)%nat
            then 3 * (Spec.dxinv x (i + 1) * Spec.dxinv x (i + 1))
            else if (i =? j + 1)%nat
            then - (3 * (Spec.dxinv x (j + 1) * Spec.dxinv x (j + 1)))
            else 0).
  { intros i j Hi Hj. rewrite HeB3, HeB2, HeB1, zeros_entry by assumption.
    unfold Torch.diag_write. split_cases;
      first [ reflexivity
            | replace (Nat.min i j) with i by lia;
              first [ apply Hud; lia | apply Hdiagr; lia ]
            | replace (Nat.min i j) with j by lia; apply Hlo; lia ]. }
  assert (Hw0 : Torch.wrap (length x) 0 = 0%Z) by reflexivity.
  assert (Hw1 : Torch.wrap (length x) (-1) = (Z.of_nat (length x) - 1)%Z)
    by (unfold Torch.wrap; change (-1 <? 0)%Z with true; cbv iota; lia).
  destruct (String.eqb bc "clamped") eqn:Hbc.
  - destruct (fill_row_run 0 0 A3 (length x)) as (A4 & -> & HsA4 & HeA4);
      [assumption | rewrite Hw0; lia|]. cbn [bind].
    destruct (set_entry_run 0 0 1 A4 (length x)) as (A5 & -> & HsA5 & HeA5);
      [assumption | rewrite Hw0; lia | rewrite Hw0; lia|]. cbn [bind].
    destruct (fill_row_run (-1) 0 A5 (length x)) as (A6 & -> & HsA6 & HeA6);
      [assumption | rewrite Hw1; lia|]. cbn [bind].
    destruct (set_entry_run (-1) (-1) 1 A6 (length x)) as (A7 & -> & HsA7 & HeA7);
      [assumption | rewrite Hw1; lia | rewrite Hw1; lia|]. cbn [bind].
    destruct (fill_row_run 0 0 B3 (length x)) as (B4 & -> & HsB4 & HeB4);
      [assumption | rewrite Hw0; lia|]. cbn [bind].
    destruct (fill_row_run (-1) 0 B4 (length x)) as (B5 & -> & HsB5 & HeB5);
      [assumption | rewrite Hw1; lia|]. cbn [bind].
    exists A7, B5. do 3 (split; [first [reflexivity | assumption]|]).
    intros i j Hi Hj. split.
    + rewrite HeA7, HeA6, HeA5, HeA4 by assumption. rewrite Hw0, Hw1.
      unfold Torch.entry_write, Torch.row_write, Spec.LeftHand, Spec.pinned.
      rewrite Hbc. cbn [andb].
      split_cases; try reflexivity; rewrite HA3 by assumption;
        split_cases; reflexivity.
    + rewrite HeB5, HeB4 by assumption. rewrite Hw0, Hw1.
      unfold Torch.row_write, Spec.RightHand, Spec.pinned.
      rewrite Hbc. cbn [andb].
      split_cases; try reflexivity; rewrite HB3 by assumption;
        split_cases; reflexivity.
  - exists A3, B3. do 3 (split; [first [reflexivity | assumption]|]).
    intros i j Hi Hj. unfold Spec.LeftHand, Spec.RightHand, Spec.pinned.
    rewrite Hbc. cbn [andb]. split; [now apply HA3 | now apply HB3].
Qed.

(** ** Products and sums *)

Lemma sum_ext (n : nat) (f g : nat -> Q) :
  (forall k, (k < n)%nat -> f k == g k) -> Spec.sum n f == Spec.sum n g.
Proof.
  unfold Spec.sum. intros Hfg.
  assert (H : forall l, (forall k, In k l -> f k == g k) ->
              fold_right Qplus 0 (map f l) == fold_right Qplus 0 (map g l)).
  { induction l as [|a l IH]; intros Hl; simpl; [reflexivity|].
    rewrite (Hl a (or_introl eq_refl)), IH; [reflexivity|].
    intros k Hk. apply Hl. now right. }
  apply H. intros k Hk. apply in_seq in Hk. apply Hfg. lia.
Qed.

Lemma sum_zero (n : nat) (f : nat -> Q) :
  (forall k, (k < n)%nat -> f k == 0) -> Spec.sum n f == 0.
Proof.
  intros Hf. rewrite (sum_ext n f (fun _ => 0) Hf). unfold Spec.sum.
  induction (seq 0 n); simpl; [reflexivity|]. rewrite IHl. ring.
Qed.

(** A sum against one row of the identity picks one term. *)
Lemma sum_unit_row (n i : nat) (f : nat -> Q) :
  (i < n)%nat ->
  Spec.sum n (fun k => (if (k =? i)%nat then 1 else 0) * f k) == f i.
Proof.
  unfold Spec.sum. intros Hi.
  assert (H : forall s m, (s <= i)%nat -> (i < s + m)%nat ->
              fold_right Qplus 0
                (map (fun k => (if (k =? i)%nat then 1 else 0) * f k) (seq s m)) == f i).
  { intros s m. revert s. induction m as [|m IH]; intros s Hs Hm; [lia|].
    cbn [seq map fold_right].
    destruct (Nat.eqb_spec s i) as [->|Hne].
    - assert (Hrest : fold_right Qplus 0
                (map (fun k => (if (k =? i)%nat then 1 else 0) * f k) (seq (S i) m)) == 0).
      { clear. generalize (Nat.lt_succ_diag_r i). generalize (S i).
        induction m as [|m IH]; intros s Hs; simpl; [reflexivity|].
        destruct (Nat.eqb_spec s i); [lia|]. rewrite IH by lia. ring. }
      rewrite Hrest. ring.
    - rewrite IH by lia. ring. }
  apply H; lia.
Qed.

Lemma dot_as_sum (a b : vec) :
  length a = length b ->
  Torch.dot a b == Spec.sum (length a) (fun k => nth k a 0 * nth k b 0).
Proof.
  intros Hlen. unfold Torch.dot, Spec.sum.
  assert (H : Torch.map2 Qmult a b
              = map (fun k => nth k a 0 * nth k b 0) (seq 0 (length a))).
  { revert b Hlen. induction a as [|a0 a IH]; intros [|b0 b] Hlen; simpl in Hlen;
      try lia; [reflexivity|].
    cbn [length seq map]. rewrite <- seq_shift, map_map.
    unfold Torch.map2 in *. cbn [combine map fst snd nth]. f_equal.
    apply IH. lia. }
  rewrite H. reflexivity.
Qed.

Lemma col_nth (j : nat) (M : mat) (k : nat) :
  (k < length M)%nat -> nth k (Torch.col j M) 0 = Torch.entry M k j.
Proof.
  intros Hk. unfold Torch.col, Torch.entry.
  apply (map_nth_in (fun r : list Q => nth j r 0) M k 0 []). exact Hk.
Qed.

Lemma mat_mul_entry (A M : mat) (n i j : nat) :
  shape n n A -> shape n n M -> (i < n)%nat -> (j < n)%nat ->
  Torch.entry (Torch.mat_mul A M) i j
  == Spec.sum n (fun k => Torch.entry A i k * Torch.entry M k j).
Proof.
  intros HA HM Hi Hj. unfold Torch.mat_mul.
  assert (Hhd : length (hd [] M) = n).
  { destruct HM as [Hn Hrows]. destruct M as [|r0 M]; simpl in *; [lia|].
    now inversion Hrows. }
  unfold Torch.entry at 1.
  rewrite (map_nth_in _ A i [] []) by (destruct HA; lia).
  rewrite (map_nth_in _ _ j 0 0%nat) by (rewrite length_seq, Hhd; lia).
  rewrite seq_nth by (rewrite Hhd; lia). cbn [plus].
  rewrite dot_as_sum
    by (unfold Torch.col; rewrite length_map, (shape_row n n A i HA Hi); destruct HM; lia).
  rewrite (shape_row n n A i HA Hi).
  apply sum_ext. intros k Hk. rewrite col_nth by (destruct HM; lia). reflexivity.
Qed.

Lemma veqb_spec (a b : vec) :
  veqb a b = true -> forall j, nth j a 0 == nth j b 0.
Proof.
  unfold veqb. intros H. apply andb_prop in H as [Hl H].
  apply Nat.eqb_eq in Hl. revert b Hl H.
  induction a as [|a0 a IH]; intros [|b0 b] Hl H j; simpl in Hl; try lia.
  - reflexivity.
  - simpl in H. apply andb_prop in H as [H0 H].
    destruct j as [|j]; simpl.
    + now apply Qeq_bool_iff.
    + apply IH; [lia | exact H].
Qed.

Lemma mat_eqb_spec (A B : mat) :
  mat_eqb A B = true -> forall i j, Torch.entry A i j == Torch.entry B i j.
Proof.
  unfold mat_eqb. intros H. apply andb_prop in H as [Hl H].
  apply Nat.eqb_eq in Hl. revert B Hl H.
  induction A as [|a0 A IH]; intros [|b0 B] Hl H i j; simpl in Hl; try lia.
  - reflexivity.
  - simpl in H. apply andb_prop in H as [H0 H].
    destruct i as [|i]; unfold Torch.entry; simpl.
    + now apply veqb_spec.
    + apply IH; [lia | exact H].
Qed.

(** Under the solver's contract the map [Z] solves the system that the
    specification writes down. *)
Lemma contract_equation solve x bc A B :
  (2 <= length x)%nat ->
  solve_contract solve x bc = true -> spline_matrices x bc = Ok (A, B) ->
  forall i j, (i < length x)%nat -> (j < length x)%nat ->
    Spec.sum (length x)
      (fun k => Spec.LeftHand x bc i k * Torch.entry (solve B A) k j)
    == Spec.RightHand x bc i j.
Proof.
  intros Hn Hc Hsm i j Hi Hj.
  destruct (spline_matrices_entries x bc Hn) as (A' & B' & Hsm' & HsA & HsB & Hent).
  rewrite Hsm in Hsm'. injection Hsm' as <- <-.
  destruct (solution_shape solve x bc A B (contract_gives_shape _ _ _ Hc) Hsm)
    as [HZ1 HZ2].
  unfold solve_contract in Hc. rewrite Hsm in Hc.
  apply andb_prop in Hc as [_ Hc].
  rewrite <- (proj2 (Hent i j Hi Hj)).
  rewrite <- (mat_eqb_spec _ _ Hc i j).
  rewrite (mat_mul_entry A (solve B A) (length x) i j) by (auto; split; auto).
  apply sum_ext. intros k Hk. now rewrite (proj1 (Hent i k Hi Hk)).
Qed.

Lemma matmul_rows_entry (M : mat) (y ks : batch) (r i : nat) :
  Torch.matmul_rows M y = Ok ks -> (r < length y)%nat -> (i < length M)%nat ->
  Torch.entry ks r i = Torch.dot (nth i M []) (nth r y []).
Proof.
  unfold Torch.matmul_rows. revert ks r.
  induction y as [|y0 y IH]; intros ks r Hks Hr Hi; simpl in Hr; [lia|].
  simpl in Hks. unfold Torch.matvec at 1 in Hks.
  destruct (forallb (fun r => (length r =? length y0)%nat) M); [|discriminate].
  cbn [bind] in Hks.
  destruct (mapM (Torch.matvec M) y) as [ks'|] eqn:Hrec; [|discriminate].
  cbn [bind] in Hks. injection Hks as <-.
  destruct r as [|r].
  - unfold Torch.entry. cbn [nth].
    apply (map_nth_in (fun zr : list Q => Torch.dot zr y0) M i 0 []). exact Hi.
  - unfold Torch.entry. cbn [nth]. apply (IH ks' r eq_refl); [lia | exact Hi].
Qed.

(** The map and the slope coefficients exist whenever the solver answers
    with the right shape. *)
Lemma spline_map solve (x : vec) (bc : string) :
  (2 <= length x)%nat ->
  solve_shape solve x bc = true ->
  exists A B,
    spline_matrices x bc = Ok (A, B) /\
    _get_spline_mat_inv solve x bc = Ok (solve B A) /\
    shape (length x) (length x) (solve B A) /\
    (forall y, rows_of_length (length x) y ->
       exists ks, Torch.matmul_rows (solve B A) y = Ok ks).
Proof.
  intros Hn Hc.
  destruct (spline_matrices_entries x bc Hn) as (A & B & Hsm & _).
  destruct (solution_shape solve x bc A B Hc Hsm) as [HZ1 HZ2].
  exists A, B. split; [exact Hsm|].
  split; [unfold _get_spline_mat_inv; now rewrite Hsm|].
  split; [now split|].
  intros y Hy. now apply (matmul_rows_ok (solve B A) (length x)).
Qed.

(** The whole of the spline system in one place: the matrices, the map and
    the slope coefficients. *)
Lemma spline_system solve (x : vec) (bc : string) :
  (2 <= length x)%nat ->
  solve_contract solve x bc = true ->
  exists A B,
    spline_matrices x bc = Ok (A, B) /\
    _get_spline_mat_inv solve x bc = Ok (solve B A) /\
    shape (length x) (length x) A /\ shape (length x) (length x) B /\
    shape (length x) (length x) (solve B A) /\
    (forall i j, (i < length x)%nat -> (j < length x)%nat ->
       Torch.entry A i j == Spec.LeftHand x bc i j /\
       Torch.entry B i j == Spec.RightHand x bc i j) /\
    (forall i j, (i < length x)%nat -> (j < length x)%nat ->
       Spec.sum (length x) (fun k => Spec.LeftHand x bc i k * Torch.entry (solve B A) k j)
       == Spec.RightHand x bc i j) /\
    (forall y, rows_of_length (length x) y ->
       exists ks,
         Torch.matmul_rows (solve B A) y = Ok ks /\
         (forall r i, (r < length y)%nat -> (i < length x)%nat ->
            Torch.entry ks r i
            == Spec.sum (length x)
                 (fun j => Torch.entry y r j * Torch.entry (solve B A) i j)) /\
         (forall extrap itp,
            CubicSpline1D.__init__ solve x (Some y) (Some bc) extrap = Ok itp ->
            CubicSpline1D.spline_mat_inv itp = solve B A /\
            CubicSpline1D.ks itp = Some ks)).
Proof.
  intros Hn Hc.
  destruct (spline_matrices_entries x bc Hn) as (A & B & Hsm & HsA & HsB & Hent).
  destruct (solution_shape solve x bc A B (contract_gives_shape _ _ _ Hc) Hsm)
    as [HZ1 HZ2].
  exists A, B.
  split; [exact Hsm|].
  split; [unfold _get_spline_mat_inv; now rewrite Hsm|].
  do 3 (split; [first [assumption | now split]|]).
  split; [exact Hent|].
  split; [now apply contract_equation|].
  intros y Hy.
  destruct (matmul_rows_ok (solve B A) (length x) y HZ2 Hy) as [ks Hks].
  exists ks. split; [exact Hks|]. split.
  - intros r i Hr Hi.
    rewrite (matmul_rows_entry _ _ _ r i Hks Hr) by lia.
    assert (Hyr : length (nth r y []) = length x).
    { eapply Forall_forall in Hy; [exact Hy|]. now apply nth_In. }
    assert (Hzr : length (nth i (solve B A) []) = length x).
    { eapply Forall_forall in HZ2; [exact HZ2|]. apply nth_In. lia. }
    rewrite dot_as_sum by congruence.
    rewrite Hzr. apply sum_ext. intros k Hk. unfold Torch.entry. ring.
  - intros extrap itp Hinit.
    destruct (init_inversion _ _ _ _ _ _ Hinit)
      as (e & xmin & xmax & A' & B' & _ & _ & _ & _ & Hsm' & _ & _ & ks' & Hks' & ->).
    rewrite Hsm in Hsm'. injection Hsm' as <- <-.
    cbn [CubicSpline1D.spline_mat_inv CubicSpline1D.ks]. split; [reflexivity|].
    specialize (Hks' y eq_refl). congruence.
Qed.

(** ** Constructed interpolants *)

Lemma check_and_get_extrap_valid (extrap : option extrap_t) (bc : string) :
  (bc = "natural" \/ bc = "clamped")%string ->
  exists e, check_and_get_extrap extrap bc = Ok e.
Proof.
  intros [-> | ->]; destruct extrap as [e|]; simpl; eauto.
Qed.

Lemma init_succeeds solve (x : vec) (y : option batch) (bc : string)
      (extrap : option extrap_t) :
  (2 <= length x)%nat ->
  (bc = "natural" \/ bc = "clamped")%string ->
  solve_shape solve x bc = true ->
  (forall y', y = Some y' -> rows_of_length (length x) y' /\ periodic_ok extrap bc y') ->
  exists itp, CubicSpline1D.__init__ solve x y (Some bc) extrap = Ok itp.
Proof.
  intros Hn Hbc Hc Hy.
  destruct (check_and_get_extrap_valid extrap bc Hbc) as [e He].
  destruct (spline_map solve x bc Hn Hc) as (A & B & Hsm & Hinv & HsZ & Hks).
  unfold CubicSpline1D.__init__. rewrite He. cbn [bind].
  unfold BaseInterp1D.__init__.
  destruct x as [|a x]; [simpl in Hn; lia|].
  cbn [Torch.min Torch.max bind].
  replace (existsb (String.eqb bc) CubicSpline1D.bc_types) with true
    by (destruct Hbc as [-> | ->]; reflexivity).
  cbn [negb]. rewrite Hinv. cbn [bind].
  unfold BaseInterp1D.set_periodic_required, BaseInterp1D.is_periodic_required.
  cbn [BaseInterp1D._is_periodic_required].
  destruct y as [y'|]; [|eauto].
  destruct (Hy y' eq_refl) as [Hrows Hper].
  destruct (Hks y' Hrows) as (ks & ->).
  destruct (extrap_is e "periodic") eqn:Hp.
  - rewrite (Hper e He Hp). cbn [bind]. eauto.
  - cbn [bind]. eauto.
Qed.

(** Construction refuses fewer than two samples: the reduction over an
    empty [x] raises, and a single sample leaves the diagonal writes of
    [_get_spline_mat_inv] with an empty source. *)
Lemma init_requires_two_samples solve (x : vec) (y : option batch)
      (bc : option string) (extrap : option extrap_t) itp :
  CubicSpline1D.__init__ solve x y bc extrap = Ok itp -> (2 <= length x)%nat.
Proof.
  intros Hinit.
  assert (Hb : exists b, CubicSpline1D.__init__ solve x y (Some b) extrap = Ok itp).
  { destruct bc as [b|]; [now exists b|]. now exists "natural"%string. }
  destruct Hb as [b Hb].
  now destruct (init_inversion _ _ _ _ _ _ Hb)
    as (e & xmin & xmax & A & B & _ & _ & _ & _ & _ & Hn & _).
Qed.

(** The interpolation kernel of a constructed interpolant never raises and
    returns the values of the spline whose slopes are [Z y]. *)
Lemma interp_constructed solve (x : vec) (y : option batch) (bc : string)
      (extrap : option extrap_t) itp (yeff : batch) :
  CubicSpline1D.__init__ solve x y (Some bc) extrap = Ok itp ->
  solve_shape solve x bc = true ->
  rows_of_length (length x) yeff ->
  (forall y', y = Some y' -> yeff = y') ->
  exists ks,
    Torch.matmul_rows (CubicSpline1D.spline_mat_inv itp) yeff = Ok ks /\
    (forall y', y = Some y' -> CubicSpline1D.ks itp = Some ks) /\
    length ks = length yeff /\ rows_of_length (length x) ks /\
    forall xq,
      CubicSpline1D._interp itp xq yeff
      = Ok (interp_values (length x <? length xq)%nat x yeff ks xq).
Proof.
  intros Hinit Hc Hrows Hyeff.
  destruct (init_inversion _ _ _ _ _ _ Hinit)
    as (e & xmin & xmax & A & B & _ & _ & _ & _ & Hsm & Hn & _ & ks' & Hks' & ->).
  destruct (solution_shape solve x bc A B Hc Hsm) as [HZ1 HZ2].
  cbn [CubicSpline1D.spline_mat_inv].
  destruct (matmul_rows_ok (solve B A) (length x) yeff HZ2 Hrows) as [ks Hks].
  destruct (matmul_rows_shape _ _ _ Hks) as [Hlen Hkrows]. rewrite HZ1 in Hkrows.
  exists ks. split; [exact Hks|].
  assert (Hcached : forall y', y = Some y' -> ks' = ks).
  { intros y' ->. rewrite <- (Hyeff y' eq_refl) in Hks'.
    specialize (Hks' yeff eq_refl). congruence. }
  split.
  { intros y' Hy'. cbn [CubicSpline1D.ks]. rewrite Hy'.
    now rewrite (Hcached y' Hy'). }
  split; [exact Hlen|]. split; [exact Hkrows|].
  intros xq. unfold CubicSpline1D._interp.
  cbn [CubicSpline1D.y_is_given CubicSpline1D.ks CubicSpline1D.spline_mat_inv
       CubicSpline1D.x].
  destruct y as [y'|]; cbn [is_not_None].
  - rewrite (Hcached y' eq_refl). cbn [bind]. now apply interp_formulations.
  - rewrite Hks. cbn [bind]. now apply interp_formulations.
Qed.

(** A call on a constructed interpolant: no warning, and the evaluation of
    lines 38-57 on the ordinates that were passed. *)
Lemma call_constructed solve (uninit : fl) (x : vec) (y : batch)
      (at_init at_call : option batch) (bc : string) (extrap : option extrap_t)
      itp (xq : vec) :
  CubicSpline1D.__init__ solve x at_init (Some bc) extrap = Ok itp ->
  passes y at_init at_call -> periodic_ok extrap bc y ->
  CubicSpline1D.__call__ uninit itp xq at_call
  = ([], BaseInterp1D.evaluate uninit itp xq y).
Proof.
  intros Hinit Hpass Hper.
  destruct (init_inversion _ _ _ _ _ _ Hinit)
    as (e & xmin & xmax & A & B & He & _ & _ & _ & _ & _ & _ & ks' & _ & ->).
  unfold CubicSpline1D.__call__, BaseInterp1D.__call__, BaseInterp1D.ordinates,
    BaseInterp1D.is_periodic_required.
  cbn [BaseInterp1D.base BaseInterp1D.attr_y CubicSpline1D.kernel
       CubicSpline1D.super CubicSpline1D.y BaseInterp1D._y_is_given
       BaseInterp1D._is_periodic_required].
  destruct Hpass as [[-> ->] | [-> ->]]; cbn [is_not_None andb bind].
  - reflexivity.
  - destruct (extrap_is e "periodic") eqn:Hp; [|reflexivity].
    now rewrite (Hper e He Hp).
Qed.



(** ** Queries equal up to [Qeq] *)



(** ** Masks *)

Section Masks.
Context {A : Type}.
Variable m : Q -> bool.

(** Writing remapped exterior positions back leaves the interior ones. *)
Lemma masked_remap (f : Q -> Q) (xs : vec) :
  Torch.masked_assign xs (map negb (map m xs))
    (map f (Torch.masked_select xs (map negb (map m xs))))
  = map (fun q => if m q then q else f q) xs.
Proof.
  induction xs as [|q xs IH]; [reflexivity|].
  cbn [map Torch.masked_assign Torch.masked_select].
  destruct (m q); cbn [negb map]; now rewrite IH.
Qed.

End Masks.

(** ** Rows and entries of the result *)

Lemma interp_values_length (poly : bool) (x xq : vec) (y ks : batch) :
  length ks = length y -> length (interp_values poly x y ks xq) = length y.
Proof.
  intros Hlen. unfold interp_values. rewrite length_map, length_combine. lia.
Qed.

Lemma interp_values_row (poly : bool) (x xq : vec) (y ks : batch) (r : nat) :
  length ks = length y -> (r < length y)%nat ->
  nth r (interp_values poly x y ks xq) []
  = map ((if poly then AtQuery.polynomial else AtQuery.hermite)
           x (nth r y []) (nth r ks [])) xq.
Proof.
  intros Hlen Hr. unfold interp_values.
  rewrite (map_nth_in _ (combine y ks) r [] ([], []))
    by (rewrite length_combine; lia).
  rewrite combine_nth by lia. reflexivity.
Qed.

Lemma kernel_hermite (poly : bool) (x y ks : vec) (q : Q) :
  (2 <= length x)%nat -> length y = length x -> length ks = length x ->
  (if poly then AtQuery.polynomial else AtQuery.hermite) x y ks q
  == AtQuery.hermite x y ks q.
Proof.
  intros Hn Hy Hk. destruct poly; [now apply polynomial_eq_hermite | reflexivity].
Qed.

Lemma rows_of_length_nth (n : nat) (y : batch) (r : nat) :
  rows_of_length n y -> (r < length y)%nat -> length (nth r y []) = n.
Proof.
  intros Hy Hr. eapply Forall_forall in Hy; [exact Hy|]. now apply nth_In.
Qed.

(** Decide the string tests on a literal extrapolation mode. *)
Ltac eval_extrap :=
  repeat match goal with
         | |- context [extrap_is (ExtrapStr ?s) ?t] =>
             let v := eval vm_compute in (extrap_is (ExtrapStr s) t) in
             change (extrap_is (ExtrapStr s) t) with v
         end;
  cbn [orb andb negb].

(** ** The periodicity check *)

Lemma getitem_last {A : Type} (l : list A) d :
  (1 <= length l)%nat -> Torch.getitem l (-1) = Ok (nth (length l - 1) l d).
Proof.
  intros Hl. unfold Torch.getitem.
  change (-1 <? 0)%Z with true. cbv iota.
  destruct (Z.ltb_spec (-1 + Z.of_nat (length l)) 0); [lia|].
  replace (Z.to_nat (-1 + Z.of_nat (length l))) with (length l - 1)%nat by lia.
  rewrite (nth_error_nth' l d) by lia. reflexivity.
Qed.

Lemma allclose_map {D : Type} (f g : D -> Q) (l : list D) :
  Torch.allclose (map f l) (map g l)
  = forallb (fun r => Torch.isclose (f r) (g r)) l.
Proof.
  unfold Torch.allclose. induction l as [|a l IH]; [reflexivity|].
  cbn [map combine forallb fst snd]. now rewrite IH.
Qed.

Lemma check_periodic_value_spec (n : nat) (y : batch) :
  (1 <= n)%nat -> rows_of_length n y ->
  check_periodic_value y
  = if endpoints_close y then Ok tt else Raise PeriodicityViolation.
Proof.
  intros Hn Hy. unfold check_periodic_value.
  rewrite (mapM_ok _ (fun r : list Q => nth 0 r 0)).
  2:{ intros r Hr. eapply Forall_forall in Hy; eauto.
      apply (getitem_in_range r 0%Z 0). lia. }
  cbn [bind].
  rewrite (mapM_ok _ (fun r : list Q => nth (length r - 1) r 0)).
  2:{ intros r Hr. eapply Forall_forall in Hy; eauto.
      apply getitem_last. lia. }
  cbn [bind]. rewrite allclose_map. fold (endpoints_close y).
  now destruct (endpoints_close y).
Qed.

Lemma init_default_bc solve (x : vec) (y : option batch) (extrap : option extrap_t) :
  CubicSpline1D.__init__ solve x y None extrap
  = CubicSpline1D.__init__ solve x y (Some "natural"%string) extrap.
Proof. reflexivity. Qed.

(** ** The model against the repository's test oracles *)

Example test_interp1_cspline_yq11 :
  match TestData.interp "clamped" (ExtrapStr "mirror") TestData.y1 TestData.xq1 with
  | Ok yq => TestData.within (1 # 10000000) yq TestData.yq11_true
  | Raise _ => false
  end = true.
Proof. vm_compute. reflexivity. Qed.

Example test_extrap_mirror :
  match TestData.interp "natural" (ExtrapStr "mirror") TestData.ye TestData.xqe with
  | Ok yq => TestData.within (1 # 10000000) yq TestData.yq_mir_true
  | Raise _ => false
  end = true.
Proof. vm_compute. reflexivity. Qed.

(** * The claims *)

(** C2. For strictly increasing abscissas and either boundary condition,
    [_get_spline_mat_inv] builds the left-hand and right-hand matrices
    whose entries are the ones the specification lists (diagonal
    [2*(dxinv[i]+dxinv[i+1])] and off-diagonals [dxinv] on the left;
    diagonal [3*(dxinv[i]^2-dxinv[i+1]^2)] and off-diagonals
    [+3*dxinv[i+1]^2], [-3*dxinv[i+1]^2] on the right; identity rows on the
    left and zero rows on the right at both ends when clamped), returns the
    solver's answer [Z] for [LeftHand Z = RightHand], and the slope
    coefficients are the rows of [y Z^T]. *)
Theorem spline_linear_map_construction solve (x : vec) (bc : string) :
  strictly_increasing x = true -> (2 <= length x)%nat ->
  (bc = "natural" \/ bc = "clamped")%string ->
  solve_contract solve x bc = true ->
  exists A B Zm,
    spline_matrices x bc = Ok (A, B) /\
    _get_spline_mat_inv solve x bc = Ok Zm /\ Zm = solve B A /\
    shape (length x) (length x) A /\ shape (length x) (length x) B /\
    shape (length x) (length x) Zm /\
    (forall i j, (i < length x)%nat -> (j < length x)%nat ->
       Torch.entry A i j == Spec.LeftHand x bc i j /\
       Torch.entry B i j == Spec.RightHand x bc i j) /\
    (forall i j, (i < length x)%nat -> (j < length x)%nat ->
       Spec.sum (length x) (fun k => Spec.LeftHand x bc i k * Torch.entry Zm k j)
       == Spec.RightHand x bc i j) /\
    (forall y, rows_of_length (length x) y ->
       exists ks,
         Torch.matmul_rows Zm y = Ok ks /\
         (forall r i, (r < length y)%nat -> (i < length x)%nat ->
            Torch.entry ks r i
            == Spec.sum (length x) (fun j => Torch.entry y r j * Torch.entry Zm i j)) /\
         (forall extrap itp,
            CubicSpline1D.__init__ solve x (Some y) (Some bc) extrap = Ok itp ->
            CubicSpline1D.spline_mat_inv itp = Zm /\
            CubicSpline1D.ks itp = Some ks)).
Proof.
  intros _ Hn _ Hc.
  destruct (spline_system solve x bc Hn Hc)
    as (A & B & Hsm & Hinv & HsA & HsB & HsZ & Hent & Heq & Hks).
  exists A, B, (solve B A). repeat (split; [first [assumption | reflexivity]|]).
  exact Hks.
Qed.


(** C4. Segment location: [idxr] is the clamped result of the binary search
    for the first abscissa at or above the query and [idxl = idxr - 1];
    for every query, inside the domain or not, [0 <= idxl < idxr <= nr-1],
    the segment has non-zero width, and neither formulation ever indexes
    out of range. *)
Theorem segment_location_valid (x xq : vec) :
  strictly_increasing x = true -> (2 <= length x)%nat ->
  let nr := Z.of_nat (length x) in
  let idxl := fst (CubicSpline1D.segment_indices x xq) in
  let idxr := snd (CubicSpline1D.segment_indices x xq) in
  length idxl = length xq /\ length idxr = length xq /\
  (forall k, (k < length xq)%nat ->
     let q := nth k xq 0 in
     let s := Torch.searchsorted1 x q in
     let l := nth k idxl 0%Z in
     let r := nth k idxr 0%Z in
     (0 <= s <= nr)%Z /\
     (forall i, (Z.of_nat i < s)%Z -> nth i x 0 < q) /\
     (forall i, (s <= Z.of_nat i < nr)%Z -> q <= nth i x 0) /\
     r = Torch.clamp s 1 (nr - 1) /\ l = (r - 1)%Z /\
     (0 <= l)%Z /\ (l < r)%Z /\ (r <= nr - 1)%Z /\
     nth (Z.to_nat l) x 0 < nth (Z.to_nat r) x 0) /\
  (forall y ks, rows_of_length (length x) y -> rows_of_length (length x) ks ->
     exists yp yh,
       CubicSpline1D.interp_polynomial x xq idxl y ks = Ok yp /\
       CubicSpline1D.interp_hermite x xq idxl idxr y ks = Ok yh).
Proof.
  intros Hs Hn nr idxl idxr. subst idxl idxr.
  rewrite segment_indices_map. cbn [fst snd].
  split; [apply length_map|]. split; [apply length_map|]. split.
  - intros k Hk.
    rewrite (map_nth_in (AtQuery.idxl x) xq k 0%Z 0) by exact Hk.
    rewrite (map_nth_in (AtQuery.idxr x) xq k 0%Z 0) by exact Hk.
    set (q := nth k xq 0). destruct (searchsorted1_spec x q Hs) as (Hr & Hlo & Hhi).
    pose proof (idxr_range x q Hn) as Hrr.
    split; [exact Hr|]. split; [exact Hlo|].
    split; [intros i Hi; apply Hhi; lia|].
    split; [reflexivity|]. split; [reflexivity|].
    unfold AtQuery.idxl. subst nr.
    split; [lia|]. split; [lia|]. split; [lia|].
    apply strictly_increasing_nth; [exact Hs | lia | lia].
  - intros y ks Hy Hk.
    rewrite interp_polynomial_at_query, interp_hermite_at_query by assumption.
    eauto.
Qed.

(** C3. The polynomial (Horner) formulation and the Hermite-basis
    formulation compute the same value at every query and for every row;
    [_interp] takes the polynomial one exactly when there are more queries
    than samples. *)
Theorem formulations_agree (x xq : vec) (y ks : batch) :
  (2 <= length x)%nat ->
  rows_of_length (length x) y -> rows_of_length (length x) ks ->
  let idxl := fst (CubicSpline1D.segment_indices x xq) in
  let idxr := snd (CubicSpline1D.segment_indices x xq) in
  (exists yp yh,
     CubicSpline1D.interp_polynomial x xq idxl y ks = Ok yp /\
     yp = map (fun yk => map (AtQuery.polynomial x (fst yk) (snd yk)) xq) (combine y ks) /\
     CubicSpline1D.interp_hermite x xq idxl idxr y ks = Ok yh /\
     yh = map (fun yk => map (AtQuery.hermite x (fst yk) (snd yk)) xq) (combine y ks) /\
     beq yp yh) /\
  (forall self,
     CubicSpline1D.x self = x -> CubicSpline1D.y_is_given self = true ->
     CubicSpline1D.ks self = Some ks ->
     CubicSpline1D._interp self xq y
     = if (length x <? length xq)%nat
       then CubicSpline1D.interp_polynomial x xq idxl y ks
       else CubicSpline1D.interp_hermite x xq idxl idxr y ks) /\
  (forall self,
     CubicSpline1D.x self = x -> CubicSpline1D.y_is_given self = false ->
     Torch.matmul_rows (CubicSpline1D.spline_mat_inv self) y = Ok ks ->
     CubicSpline1D._interp self xq y
     = if (length x <? length xq)%nat
       then CubicSpline1D.interp_polynomial x xq idxl y ks
       else CubicSpline1D.interp_hermite x xq idxl idxr y ks).
Proof.
  intros Hn Hy Hk idxl idxr. split; [|split].
  - subst idxl idxr. rewrite segment_indices_map. cbn [fst snd].
    rewrite interp_polynomial_at_query, interp_hermite_at_query by assumption.
    do 2 eexists. do 4 (split; [reflexivity|]).
    assert (Hin : forall yk, In yk (combine y ks) ->
                  length (fst yk) = length x /\ length (snd yk) = length x).
    { intros [y0 k0] Hin. split.
      - apply in_combine_l in Hin. eapply Forall_forall in Hy; eauto.
      - apply in_combine_r in Hin. eapply Forall_forall in Hk; eauto. }
    induction (combine y ks) as [|yk l IH]; simpl; constructor.
    + destruct (Hin yk (or_introl eq_refl)) as [H1 H2].
      apply veq_map. intros q _. now apply polynomial_eq_hermite.
    + apply IH. intros yk' Hyk'. apply Hin. now right.
  - intros self Hx Hg Hks. unfold CubicSpline1D._interp.
    rewrite Hg, Hks, Hx. reflexivity.
  - intros self Hx Hg Hks. unfold CubicSpline1D._interp.
    rewrite Hg, Hks, Hx. reflexivity.
Qed.




(** C7, as the code has it.  With extrapolation mode "periodic" the
    endpoint ordinates of every row must be close in the sense of
    [torch.allclose] ([|y0 - yL| <= 1e-8 + 1e-5 |yL|], which equal endpoints
    satisfy).  Ordinates bound at construction are checked at construction
    and never again; otherwise the ordinates of every call are checked.
    The operation fails with the periodicity violation exactly when some
    row fails the test. *)
Theorem periodic_requirement solve (uninit : fl) (x : vec) (bc : string) :
  (2 <= length x)%nat ->
  (bc = "natural" \/ bc = "clamped")%string ->
  solve_shape solve x bc = true ->
  (forall y,
     rows_of_length (length x) y ->
     (endpoints_close y = false ->
      CubicSpline1D.__init__ solve x (Some y) (Some bc) (Some (ExtrapStr "periodic"))
      = Raise PeriodicityViolation) /\
     (endpoints_close y = true ->
      exists itp,
        CubicSpline1D.__init__ solve x (Some y) (Some bc) (Some (ExtrapStr "periodic"))
        = Ok itp /\
        forall xq y', exists yq,
          snd (CubicSpline1D.__call__ uninit itp xq y') = Ok yq)) /\
  (exists itp,
     CubicSpline1D.__init__ solve x None (Some bc) (Some (ExtrapStr "periodic")) = Ok itp /\
     forall xq y,
       rows_of_length (length x) y ->
       (endpoints_close y = false ->
        CubicSpline1D.__call__ uninit itp xq (Some y) = ([], Raise PeriodicityViolation)) /\
       (endpoints_close y = true ->
        exists yq, CubicSpline1D.__call__ uninit itp xq (Some y) = ([], Ok yq))).
Proof.
  intros Hn Hbc Hc.
  assert (Heval : forall at_init itp y,
            CubicSpline1D.__init__ solve x at_init (Some bc) (Some (ExtrapStr "periodic"))
            = Ok itp ->
            rows_of_length (length x) y ->
            (forall y', at_init = Some y' -> y = y') ->
            forall xq, exists yq, BaseInterp1D.evaluate uninit itp xq y = Ok yq).
  { intros at_init itp y Hinit Hy Hyeff xq.
    destruct (interp_constructed solve x at_init bc _ itp y Hinit Hc Hy Hyeff)
      as (ks & _ & _ & _ & _ & Hq).
    destruct (init_inversion _ _ _ _ _ _ Hinit)
      as (e & xmin & xmax & A & B & He & _ & _ & _ & _ & _ & _ & ks' & _ & Hitp).
    simpl in He. injection He as <-.
    rewrite Hitp in Hq |- *. unfold BaseInterp1D.evaluate.
    cbn [BaseInterp1D.base CubicSpline1D.kernel CubicSpline1D.super
         BaseInterp1D._extrap BaseInterp1D._interp].
    destruct (forallb _ _).
    - rewrite Hq. cbn [bind]. eauto.
    - eval_extrap. rewrite Hq. cbn [bind]. eauto. }
  split.
  - intros y Hy. split; intros Hclose.
    + destruct (spline_map solve x bc Hn Hc) as (A & B & Hsm & Hinv & _ & _).
      destruct x as [|a x]; [simpl in Hn; lia|].
      unfold CubicSpline1D.__init__. cbn [check_and_get_extrap bind].
      unfold BaseInterp1D.__init__. cbn [Torch.min Torch.max bind].
      replace (existsb (String.eqb bc) CubicSpline1D.bc_types) with true
        by (destruct Hbc as [-> | ->]; reflexivity).
      cbn [negb]. rewrite Hinv. cbn [bind].
      unfold BaseInterp1D.set_periodic_required, BaseInterp1D.is_periodic_required.
      cbn [BaseInterp1D._is_periodic_required]. eval_extrap.
      rewrite (check_periodic_value_spec (length (a :: x)) y) by (auto; lia).
      rewrite Hclose. reflexivity.
    + destruct (init_succeeds solve x (Some y) bc (Some (ExtrapStr "periodic")) Hn Hbc Hc)
        as [itp Hinit].
      { intros y' [= <-]. split; [exact Hy|]. intros e _ _.
        rewrite (check_periodic_value_spec (length x) y) by (auto; lia).
        now rewrite Hclose. }
      exists itp. split; [exact Hinit|]. intros xq y'.
      destruct (Heval (Some y) itp y Hinit Hy) with (xq := xq) as [yq Hyq];
        [now intros y0 [= <-]|].
      exists yq. rewrite <- Hyq.
      destruct (init_inversion _ _ _ _ _ _ Hinit)
        as (e & xmin & xmax & A & B & _ & _ & _ & _ & _ & _ & _ & ks' & _ & ->).
      reflexivity.
  - destruct (init_succeeds solve x None bc (Some (ExtrapStr "periodic")) Hn Hbc Hc)
      as [itp Hinit]; [intros y' [=]|].
    exists itp. split; [exact Hinit|]. intros xq y Hy.
    destruct (Heval None itp y Hinit Hy) with (xq := xq) as [yq Hyq];
      [intros y0 [=]|].
    destruct (init_inversion _ _ _ _ _ _ Hinit)
      as (e & xmin & xmax & A & B & He & _ & _ & _ & _ & _ & _ & ks' & _ & Hitp).
    simpl in He. injection He as <-.
    assert (Hg : BaseInterp1D._y_is_given (CubicSpline1D.super itp) = false)
      by (rewrite Hitp; reflexivity).
    assert (Hp : BaseInterp1D._is_periodic_required (CubicSpline1D.super itp) = true)
      by (rewrite Hitp; reflexivity).
    unfold CubicSpline1D.__call__, BaseInterp1D.__call__, BaseInterp1D.ordinates,
      BaseInterp1D.is_periodic_required.
    cbn [BaseInterp1D.base BaseInterp1D.attr_y CubicSpline1D.kernel].
    rewrite Hg, Hp. cbn [andb].
    rewrite (check_periodic_value_spec (length x) y) by (auto; lia).
    split; intros Hclose; rewrite Hclose; cbn [bind]; [reflexivity|].
    exists yq. now rewrite Hyq.
Qed.

(** C8. On an interpolant whose ordinates were bound at construction, a
    call that also supplies ordinates emits the advisory, ignores the
    supplied value and returns exactly what the same call without it
    returns; that call emits nothing. *)
Theorem call_time_ordinates_ignored solve (uninit : fl) (x : vec) (y : batch)
        (bc : option string) (extrap : option extrap_t) itp (xq : vec) (y' : batch) :
  CubicSpline1D.__init__ solve x (Some y) bc extrap = Ok itp ->
  fst (CubicSpline1D.__call__ uninit itp xq (Some y')) = [ConflictingInputAdvisory] /\
  fst (CubicSpline1D.__call__ uninit itp xq None) = [] /\
  snd (CubicSpline1D.__call__ uninit itp xq (Some y'))
  = snd (CubicSpline1D.__call__ uninit itp xq None) /\
  snd (CubicSpline1D.__call__ uninit itp xq (Some y'))
  = BaseInterp1D.evaluate uninit itp xq y.
Proof.
  intros Hinit.
  assert (Hinit' : exists b, CubicSpline1D.__init__ solve x (Some y) (Some b) extrap = Ok itp).
  { destruct bc as [b|]; [now exists b|].
    exists "natural"%string. now rewrite <- init_default_bc. }
  destruct Hinit' as [b Hb].
  destruct (init_inversion _ _ _ _ _ _ Hb)
    as (e & xmin & xmax & A & B & _ & _ & _ & _ & _ & _ & _ & ks' & _ & ->).
  unfold CubicSpline1D.__call__, BaseInterp1D.__call__, BaseInterp1D.ordinates.
  cbn [BaseInterp1D.base BaseInterp1D.attr_y CubicSpline1D.kernel
       CubicSpline1D.super CubicSpline1D.y BaseInterp1D._y_is_given
       is_not_None andb fst snd bind].
  repeat split; reflexivity.
Qed.

(** C9, at the inputs where the code departs from it.  A boundary condition
    outside natural and clamped is refused with the unsupported-boundary
    error when an extrapolation mode is given, but with the key error of
    the default-extrapolation table when it is left unspecified. *)
Theorem unsupported_bc_type_errors solve (x : vec) (y : option batch) (bc : string) :
  bc <> "natural"%string -> bc <> "clamped"%string ->
  CubicSpline1D.__init__ solve x y (Some bc) None = Raise (KeyError bc) /\
  (forall e, x <> [] ->
     CubicSpline1D.__init__ solve x y (Some bc) (Some e) = Raise (ConfigurationError bc)).
Proof.
  intros Hnat Hcl.
  apply String.eqb_neq in Hnat, Hcl.
  rewrite String.eqb_sym in Hnat. rewrite String.eqb_sym in Hcl.
  split.
  - unfold CubicSpline1D.__init__, check_and_get_extrap. cbn [dict_getitem].
    now rewrite Hnat, Hcl.
  - intros e Hx. unfold CubicSpline1D.__init__. cbn [check_and_get_extrap bind].
    destruct x as [|a x]; [congruence|].
    unfold BaseInterp1D.__init__. cbn [Torch.min Torch.max bind].
    unfold CubicSpline1D.bc_types. cbn [existsb].
    rewrite String.eqb_sym in Hnat. rewrite String.eqb_sym in Hcl.
    now rewrite Hnat, Hcl.
Qed.

(** * The claims on the test data *)


Lemma spline_linear_map_construction_witness :
  strictly_increasing TestData.x = true /\ (2 <= length TestData.x)%nat /\
  solve_contract Reference.solve TestData.x "clamped" = true /\
  exists A B Zm,
    spline_matrices TestData.x "clamped" = Ok (A, B) /\
    _get_spline_mat_inv Reference.solve TestData.x "clamped" = Ok Zm /\
    Zm = Reference.solve B A /\
    (forall i j, (i < length TestData.x)%nat -> (j < length TestData.x)%nat ->
       Torch.entry A i j == Spec.LeftHand TestData.x "clamped" i j /\
       Torch.entry B i j == Spec.RightHand TestData.x "clamped" i j).
Proof.
  assert (H1 : strictly_increasing TestData.x = true) by reflexivity.
  assert (H2 : (2 <= length TestData.x)%nat) by (simpl; lia).
  assert (H4 : ("clamped" = "natural" \/ "clamped" = "clamped")%string)
    by (right; reflexivity).
  assert (H5 : solve_contract Reference.solve TestData.x "clamped" = true)
    by (vm_compute; reflexivity).
  split; [exact H1|]. split; [exact H2|]. split; [exact H5|].
  destruct (spline_linear_map_construction Reference.solve TestData.x "clamped"
              H1 H2 H4 H5)
    as (A & B & Zm & Ha & Hb & Hc & _ & _ & _ & Hd & _).
  exists A, B, Zm. split; [exact Ha|]. split; [exact Hb|]. split; [exact Hc|].
  exact Hd.
Defined.

Lemma formulations_agree_witness :
  (2 <= length TestData.x)%nat /\
  rows_of_length (length TestData.x) TestData.y2 /\
  exists yp yh,
    CubicSpline1D.interp_polynomial TestData.x TestData.xq1
      (fst (CubicSpline1D.segment_indices TestData.x TestData.xq1))
      TestData.y2 TestData.y2 = Ok yp /\
    CubicSpline1D.interp_hermite TestData.x TestData.xq1
      (fst (CubicSpline1D.segment_indices TestData.x TestData.xq1))
      (snd (CubicSpline1D.segment_indices TestData.x TestData.xq1))
      TestData.y2 TestData.y2 = Ok yh /\
    beq yp yh.
Proof.
  assert (H2 : (2 <= length TestData.x)%nat) by (simpl; lia).
  assert (H3 : rows_of_length (length TestData.x) TestData.y2)
    by (repeat constructor).
  split; [exact H2|]. split; [exact H3|].
  destruct (formulations_agree TestData.x TestData.xq1 TestData.y2 TestData.y2
              H2 H3 H3)
    as ((yp & yh & Hp & _ & Hh & _ & Heq) & _).
  exists yp, yh. split; [exact Hp|]. split; [exact Hh|]. exact Heq.
Defined.

Lemma segment_location_valid_witness :
  strictly_increasing TestData.x = true /\ (2 <= length TestData.x)%nat /\
  forall k, (k < length TestData.xqe)%nat ->
    (0 <= nth k (fst (CubicSpline1D.segment_indices TestData.x TestData.xqe)) 0)%Z /\
    (nth k (fst (CubicSpline1D.segment_indices TestData.x TestData.xqe)) 0
     < nth k (snd (CubicSpline1D.segment_indices TestData.x TestData.xqe)) 0)%Z /\
    (nth k (snd (CubicSpline1D.segment_indices TestData.x TestData.xqe)) 0
     <= Z.of_nat (length TestData.x) - 1)%Z.
Proof.
  assert (H1 : strictly_increasing TestData.x = true) by reflexivity.
  assert (H2 : (2 <= length TestData.x)%nat) by (simpl; lia).
  split; [exact H1|]. split; [exact H2|].
  intros k Hk.
  destruct (segment_location_valid TestData.x TestData.xqe H1 H2)
    as (_ & _ & Hidx & _).
  destruct (Hidx k Hk) as (_ & _ & _ & _ & _ & Ha & Hb & Hc & _).
  split; [exact Ha|]. split; [exact Hb|]. exact Hc.
Defined.



(** C7 as stated fails: these ordinates have unequal endpoints (1 and
    1.000001), yet with extrapolation mode "periodic" the construction that
    binds them returns an interpolant, and so does a call that supplies
    them; neither raises the periodicity violation. *)
Lemma periodic_check_accepts_unequal_endpoints :
  ~ (Torch.entry TestData.y_almost_periodic 0 0
     == Torch.entry TestData.y_almost_periodic 0 5) /\
  TestData.returns
    (CubicSpline1D.__init__ Reference.solve TestData.x
       (Some TestData.y_almost_periodic) (Some "natural"%string)
       (Some (ExtrapStr "periodic"))) = true /\
  TestData.returns
    (TestData.interp "natural" (ExtrapStr "periodic")
       TestData.y_almost_periodic TestData.xqe) = true /\
  TestData.returns
    (TestData.interp_unbound "natural" (ExtrapStr "periodic")
       TestData.y_almost_periodic TestData.xqe) = true.
Proof.
  split; [|split; [|split]].
  - intros H. vm_compute in H. discriminate H.
  - vm_compute. reflexivity.
  - vm_compute. reflexivity.
  - vm_compute. reflexivity.
Qed.

Lemma periodic_requirement_witness :
  (2 <= length TestData.x)%nat /\
  solve_shape Reference.solve TestData.x "natural" = true /\
  rows_of_length (length TestData.x) TestData.ye /\
  endpoints_close TestData.ye = false /\
  CubicSpline1D.__init__ Reference.solve TestData.x (Some TestData.ye)
    (Some "natural"%string) (Some (ExtrapStr "periodic"))
  = Raise PeriodicityViolation /\
  exists itp,
    CubicSpline1D.__init__ Reference.solve TestData.x None (Some "natural"%string)
      (Some (ExtrapStr "periodic")) = Ok itp /\
    CubicSpline1D.__call__ NaN itp TestData.xqe (Some TestData.ye)
    = ([], Raise PeriodicityViolation).
Proof.
  assert (H2 : (2 <= length TestData.x)%nat) by (simpl; lia).
  assert (H3 : rows_of_length (length TestData.x) TestData.ye)
    by (repeat constructor).
  assert (H4 : ("natural" = "natural" \/ "natural" = "clamped")%string)
    by (left; reflexivity).
  assert (H5 : solve_shape Reference.solve TestData.x "natural" = true)
    by (vm_compute; reflexivity).
  assert (H6 : endpoints_close TestData.ye = false) by (vm_compute; reflexivity).
  split; [exact H2|]. split; [exact H5|]. split; [exact H3|]. split; [exact H6|].
  destruct (periodic_requirement Reference.solve NaN TestData.x "natural" H2 H4 H5)
    as (Hbound & itp & Hinit & Hcall).
  split.
  - exact (proj1 (Hbound TestData.ye H3) H6).
  - exists itp. split; [exact Hinit|].
    exact (proj1 (Hcall TestData.xqe TestData.ye H3) H6).
Defined.

Lemma call_time_ordinates_ignored_witness :
  exists itp,
    CubicSpline1D.__init__ Reference.solve TestData.x (Some TestData.y1) None None
    = Ok itp /\
    fst (CubicSpline1D.__call__ NaN itp TestData.xq1 (Some TestData.ye))
    = [ConflictingInputAdvisory] /\
    snd (CubicSpline1D.__call__ NaN itp TestData.xq1 (Some TestData.ye))
    = snd (CubicSpline1D.__call__ NaN itp TestData.xq1 None).
Proof.
  destruct (CubicSpline1D.__init__ Reference.solve TestData.x (Some TestData.y1)
              None None) as [itp|e] eqn:Hinit.
  - exists itp. split; [reflexivity|].
    destruct (call_time_ordinates_ignored Reference.solve NaN TestData.x TestData.y1
                None None itp TestData.xq1 TestData.ye Hinit)
      as (Ha & _ & Hb & _).
    split; [exact Ha | exact Hb].
  - exfalso. vm_compute in Hinit. discriminate Hinit.
Defined.

Lemma unsupported_bc_type_errors_witness :
  "periodic"%string <> "natural"%string /\ "periodic"%string <> "clamped"%string /\
  CubicSpline1D.__init__ Reference.solve TestData.x None (Some "periodic"%string) None
  = Raise (KeyError "periodic") /\
  CubicSpline1D.__init__ Reference.solve TestData.x None (Some "periodic"%string)
    (Some (ExtrapStr "nan"))
  = Raise (ConfigurationError "periodic").
Proof.
  assert (H1 : "periodic"%string <> "natural"%string) by (intros H; discriminate H).
  assert (H2 : "periodic"%string <> "clamped"%string) by (intros H; discriminate H).
  split; [exact H1|]. split; [exact H2|].
  destruct (unsupported_bc_type_errors Reference.solve TestData.x None "periodic" H1 H2)
    as [Ha Hb].
  split; [exact Ha|]. apply Hb. intros H. discriminate H.
Defined.


(** * The claims at binary64 *)

(** The binary64 model reproduces the expected values of
    [_tests/test_interp.py] to the tolerance of [torch.allclose], as the
    program does. *)
Example binary64_test_interp1_cspline_yq11 :
  Binary64.close_to
    (Binary64.interp "clamped" (Some (Binary64.ExtrapStr "mirror"))
       Binary64.x_test Binary64.y1 Binary64.xq1)
    Binary64.yq11_true = true.
Proof. vm_compute. reflexivity. Qed.

Example binary64_test_extrap :
  Binary64.close_to
    (Binary64.interp "natural" (Some (Binary64.ExtrapStr "nan"))
       Binary64.x_test Binary64.ye Binary64.xqe)
    Binary64.yq_nan_true = true /\
  Binary64.close_to
    (Binary64.interp "natural" (Some (Binary64.ExtrapStr "mirror"))
       Binary64.x_test Binary64.ye Binary64.xqe)
    Binary64.yq_mir_true = true /\
  Binary64.close_to
    (Binary64.interp "natural" (Some (Binary64.ExtrapStr "bound"))
       Binary64.x_test Binary64.ye Binary64.xqe)
    Binary64.yq_bnd_true = true /\
  Binary64.close_to
    (Binary64.interp "natural" (Some (Binary64.ExtrapNum PrimFloat.one))
       Binary64.x_test Binary64.ye Binary64.xqe)
    Binary64.yq_1_true = true.
Proof. repeat split; vm_compute; reflexivity. Qed.

(** For a gap of [1e-200] the squares of the reciprocal spacings overflow
    (line 264): the right-hand matrix holds infinities in its first two
    columns, the solver subtracts them from one another and the first two
    columns of the solved matrix are not-a-number. *)
Example binary64_overflow_in_the_system :
  Binary64.finite_entries (Binary64.right_hand Binary64.x_gap "natural")
  = [[false; false; true; true]; [false; false; true; true];
     [true; true; true; true]; [true; true; true; true]] /\
  map (map PrimFloat.is_nan) (Binary64.solved Binary64.x_gap "natural")
  = [[true; true; false; false]; [true; true; false; false];
     [true; true; false; false]; [true; true; false; false]].
Proof. split; vm_compute; reflexivity. Qed.




(** * Further properties *)

(** ** Error and edge behaviour *)

Lemma init_some_bc solve (x : vec) (y : option batch) (bc : option string)
      (extrap : option extrap_t) itp :
  CubicSpline1D.__init__ solve x y bc extrap = Ok itp ->
  exists b, CubicSpline1D.__init__ solve x y (Some b) extrap = Ok itp.
Proof.
  intros Hinit. destruct bc as [b|]; [now exists b|]. now exists "natural"%string.
Qed.

(** X1. An interpolant constructed without ordinates and called without
    ordinates raises the missing-data error, for every query tensor, and
    emits no warning. *)
Theorem call_without_ordinates solve (uninit : fl) (x : vec) (bc : option string)
        (extrap : option extrap_t) itp (xq : vec) :
  CubicSpline1D.__init__ solve x None bc extrap = Ok itp ->
  CubicSpline1D.__call__ uninit itp xq None = ([], Raise MissingDataError).
Proof.
  intros Hinit. destruct (init_some_bc _ _ _ _ _ _ Hinit) as [b Hb].
  destruct (init_inversion _ _ _ _ _ _ Hb)
    as (e & xmin & xmax & A & B & _ & _ & _ & _ & _ & _ & _ & ks' & _ & ->).
  reflexivity.
Qed.

(** X2. With a supported boundary condition, fewer than two samples are
    refused: construction raises from inside the tensor library (the
    reduction over an empty [x], or the diagonal write of a single-sample
    system). *)
Theorem too_few_samples_refused solve (x : vec) (y : option batch) (bc : option string)
        (extrap : option extrap_t) :
  (bc = None \/ bc = Some "natural"%string \/ bc = Some "clamped"%string) ->
  (length x < 2)%nat ->
  CubicSpline1D.__init__ solve x y bc extrap = Raise TorchError.
Proof.
  intros Hbc Hx.
  assert (He : exists b e, (b = "natural" \/ b = "clamped")%string /\
                           CubicSpline1D.__init__ solve x y bc extrap
                           = CubicSpline1D.__init__ solve x y (Some b) extrap /\
                           check_and_get_extrap extrap b = Ok e).
  { destruct Hbc as [-> | [-> | ->]].
    - exists "natural"%string.
      destruct (check_and_get_extrap_valid extrap "natural") as [e He]; [now left|].
      exists e. repeat split; auto.
    - exists "natural"%string.
      destruct (check_and_get_extrap_valid extrap "natural") as [e He]; [now left|].
      exists e. repeat split; auto.
    - exists "clamped"%string.
      destruct (check_and_get_extrap_valid extrap "clamped") as [e He]; [now right|].
      exists e. repeat split; auto. }
  destruct He as (b & e & Hb & -> & He).
  unfold CubicSpline1D.__init__. rewrite He. cbn [bind].
  destruct x as [|a [|a' x]]; [reflexivity| |simpl in Hx; lia].
  unfold BaseInterp1D.__init__. cbn [Torch.min Torch.max bind].
  replace (existsb (String.eqb b) CubicSpline1D.bc_types) with true
    by (destruct Hb as [-> | ->]; reflexivity).
  cbn [negb]. unfold _get_spline_mat_inv.
  rewrite spline_matrices_not_singleton. reflexivity.
Qed.

(** X3. Ordinates whose rows are non-empty and end where they start pass
    the periodicity check, whatever the values. *)
Theorem exactly_periodic_ordinates_pass (y : batch) :
  Forall (fun r => r <> [] /\ nth 0 r 0 == nth (length r - 1) r 0) y ->
  check_periodic_value y = Ok tt.
Proof.
  intros Hy. unfold check_periodic_value.
  rewrite (mapM_ok _ (fun r : list Q => nth 0 r 0)).
  2:{ intros r Hr. eapply Forall_forall in Hy; eauto. destruct Hy as [Hne _].
      apply (getitem_in_range r 0%Z 0). destruct r; [congruence|simpl; lia]. }
  cbn [bind].
  rewrite (mapM_ok _ (fun r : list Q => nth (length r - 1) r 0)).
  2:{ intros r Hr. eapply Forall_forall in Hy; eauto. destruct Hy as [Hne _].
      apply getitem_last. destruct r; [congruence|simpl; lia]. }
  cbn [bind]. rewrite allclose_map.
  replace (forallb _ y) with true; [reflexivity|].
  symmetry. apply forallb_forall. intros r Hr.
  eapply Forall_forall in Hy; eauto. destruct Hy as [_ Heq].
  unfold Torch.isclose. apply Qle_bool_iff.
  setoid_replace (nth 0 r 0 - nth (length r - 1) r 0) with 0 by (rewrite Heq; ring).
  change (Qabs 0) with 0.
  assert (H := Qabs_nonneg (nth (length r - 1) r 0)).
  unfold Torch.atol, Torch.rtol.
  apply Qle_trans with ((1 # 100000000) + 0); [discriminate|].
  apply Qplus_le_r. apply Qmult_le_0_compat; [discriminate | exact H].
Qed.

(** ** Where a query lands *)

Lemma search_below (x : vec) (q : Q) :
  strictly_increasing x = true -> (1 <= length x)%nat -> q <= nth 0 x 0 ->
  Torch.searchsorted1 x q = 0%Z.
Proof.
  intros Hs Hn Hq. destruct (searchsorted1_spec x q Hs) as (Hr & Hlo & _).
  destruct (Z.eq_dec (Torch.searchsorted1 x q) 0) as [|Hne]; [assumption|].
  exfalso. apply (Qlt_irrefl q). eapply Qle_lt_trans; [exact Hq|].
  apply Hlo. lia.
Qed.

Lemma search_above (x : vec) (q : Q) :
  strictly_increasing x = true -> (1 <= length x)%nat ->
  nth (length x - 1) x 0 < q ->
  Torch.searchsorted1 x q = Z.of_nat (length x).
Proof.
  intros Hs Hn Hq. destruct (searchsorted1_spec x q Hs) as (Hr & _ & Hhi).
  destruct (Z.eq_dec (Torch.searchsorted1 x q) (Z.of_nat (length x))) as [|Hne];
    [assumption|].
  exfalso. apply (Qlt_irrefl q). eapply Qle_lt_trans; [|exact Hq].
  apply Hhi; lia.
Qed.

(** X4. A query at or below the first abscissa is given the first segment
    and a query above the last abscissa the last segment, so [_interp]
    continues the end cubics outside the domain. *)
Theorem exterior_queries_use_end_segments (x xq : vec) (k : nat) :
  strictly_increasing x = true -> (2 <= length x)%nat -> (k < length xq)%nat ->
  let idxl := fst (CubicSpline1D.segment_indices x xq) in
  let idxr := snd (CubicSpline1D.segment_indices x xq) in
  (nth k xq 0 <= nth 0 x 0 ->
   nth k idxl 0%Z = 0%Z /\ nth k idxr 0%Z = 1%Z) /\
  (nth (length x - 1) x 0 < nth k xq 0 ->
   nth k idxl 0%Z = (Z.of_nat (length x) - 2)%Z /\
   nth k idxr 0%Z = (Z.of_nat (length x) - 1)%Z).
Proof.
  intros Hs Hn Hk. rewrite segment_indices_map. cbn [fst snd].
  rewrite (map_nth_in (AtQuery.idxl x) xq k 0%Z 0) by exact Hk.
  rewrite (map_nth_in (AtQuery.idxr x) xq k 0%Z 0) by exact Hk.
  unfold AtQuery.idxl, AtQuery.idxr, Torch.clamp. split; intros Hq.
  - rewrite (search_below x _ Hs) by (auto; lia). lia.
  - rewrite (search_above x _ Hs) by (auto; lia). lia.
Qed.


(** ** The cubic of a segment *)

Lemma segment_nth (x y ks : vec) (l : nat) :
  length y = length x -> length ks = length x -> (l < length x - 1)%nat ->
  nth l (Segment.dx x) 0 == nth (S l) x 0 - nth l x 0 /\
  nth l (Segment.p0 y) 0 == nth l y 0 /\
  nth l (Segment.p1 x y ks) 0 == nth l ks 0 * (nth (S l) x 0 - nth l x 0) /\
  nth l (Segment.p2 x y ks) 0
  == 3 * (nth (S l) y 0 - nth l y 0)
     - (2 * nth l ks 0 + nth (S l) ks 0) * (nth (S l) x 0 - nth l x 0) /\
  nth l (Segment.p3 x y ks) 0
  == (nth l ks 0 + nth (S l) ks 0) * (nth (S l) x 0 - nth l x 0)
     - 2 * (nth (S l) y 0 - nth l y 0).
Proof.
  intros Hy Hk Hl.
  unfold Segment.p0, Segment.p1, Segment.p2, Segment.p3, Segment.a, Segment.b,
    Segment.dy, Segment.dx.
  repeat (rewrite (map2_nth _ _ _ l 0 0 0) by (list_length; rewrite ?Hy, ?Hk; lia)).
  rewrite (map_nth_in (Qmult 2) _ l 0 0) by (list_length; rewrite ?Hy, ?Hk; lia).
  repeat (rewrite (map2_nth _ _ _ l 0 0 0) by (list_length; rewrite ?Hy, ?Hk; lia)).
  rewrite (map_nth_in Qopp _ l 0 0) by (list_length; rewrite ?Hy, ?Hk; lia).
  rewrite !rest_nth. rewrite !init_nth by (rewrite ?Hy, ?Hk; lia).
  repeat split; ring.
Qed.

(** The polynomial formulation of [_interp] evaluates the cubic of the
    segment of the query. *)
Lemma polynomial_is_segment_value (x y ks : vec) (q : Q) :
  AtQuery.polynomial x y ks q
  = Segment.value x y ks (Z.to_nat (AtQuery.idxl x q))
      ((q - nth (Z.to_nat (AtQuery.idxl x q)) (Torch.init x) 0)
       / nth (Z.to_nat (AtQuery.idxl x q)) (Segment.dx x) 0).
Proof. reflexivity. Qed.

(** [Segment.slope] and [Segment.curvature] are the derivatives of
    [Segment.value]: the expansion of the cubic around [t], with the step
    [h] measured along the abscissa. *)
Lemma segment_taylor (x y ks : vec) (l : nat) (t h : Q) :
  ~ nth l (Segment.dx x) 0 == 0 ->
  Segment.value x y ks l (t + h / nth l (Segment.dx x) 0)
  == Segment.value x y ks l t
     + h * Segment.slope x y ks l t
     + h * h / 2 * Segment.curvature x y ks l t
     + h * h * h * (nth l (Segment.p3 x y ks) 0
                    / (nth l (Segment.dx x) 0 * nth l (Segment.dx x) 0
                       * nth l (Segment.dx x) 0)).
Proof.
  intros Hdx. unfold Segment.value, Segment.slope, Segment.curvature. field. exact Hdx.
Qed.

(** X6. On every segment the cubic that [_interp] evaluates takes the
    ordinates of its two knots at its ends and has the slope coefficients
    of its two knots as end derivatives: the spline and its first derivative
    are continuous across the knots, whatever the slope coefficients are. *)
Theorem segment_matches_knot_data (x y ks : vec) (l : nat) :
  strictly_increasing x = true ->
  length y = length x -> length ks = length x -> (S l < length x)%nat ->
  Segment.value x y ks l 0 == nth l y 0 /\
  Segment.value x y ks l 1 == nth (S l) y 0 /\
  Segment.slope x y ks l 0 == nth l ks 0 /\
  Segment.slope x y ks l 1 == nth (S l) ks 0.
Proof.
  intros Hs Hy Hk Hl.
  destruct (segment_nth x y ks l Hy Hk) as (Hdx & H0 & H1 & H2 & H3); [lia|].
  assert (Hw := strictly_increasing_step x l Hs Hl).
  unfold Segment.value, Segment.slope. rewrite Hdx, H0, H1, H2, H3.
  repeat split; try ring; field; lra.
Qed.

(** ** Shapes *)

Lemma matmul_rows_mismatch (M : mat) (n : nat) (y : batch) :
  (1 <= n)%nat -> shape n n M ->
  Exists (fun r => length r <> n) y ->
  Torch.matmul_rows M y = Raise TorchError.
Proof.
  intros Hn [HM1 HM2] Hbad. unfold Torch.matmul_rows.
  induction y as [|y0 y IH]; [inversion Hbad|].
  cbn [mapM]. unfold Torch.matvec at 1.
  destruct (forallb (fun r => (length r =? length y0)%nat) M) eqn:Hall;
    [|reflexivity].
  cbn [bind]. rewrite IH; [reflexivity|].
  apply Exists_cons in Hbad as [Hy0|Hy]; [|assumption].
  exfalso. apply Hy0.
  rewrite forallb_forall in Hall.
  destruct M as [|r0 M]; [simpl in HM1; lia|].
  specialize (Hall r0 (or_introl eq_refl)). apply Nat.eqb_eq in Hall.
  apply Forall_inv in HM2. congruence.
Qed.

(** X7. Ordinates with a row that is not as long as [x] are refused with a
    shape error of the tensor library: at construction when they are bound
    there, at the call when they are supplied there (no periodicity check in
    the way). *)
Theorem ordinates_of_wrong_length_refused solve (uninit : fl) (x : vec) (y : batch)
        (bc : string) (extrap : option extrap_t) :
  (2 <= length x)%nat ->
  (bc = "natural" \/ bc = "clamped")%string ->
  solve_shape solve x bc = true ->
  Exists (fun r => length r <> length x) y ->
  (forall e, check_and_get_extrap extrap bc = Ok e -> extrap_is e "periodic" = false) ->
  CubicSpline1D.__init__ solve x (Some y) (Some bc) extrap = Raise TorchError /\
  exists itp,
    CubicSpline1D.__init__ solve x None (Some bc) extrap = Ok itp /\
    forall xq, CubicSpline1D.__call__ uninit itp xq (Some y) = ([], Raise TorchError).
Proof.
  intros Hn Hbc Hc Hbad Hnp.
  destruct (check_and_get_extrap_valid extrap bc Hbc) as [e He].
  destruct (spline_map solve x bc Hn Hc) as (A & B & Hsm & Hinv & HsZ & _).
  assert (Hmm : Torch.matmul_rows (solve B A) y = Raise TorchError)
    by (apply (matmul_rows_mismatch _ (length x)); auto; lia).
  split.
  - unfold CubicSpline1D.__init__. rewrite He. cbn [bind].
    unfold BaseInterp1D.__init__.
    destruct x as [|a x]; [simpl in Hn; lia|].
    cbn [Torch.min Torch.max bind].
    replace (existsb (String.eqb bc) CubicSpline1D.bc_types) with true
      by (destruct Hbc as [-> | ->]; reflexivity).
    cbn [negb]. rewrite Hinv. cbn [bind].
    unfold BaseInterp1D.set_periodic_required, BaseInterp1D.is_periodic_required.
    cbn [BaseInterp1D._is_periodic_required].
    rewrite (Hnp e He). cbn [bind]. rewrite Hmm. reflexivity.
  - destruct (init_succeeds solve x None bc extrap Hn Hbc Hc) as [itp Hinit];
      [intros y' [=]|].
    exists itp. split; [exact Hinit|]. intros xq.
    destruct (init_inversion _ _ _ _ _ _ Hinit)
      as (e' & xmin & xmax & A' & B' & He' & _ & _ & _ & Hsm' & _ & _ & ks' & _ & ->).
    rewrite He in He'. injection He' as <-.
    rewrite Hsm in Hsm'. injection Hsm' as <- <-.
    unfold CubicSpline1D.__call__, BaseInterp1D.__call__, BaseInterp1D.ordinates,
      BaseInterp1D.is_periodic_required, BaseInterp1D.evaluate.
    cbn [BaseInterp1D.base BaseInterp1D.attr_y BaseInterp1D._interp
         CubicSpline1D.kernel CubicSpline1D.super CubicSpline1D.y
         BaseInterp1D._y_is_given BaseInterp1D._is_periodic_required
         BaseInterp1D._extrap BaseInterp1D._xmin BaseInterp1D._xmax
         is_not_None andb].
    rewrite (Hnp e He). cbn [bind].
    unfold CubicSpline1D._interp.
    cbn [CubicSpline1D.y_is_given CubicSpline1D.spline_mat_inv is_not_None].
    rewrite Hmm. cbn [bind].
    destruct (forallb _ _); [reflexivity|].
    destruct (_ || _); reflexivity.
Qed.

(** X8. A call with no query returns one empty row per row of the
    ordinates, in every extrapolation mode. *)
Theorem empty_query_returns_empty_rows solve (uninit : fl) (x : vec) (y : batch)
        (bc : string) (extrap : option extrap_t)
        (at_init at_call : option batch) itp :
  CubicSpline1D.__init__ solve x at_init (Some bc) extrap = Ok itp ->
  solve_shape solve x bc = true ->
  rows_of_length (length x) y ->
  passes y at_init at_call -> periodic_ok extrap bc y ->
  CubicSpline1D.__call__ uninit itp [] at_call = ([], Ok (map (fun _ => []) y)).
Proof.
  intros Hinit Hc Hy Hpass Hper.
  rewrite (call_constructed solve uninit x y at_init at_call bc extrap itp []
             Hinit Hpass Hper).
  destruct (interp_constructed solve x at_init bc extrap itp y Hinit Hc Hy)
    as (ks & _ & _ & Hlen & _ & Hq).
  { intros y' Hy'. destruct Hpass as [[H1 _] | [H1 _]]; congruence. }
  f_equal. unfold BaseInterp1D.evaluate. cbn [map forallb].
  cbn [BaseInterp1D._interp CubicSpline1D.kernel]. rewrite Hq. cbn [bind].
  f_equal. unfold interp_values. rewrite map_map. cbn [map].
  clear - Hlen. revert ks Hlen.
  induction y as [|y0 y IH]; intros [|k0 ks] Hlen; simpl in Hlen; try lia;
    [reflexivity|].
  cbn [combine map]. f_equal. apply IH. lia.
Qed.

(** ** [getparamnames] *)

(** X9. The names returned by [getparamnames] are attributes that the
    instance has, and together with the extrapolation mode they determine
    every call: two constructed interpolants with the same mode that agree
    on the named tensors return the same warnings and the same result,
    whatever their other attributes. *)
Theorem getparamnames_determine_calls
        solve1 solve2 (x1 x2 : vec) (y1 y2 : option batch) (bc1 bc2 : option string)
        (e1 e2 : option extrap_t) itp1 itp2 :
  CubicSpline1D.__init__ solve1 x1 y1 bc1 e1 = Ok itp1 ->
  CubicSpline1D.__init__ solve2 x2 y2 bc2 e2 = Ok itp2 ->
  Forall (fun n => CubicSpline1D.getattr itp1 n <> None)
         (CubicSpline1D.getparamnames itp1) /\
  (BaseInterp1D._extrap (CubicSpline1D.super itp1)
   = BaseInterp1D._extrap (CubicSpline1D.super itp2) ->
   (forall n, In n (CubicSpline1D.getparamnames itp1 ++ CubicSpline1D.getparamnames itp2) ->
              CubicSpline1D.getattr itp1 n = CubicSpline1D.getattr itp2 n) ->
   forall uninit xq y,
     CubicSpline1D.__call__ uninit itp1 xq y = CubicSpline1D.__call__ uninit itp2 xq y).
Proof.
  intros H1 H2.
  destruct (init_some_bc _ _ _ _ _ _ H1) as [b1 Hb1].
  destruct (init_some_bc _ _ _ _ _ _ H2) as [b2 Hb2].
  destruct (init_inversion _ _ _ _ _ _ Hb1)
    as (r1 & xmin1 & xmax1 & A1 & B1 & _ & Hmin1 & Hmax1 & _ & _ & _ & _ & ks1 & _ & ->).
  destruct (init_inversion _ _ _ _ _ _ Hb2)
    as (r2 & xmin2 & xmax2 & A2 & B2 & _ & Hmin2 & Hmax2 & _ & _ & _ & _ & ks2 & _ & ->).
  unfold CubicSpline1D.getparamnames.
  cbn [CubicSpline1D.y_is_given CubicSpline1D.super BaseInterp1D._extrap].
  split.
  - destruct y1; cbn [is_not_None]; repeat constructor; discriminate.
  - intros <- Hattr uninit xq y.
    assert (Hx : x1 = x2).
    { assert (Hx := Hattr "x"%string). unfold CubicSpline1D.getattr in Hx.
      cbn [String.eqb Ascii.eqb Bool.eqb CubicSpline1D.x] in Hx.
      assert (E : Some (CubicSpline1D.Tensor1 x1) = Some (CubicSpline1D.Tensor1 x2));
        [|now injection E].
      apply Hx. apply in_or_app. left.
      destruct y1; cbn [is_not_None]; simpl; auto. }
    subst x2. rewrite Hmin1 in Hmin2. injection Hmin2 as <-.
    rewrite Hmax1 in Hmax2. injection Hmax2 as <-.
    unfold CubicSpline1D.__call__, BaseInterp1D.__call__, BaseInterp1D.ordinates,
      BaseInterp1D.evaluate, BaseInterp1D.is_periodic_required.
    cbn [BaseInterp1D.base BaseInterp1D.attr_y BaseInterp1D._interp
         CubicSpline1D.kernel CubicSpline1D.super CubicSpline1D.y
         BaseInterp1D._y_is_given BaseInterp1D._is_periodic_required
         BaseInterp1D._extrap BaseInterp1D._xmin BaseInterp1D._xmax].
    unfold CubicSpline1D._interp.
    cbn [CubicSpline1D.y_is_given CubicSpline1D.spline_mat_inv CubicSpline1D.ks
         CubicSpline1D.x].
    destruct y1 as [y1|], y2 as [y2|]; cbn [is_not_None] in Hattr |- *.
    + assert (Hy := Hattr "y"%string ltac:(simpl; auto)).
      assert (Hk := Hattr "ks"%string ltac:(simpl; auto)).
      vm_compute in Hy, Hk.
      injection Hy as <-. injection Hk as <-. reflexivity.
    + assert (Hy := Hattr "y"%string ltac:(simpl; auto)). discriminate Hy.
    + assert (Hy := Hattr "y"%string ltac:(simpl; auto 10)). discriminate Hy.
    + assert (Hz := Hattr "spline_mat_inv"%string ltac:(simpl; auto)).
      unfold CubicSpline1D.getattr in Hz.
      cbn [String.eqb Ascii.eqb Bool.eqb CubicSpline1D.spline_mat_inv] in Hz.
      injection Hz as ->. reflexivity.
Qed.

(** ** Sums *)

Lemma sum_plus (n : nat) (f g : nat -> Q) :
  Spec.sum n (fun k => f k + g k) == Spec.sum n f + Spec.sum n g.
Proof.
  unfold Spec.sum. induction (seq 0 n) as [|a l IH]; simpl; [ring|].
  rewrite IH. ring.
Qed.

Lemma sum_scale (n : nat) (c : Q) (f : nat -> Q) :
  Spec.sum n (fun k => c * f k) == c * Spec.sum n f.
Proof.
  unfold Spec.sum. induction (seq 0 n) as [|a l IH]; simpl; [ring|].
  rewrite IH. ring.
Qed.

Lemma sum_swap (n m : nat) (f : nat -> nat -> Q) :
  Spec.sum n (fun k => Spec.sum m (fun j => f k j))
  == Spec.sum m (fun j => Spec.sum n (fun k => f k j)).
Proof.
  unfold Spec.sum at 1 4. induction (seq 0 n) as [|a l IH]; simpl.
  - symmetry. apply sum_zero. intros; reflexivity.
  - rewrite IH. symmetry. apply sum_plus.
Qed.

(** A sum whose terms vanish outside a list of distinct indices. *)
Lemma sum_support (n : nat) (l : list nat) :
  NoDup l -> Forall (fun i => (i < n)%nat) l ->
  forall f : nat -> Q,
    (forall k, (k < n)%nat -> ~ In k l -> f k == 0) ->
    Spec.sum n f == fold_right Qplus 0 (map f l).
Proof.
  induction l as [|a l IH]; intros Hnd Hlt f Hf.
  - simpl. apply sum_zero. intros k Hk. apply Hf; auto.
  - inversion Hnd as [|? ? Ha Hnd']; subst. inversion Hlt as [|? ? Han Hlt']; subst.
    set (g := fun k => if (k =? a)%nat then 0 else f k).
    assert (Hsplit : Spec.sum n f
                     == Spec.sum n (fun k => (if (k =? a)%nat then 1 else 0) * f k)
                        + Spec.sum n g).
    { rewrite <- sum_plus. apply sum_ext. intros k _. unfold g.
      destruct (k =? a)%nat; ring. }
    rewrite Hsplit, sum_unit_row by exact Han.
    rewrite (IH Hnd' Hlt' g).
    + cbn [map fold_right]. apply Qplus_comp; [reflexivity|].
      clear - Ha. induction l as [|b l IHl]; [reflexivity|].
      cbn [map fold_right]. rewrite IHl by (intros H; apply Ha; now right).
      unfold g at 1. destruct (Nat.eqb_spec b a) as [->|_];
        [exfalso; apply Ha; now left | reflexivity].
    + intros k Hk Hin. unfold g. destruct (Nat.eqb_spec k a) as [->|Hne];
        [reflexivity|]. apply Hf; [exact Hk|]. intros [->|H]; [now apply Hne | now apply Hin].
Qed.

(** ** The equations of the slopes *)

(** The slopes [ks = Z y] satisfy the system that defines [Z]: row by row,
    [A ks = B y]. *)
Lemma slope_equations solve (x : vec) (bc : string) (y : batch) :
  (2 <= length x)%nat ->
  solve_contract solve x bc = true ->
  rows_of_length (length x) y ->
  exists Zm ks,
    _get_spline_mat_inv solve x bc = Ok Zm /\
    Torch.matmul_rows Zm y = Ok ks /\
    length ks = length y /\ rows_of_length (length x) ks /\
    (forall extrap itp,
       CubicSpline1D.__init__ solve x (Some y) (Some bc) extrap = Ok itp ->
       CubicSpline1D.ks itp = Some ks) /\
    forall r i, (r < length y)%nat -> (i < length x)%nat ->
      Spec.sum (length x) (fun k => Spec.LeftHand x bc i k * Torch.entry ks r k)
      == Spec.sum (length x) (fun j => Spec.RightHand x bc i j * Torch.entry y r j).
Proof.
  intros Hn Hc Hy.
  destruct (spline_system solve x bc Hn Hc)
    as (A & B & Hsm & Hinv & _ & _ & HsZ & _ & Heq & Hks).
  destruct (Hks y Hy) as (ks & Hmm & Hent & Hitp).
  exists (solve B A), ks. split; [exact Hinv|]. split; [exact Hmm|].
  destruct (matmul_rows_shape _ _ _ Hmm) as [Hlen Hrows].
  destruct HsZ as [HZ1 HZ2]. rewrite HZ1 in Hrows.
  split; [exact Hlen|]. split; [exact Hrows|].
  split; [intros extrap itp Hinit; now apply (Hitp extrap itp)|].
  intros r i Hr Hi.
  rewrite (sum_ext _ _
             (fun k => Spec.sum (length x)
                         (fun j => Spec.LeftHand x bc i k
                                   * (Torch.entry y r j * Torch.entry (solve B A) k j)))).
  2:{ intros k Hk. rewrite (Hent r k Hr Hk). symmetry. apply sum_scale. }
  rewrite sum_swap. apply sum_ext. intros j Hj.
  rewrite <- (Heq i j Hi Hj), Qmult_comm.
  rewrite <- (sum_scale (length x) (Torch.entry y r j)).
  apply sum_ext. intros k Hk. ring.
Qed.

Lemma dxinv_interior (x : vec) (i : nat) :
  (1 <= i)%nat -> (i < length x)%nat ->
  Spec.dxinv x i = 1 / (nth i x 0 - nth (i - 1) x 0).
Proof.
  intros H1 H2. unfold Spec.dxinv.
  replace (i =? 0)%nat with false by (symmetry; apply Nat.eqb_neq; lia).
  replace (length x <=? i)%nat with false by (symmetry; apply Nat.leb_gt; lia).
  reflexivity.
Qed.

Lemma dxinv_outside (x : vec) (i : nat) :
  (i = 0 \/ length x <= i)%nat -> Spec.dxinv x i = 0.
Proof.
  intros H. unfold Spec.dxinv.
  destruct (Nat.eqb_spec i 0); [reflexivity|].
  replace (length x <=? i)%nat with true by (symmetry; apply Nat.leb_le; lia).
  reflexivity.
Qed.

(** The three-term form of an interior row of the system, and the two-term
    forms of the end rows of the natural one. *)
Lemma band_row (x : vec) (bc : string) (i : nat) (l : list nat) (u v : vec) :
  NoDup l -> Forall (fun k => (k < length x)%nat) l ->
  (forall k, (k < length x)%nat -> ~ In k l ->
     Spec.LeftHand x bc i k == 0 /\ Spec.RightHand x bc i k == 0) ->
  Spec.sum (length x) (fun k => Spec.LeftHand x bc i k * nth k u 0)
  == Spec.sum (length x) (fun j => Spec.RightHand x bc i j * nth j v 0) ->
  fold_right Qplus 0 (map (fun k => Spec.LeftHand x bc i k * nth k u 0) l)
  == fold_right Qplus 0 (map (fun j => Spec.RightHand x bc i j * nth j v 0) l).
Proof.
  intros Hnd Hlt Hz Heq.
  rewrite <- (sum_support (length x) l Hnd Hlt
                (fun k => Spec.LeftHand x bc i k * nth k u 0)).
  2:{ intros k Hk Hin. cbv beta. destruct (Hz k Hk Hin) as [-> _]. ring. }
  rewrite <- (sum_support (length x) l Hnd Hlt
                (fun j => Spec.RightHand x bc i j * nth j v 0)).
  2:{ intros k Hk Hin. cbv beta. destruct (Hz k Hk Hin) as [_ ->]. ring. }
  exact Heq.
Qed.

Lemma unpinned (x : vec) (bc : string) (i : nat) :
  (bc = "natural"%string \/ ((1 <= i)%nat /\ (i + 1 < length x)%nat)) ->
  Spec.pinned x bc i = false.
Proof.
  unfold Spec.pinned. intros [-> | [H1 H2]]; [reflexivity|].
  replace (i =? 0)%nat with false by (symmetry; apply Nat.eqb_neq; lia).
  replace (i =? length x - 1)%nat with false by (symmetry; apply Nat.eqb_neq; lia).
  apply andb_false_r.
Qed.

Lemma interior_row (x : vec) (bc : string) (i : nat) (u v : vec) :
  strictly_increasing x = true ->
  (1 <= i)%nat -> (i + 1 < length x)%nat ->
  Spec.sum (length x) (fun k => Spec.LeftHand x bc i k * nth k u 0)
  == Spec.sum (length x) (fun j => Spec.RightHand x bc i j * nth j v 0) ->
  nth (i - 1) u 0 / (nth i x 0 - nth (i - 1) x 0)
  + 2 * nth i u 0 * (1 / (nth i x 0 - nth (i - 1) x 0) + 1 / (nth (i + 1) x 0 - nth i x 0))
  + nth (i + 1) u 0 / (nth (i + 1) x 0 - nth i x 0)
  == 3 * ((nth i v 0 - nth (i - 1) v 0)
          / ((nth i x 0 - nth (i - 1) x 0) * (nth i x 0 - nth (i - 1) x 0))
          + (nth (i + 1) v 0 - nth i v 0)
            / ((nth (i + 1) x 0 - nth i x 0) * (nth (i + 1) x 0 - nth i x 0))).
Proof.
  intros Hs H1 H2 Heq.
  assert (Hp : Spec.pinned x bc i = false) by (apply unpinned; right; lia).
  assert (Hnd : NoDup [(i - 1)%nat; i; (i + 1)%nat])
    by (repeat constructor; simpl; lia).
  assert (Hlt : Forall (fun k => (k < length x)%nat) [(i - 1)%nat; i; (i + 1)%nat])
    by (repeat constructor; lia).
  assert (Hz : forall k, (k < length x)%nat -> ~ In k [(i - 1)%nat; i; (i + 1)%nat] ->
               Spec.LeftHand x bc i k == 0 /\ Spec.RightHand x bc i k == 0).
  { intros k Hk Hin. simpl in Hin.
    unfold Spec.LeftHand, Spec.RightHand. rewrite Hp.
    destruct (Nat.eqb_spec k i); [exfalso; apply Hin; auto|].
    destruct (Nat.eqb_spec k (i + 1)); [exfalso; apply Hin; auto|].
    destruct (Nat.eqb_spec i (k + 1)); [exfalso; apply Hin; left; lia|].
    split; reflexivity. }
  assert (Hb := band_row x bc i _ u v Hnd Hlt Hz Heq). clear Hnd Hlt Hz.
  assert (Hh0 : nth (i - 1) x 0 < nth i x 0)
    by (apply strictly_increasing_nth; auto; lia).
  assert (Hh1 : nth i x 0 < nth (i + 1) x 0)
    by (apply strictly_increasing_nth; auto; lia).
  cbn [map fold_right] in Hb.
  unfold Spec.LeftHand, Spec.RightHand in Hb. rewrite Hp in Hb.
  rewrite !Nat.eqb_refl in Hb.
  replace (i - 1 =? i)%nat with false in Hb by (symmetry; apply Nat.eqb_neq; lia).
  replace (i - 1 =? i + 1)%nat with false in Hb by (symmetry; apply Nat.eqb_neq; lia).
  replace (i =? i - 1 + 1)%nat with true in Hb by (symmetry; apply Nat.eqb_eq; lia).
  replace (i + 1 =? i)%nat with false in Hb by (symmetry; apply Nat.eqb_neq; lia).
  replace (i - 1 + 1)%nat with i in Hb by lia.
  rewrite (dxinv_interior x i) in Hb by lia.
  rewrite (dxinv_interior x (i + 1)) in Hb by lia.
  replace (i + 1 - 1)%nat with i in Hb by lia.
  assert (Hmain :
    nth (i - 1) u 0 / (nth i x 0 - nth (i - 1) x 0)
    + 2 * nth i u 0 * (1 / (nth i x 0 - nth (i - 1) x 0) + 1 / (nth (i + 1) x 0 - nth i x 0))
    + nth (i + 1) u 0 / (nth (i + 1) x 0 - nth i x 0)
    == 1 / (nth i x 0 - nth (i - 1) x 0) * nth (i - 1) u 0
       + (2 * (1 / (nth i x 0 - nth (i - 1) x 0) + 1 / (nth (i + 1) x 0 - nth i x 0))
            * nth i u 0
          + (1 / (nth (i + 1) x 0 - nth i x 0) * nth (i + 1) u 0 + 0)))
    by (field; split; lra).
  rewrite Hmain, Hb. field; split; lra.
Qed.

Lemma first_row_natural (x : vec) (u v : vec) :
  strictly_increasing x = true -> (2 <= length x)%nat ->
  Spec.sum (length x) (fun k => Spec.LeftHand x "natural" 0 k * nth k u 0)
  == Spec.sum (length x) (fun j => Spec.RightHand x "natural" 0 j * nth j v 0) ->
  (2 * nth 0 u 0 + nth 1 u 0) / (nth 1 x 0 - nth 0 x 0)
  == 3 * (nth 1 v 0 - nth 0 v 0) / ((nth 1 x 0 - nth 0 x 0) * (nth 1 x 0 - nth 0 x 0)).
Proof.
  intros Hs Hn Heq.
  assert (Hnd : NoDup [0%nat; 1%nat]) by (repeat constructor; simpl; lia).
  assert (Hlt : Forall (fun k => (k < length x)%nat) [0%nat; 1%nat])
    by (repeat constructor; lia).
  assert (Hz : forall k, (k < length x)%nat -> ~ In k [0%nat; 1%nat] ->
               Spec.LeftHand x "natural" 0 k == 0 /\ Spec.RightHand x "natural" 0 k == 0).
  { intros k Hk Hin. simpl in Hin.
    unfold Spec.LeftHand, Spec.RightHand.
    change (Spec.pinned x "natural" 0) with false. cbv iota.
    destruct k as [|[|k]]; [exfalso; apply Hin; auto | exfalso; apply Hin; auto |].
    split; reflexivity. }
  assert (Hb := band_row x "natural" 0 _ u v Hnd Hlt Hz Heq). clear Hnd Hlt Hz.
  assert (Hh : nth 0 x 0 < nth 1 x 0) by (apply strictly_increasing_nth; auto; lia).
  cbn [map fold_right] in Hb.
  unfold Spec.LeftHand, Spec.RightHand in Hb.
  change (Spec.pinned x "natural" 0) with false in Hb.
  cbn [Nat.eqb Nat.add] in Hb.
  rewrite (dxinv_outside x 0) in Hb by lia.
  rewrite (dxinv_interior x 1) in Hb by lia.
  cbn [Nat.sub] in Hb.
  assert (Hmain :
    (2 * nth 0 u 0 + nth 1 u 0) / (nth 1 x 0 - nth 0 x 0)
    == 2 * (0 + 1 / (nth 1 x 0 - nth 0 x 0)) * nth 0 u 0
       + (1 / (nth 1 x 0 - nth 0 x 0) * nth 1 u 0 + 0))
    by (field; lra).
  rewrite Hmain, Hb. field; lra.
Qed.

Lemma last_row_natural (x : vec) (u v : vec) :
  strictly_increasing x = true -> (2 <= length x)%nat ->
  let n := length x in
  Spec.sum n (fun k => Spec.LeftHand x "natural" (n - 1) k * nth k u 0)
  == Spec.sum n (fun j => Spec.RightHand x "natural" (n - 1) j * nth j v 0) ->
  (nth (n - 2) u 0 + 2 * nth (n - 1) u 0) / (nth (n - 1) x 0 - nth (n - 2) x 0)
  == 3 * (nth (n - 1) v 0 - nth (n - 2) v 0)
     / ((nth (n - 1) x 0 - nth (n - 2) x 0) * (nth (n - 1) x 0 - nth (n - 2) x 0)).
Proof.
  intros Hs Hn n Heq. subst n.
  assert (Hnd : NoDup [(length x - 2)%nat; (length x - 1)%nat])
    by (repeat constructor; simpl; lia).
  assert (Hlt : Forall (fun k => (k < length x)%nat)
                  [(length x - 2)%nat; (length x - 1)%nat])
    by (repeat constructor; lia).
  assert (Hz : forall k, (k < length x)%nat ->
               ~ In k [(length x - 2)%nat; (length x - 1)%nat] ->
               Spec.LeftHand x "natural" (length x - 1) k == 0 /\
               Spec.RightHand x "natural" (length x - 1) k == 0).
  { intros k Hk Hin. simpl in Hin.
    unfold Spec.LeftHand, Spec.RightHand.
    change (Spec.pinned x "natural" (length x - 1)) with false. cbv iota.
    destruct (Nat.eqb_spec k (length x - 1)); [exfalso; apply Hin; auto|].
    destruct (Nat.eqb_spec k (length x - 1 + 1)); [lia|].
    destruct (Nat.eqb_spec (length x - 1) (k + 1)); [exfalso; apply Hin; left; lia|].
    split; reflexivity. }
  assert (Hb := band_row x "natural" (length x - 1) _ u v Hnd Hlt Hz Heq).
  clear Hnd Hlt Hz.
  assert (Hh : nth (length x - 2) x 0 < nth (length x - 1) x 0)
    by (apply strictly_increasing_nth; auto; lia).
  cbn [map fold_right] in Hb.
  unfold Spec.LeftHand, Spec.RightHand in Hb.
  change (Spec.pinned x "natural" (length x - 1)) with false in Hb.
  rewrite !Nat.eqb_refl in Hb.
  replace (length x - 2 =? length x - 1)%nat with false in Hb
    by (symmetry; apply Nat.eqb_neq; lia).
  replace (length x - 2 =? length x - 1 + 1)%nat with false in Hb
    by (symmetry; apply Nat.eqb_neq; lia).
  replace (length x - 1 =? length x - 2 + 1)%nat with true in Hb
    by (symmetry; apply Nat.eqb_eq; lia).
  replace (length x - 2 + 1)%nat with (length x - 1)%nat in Hb by lia.
  rewrite (dxinv_outside x (length x - 1 + 1)) in Hb by lia.
  rewrite (dxinv_interior x (length x - 1)) in Hb by lia.
  replace (length x - 1 - 1)%nat with (length x - 2)%nat in Hb by lia.
  assert (Hmain :
    (nth (length x - 2) u 0 + 2 * nth (length x - 1) u 0)
    / (nth (length x - 1) x 0 - nth (length x - 2) x 0)
    == 1 / (nth (length x - 1) x 0 - nth (length x - 2) x 0) * nth (length x - 2) u 0
       + (2 * (1 / (nth (length x - 1) x 0 - nth (length x - 2) x 0) + 0)
            * nth (length x - 1) u 0 + 0))
    by (field; lra).
  rewrite Hmain, Hb. field; lra.
Qed.

(** The second derivative at the two ends of a segment, in terms of the
    knot data. *)
Lemma curvature_ends (x y ks : vec) (l : nat) :
  strictly_increasing x = true ->
  length y = length x -> length ks = length x -> (S l < length x)%nat ->
  Segment.curvature x y ks l 0
  == 2 * (3 * (nth (S l) y 0 - nth l y 0)
              / ((nth (S l) x 0 - nth l x 0) * (nth (S l) x 0 - nth l x 0))
          - (2 * nth l ks 0 + nth (S l) ks 0) / (nth (S l) x 0 - nth l x 0)) /\
  Segment.curvature x y ks l 1
  == 2 * ((nth l ks 0 + 2 * nth (S l) ks 0) / (nth (S l) x 0 - nth l x 0)
          - 3 * (nth (S l) y 0 - nth l y 0)
              / ((nth (S l) x 0 - nth l x 0) * (nth (S l) x 0 - nth l x 0))).
Proof.
  intros Hs Hy Hk Hl.
  destruct (segment_nth x y ks l Hy Hk) as (Hdx & _ & _ & Hp2 & Hp3); [lia|].
  assert (Hh : nth l x 0 < nth (S l) x 0)
    by (apply strictly_increasing_step; auto).
  unfold Segment.curvature. rewrite Hdx, Hp2, Hp3.
  split; field; lra.
Qed.

(** X10. The second derivative of the interpolant is continuous at every
    interior knot, under either boundary condition: the cubic of the
    segment on the left and the cubic of the segment on the right have the
    same second derivative there. *)
Theorem second_derivative_continuous solve (x : vec) (bc : string) (y : batch) :
  strictly_increasing x = true -> (2 <= length x)%nat ->
  solve_contract solve x bc = true ->
  rows_of_length (length x) y ->
  exists Zm ks,
    _get_spline_mat_inv solve x bc = Ok Zm /\
    shape (length x) (length x) Zm /\
    Torch.matmul_rows Zm y = Ok ks /\
    shape (length y) (length x) ks /\
    (forall extrap itp,
       CubicSpline1D.__init__ solve x (Some y) (Some bc) extrap = Ok itp ->
       CubicSpline1D.ks itp = Some ks) /\
    forall r i, (r < length y)%nat -> (1 <= i)%nat -> (i + 1 < length x)%nat ->
      Segment.curvature x (nth r y []) (nth r ks []) (i - 1) 1
      == Segment.curvature x (nth r y []) (nth r ks []) i 0.
Proof.
  intros Hs Hn Hc Hy.
  destruct (slope_equations solve x bc y Hn Hc Hy)
    as (Zm & ks & Hinv & Hmm & Hlen & Hrows & Hitp & Heq).
  exists Zm, ks. split; [exact Hinv|].
  split; [apply (inverse_shape solve x bc Zm (contract_gives_shape _ _ _ Hc) Hinv)|].
  split; [exact Hmm|]. split; [now split|]. split; [exact Hitp|].
  intros r i Hr H1 H2.
  assert (Hyr : length (nth r y []) = length x)
    by (apply rows_of_length_nth; auto).
  assert (Hkr : length (nth r ks []) = length x)
    by (apply rows_of_length_nth; auto; lia).
  destruct (curvature_ends x _ _ (i - 1) Hs Hyr Hkr) as [_ Hl]; [lia|].
  destruct (curvature_ends x _ _ i Hs Hyr Hkr) as [Hr0 _]; [lia|].
  rewrite Hl, Hr0. replace (S (i - 1)) with i by lia.
  replace (S i) with (i + 1)%nat by lia.
  assert (Hrow := interior_row x bc i (nth r ks []) (nth r y []) Hs H1 H2
                    (Heq r i Hr ltac:(lia))).
  assert (Hh0 : nth (i - 1) x 0 < nth i x 0)
    by (apply strictly_increasing_nth; auto; lia).
  assert (Hh1 : nth i x 0 < nth (i + 1) x 0)
    by (apply strictly_increasing_nth; auto; lia).
  set (k0 := nth (i - 1) (nth r ks []) 0) in *.
  set (k1 := nth i (nth r ks []) 0) in *.
  set (k2 := nth (i + 1) (nth r ks []) 0) in *.
  set (y0 := nth (i - 1) (nth r y []) 0) in *.
  set (y1 := nth i (nth r y []) 0) in *.
  set (y2 := nth (i + 1) (nth r y []) 0) in *.
  set (x0 := nth (i - 1) x 0) in *.
  set (x1 := nth i x 0) in *.
  set (x2 := nth (i + 1) x 0) in *.
  apply Qplus_inj_r with
    (z := - (2 * (3 * (y2 - y1) / ((x2 - x1) * (x2 - x1)) - (2 * k1 + k2) / (x2 - x1)))).
  setoid_replace
    (2 * ((k0 + 2 * k1) / (x1 - x0) - 3 * (y1 - y0) / ((x1 - x0) * (x1 - x0)))
     + - (2 * (3 * (y2 - y1) / ((x2 - x1) * (x2 - x1)) - (2 * k1 + k2) / (x2 - x1))))
    with (2 * (k0 / (x1 - x0) + 2 * k1 * (1 / (x1 - x0) + 1 / (x2 - x1)) + k2 / (x2 - x1))
          - 2 * (3 * ((y1 - y0) / ((x1 - x0) * (x1 - x0))
                      + (y2 - y1) / ((x2 - x1) * (x2 - x1)))))
    by (field; split; lra).
  rewrite Hrow. ring.
Qed.

(** X11. With the natural boundary condition the second derivative of the
    interpolant is zero at the first and at the last knot. *)
Theorem natural_end_curvature_is_zero solve (x : vec) (y : batch) :
  strictly_increasing x = true -> (2 <= length x)%nat ->
  solve_contract solve x "natural" = true ->
  rows_of_length (length x) y ->
  exists Zm ks,
    _get_spline_mat_inv solve x "natural" = Ok Zm /\
    shape (length x) (length x) Zm /\
    Torch.matmul_rows Zm y = Ok ks /\
    shape (length y) (length x) ks /\
    (forall extrap itp,
       CubicSpline1D.__init__ solve x (Some y) None extrap = Ok itp ->
       CubicSpline1D.ks itp = Some ks) /\
    forall r, (r < length y)%nat ->
      Segment.curvature x (nth r y []) (nth r ks []) 0 0 == 0 /\
      Segment.curvature x (nth r y []) (nth r ks []) (length x - 2) 1 == 0.
Proof.
  intros Hs Hn Hc Hy.
  destruct (slope_equations solve x "natural" y Hn Hc Hy)
    as (Zm & ks & Hinv & Hmm & Hlen & Hrows & Hitp & Heq).
  exists Zm, ks. split; [exact Hinv|].
  split; [apply (inverse_shape solve x "natural" Zm (contract_gives_shape _ _ _ Hc) Hinv)|].
  split; [exact Hmm|]. split; [now split|].
  split; [intros extrap itp Hinit; now apply (Hitp extrap itp)|].
  intros r Hr.
  assert (Hyr : length (nth r y []) = length x)
    by (apply rows_of_length_nth; auto).
  assert (Hkr : length (nth r ks []) = length x)
    by (apply rows_of_length_nth; auto; lia).
  split.
  - destruct (curvature_ends x _ _ 0%nat Hs Hyr Hkr) as [H0 _]; [lia|].
    rewrite H0.
    rewrite (first_row_natural x (nth r ks []) (nth r y []) Hs Hn
               (Heq r 0%nat Hr ltac:(lia))).
    ring.
  - destruct (curvature_ends x _ _ (length x - 2)%nat Hs Hyr Hkr) as [_ H1]; [lia|].
    rewrite H1. replace (S (length x - 2)) with (length x - 1)%nat by lia.
    rewrite (last_row_natural x (nth r ks []) (nth r y []) Hs Hn
               (Heq r (length x - 1)%nat Hr ltac:(lia))).
    ring.
Qed.

(** ** Masked writes *)

Lemma masked_assign_unselected {A : Type} (dst : list A) (mask : list bool)
      (src : list A) (k : nat) (d : A) :
  nth k mask false = false ->
  nth k (Torch.masked_assign dst mask src) d = nth k dst d.
Proof.
  revert mask src k. induction dst as [|d0 dst IH]; intros mask src k Hk;
    [destruct mask; reflexivity|].
  destruct mask as [|[|] mask]; [reflexivity| |].
  - destruct k as [|k]; [discriminate Hk|]. cbn [nth] in Hk.
    cbn [Torch.masked_assign]. destruct src as [|s src]; cbn [nth]; now apply IH.
  - cbn [Torch.masked_assign]. destruct k as [|k]; [reflexivity|].
    cbn [nth] in Hk |- *. now apply IH.
Qed.

Lemma masked_assign_selected {A : Type} (m : Q -> bool) (f : Q -> A) (xs : vec)
      (row : list A) (k : nat) (d : A) :
  length row = length xs -> (k < length xs)%nat -> m (nth k xs 0) = true ->
  nth k (Torch.masked_assign row (map m xs)
           (map f (Torch.masked_select xs (map m xs)))) d
  = f (nth k xs 0).
Proof.
  revert row k. induction xs as [|q xs IH]; intros [|d0 row] k Hlen Hk Hm;
    simpl in Hlen, Hk; try lia.
  cbn [map Torch.masked_assign Torch.masked_select].
  destruct (m q) eqn:Hq; cbn [map].
  - destruct k as [|k]; [cbn [nth] in Hm |- *; reflexivity|].
    cbn [nth] in Hm |- *. apply IH; auto; lia.
  - destruct k as [|k]; [cbn [nth] in Hm; congruence|].
    cbn [nth] in Hm |- *. apply IH; auto; lia.
Qed.

(** Once the selected and the unselected positions have both been written,
    nothing is left of the initial content. *)
Lemma masked_assign_total {A : Type} (u1 u2 : A) (xs : vec) (mask : list bool)
      (srcI srcE : list A) :
  length mask = length xs ->
  length srcI = length (Torch.masked_select xs mask) ->
  length srcE = length (Torch.masked_select xs (map negb mask)) ->
  Torch.masked_assign
    (Torch.masked_assign (map (fun _ => u1) xs) mask srcI) (map negb mask) srcE
  = Torch.masked_assign
      (Torch.masked_assign (map (fun _ => u2) xs) mask srcI) (map negb mask) srcE.
Proof.
  revert mask srcI srcE. induction xs as [|q xs IH]; intros mask srcI srcE Hm HI HE;
    [reflexivity|].
  destruct mask as [|[|] mask]; simpl in Hm; try lia.
  - cbn [Torch.masked_select map negb] in HI, HE.
    destruct srcI as [|s srcI]; simpl in HI; try lia.
    cbn [map Torch.masked_assign negb]. f_equal. apply IH; auto; lia.
  - cbn [Torch.masked_select map negb] in HI, HE.
    destruct srcE as [|s srcE]; simpl in HE; try lia.
    cbn [map Torch.masked_assign negb]. f_equal. apply IH; auto; lia.
Qed.

Lemma scatter_total {A B : Type} (u1 u2 : A) (xs : vec) (mask : list bool)
      (y : list B) (rowsI rowsE : list (list A)) :
  length mask = length xs ->
  Forall (fun r => length r = length (Torch.masked_select xs mask)) rowsI ->
  Forall (fun r => length r = length (Torch.masked_select xs (map negb mask))) rowsE ->
  Torch.map2 (fun row src => Torch.masked_assign row (map negb mask) src)
    (Torch.map2 (fun row src => Torch.masked_assign row mask src)
       (map (fun _ => map (fun _ => u1) xs) y) rowsI) rowsE
  = Torch.map2 (fun row src => Torch.masked_assign row (map negb mask) src)
      (Torch.map2 (fun row src => Torch.masked_assign row mask src)
         (map (fun _ => map (fun _ => u2) xs) y) rowsI) rowsE.
Proof.
  intros Hm. revert rowsI rowsE.
  induction y as [|y0 y IH]; intros rowsI rowsE HI HE; [reflexivity|].
  destruct rowsI as [|rI rowsI]; [reflexivity|].
  destruct rowsE as [|rE rowsE]; [reflexivity|].
  unfold Torch.map2 in *. cbn [map combine fst snd].
  apply Forall_cons_iff in HI as [HI0 HI]. apply Forall_cons_iff in HE as [HE0 HE].
  f_equal; [now apply masked_assign_total | now apply IH].
Qed.

(** ** Calls on a constructed interpolant *)

(** Whatever the mode, the remapped positions are a map over the exterior
    queries. *)
Lemma get_extrap_pos_map (e : extrap_t) (xmin xmax : Q) :
  exists g, forall sel, ExtrapUtils.get_extrap_pos sel e xmin xmax = map g sel.
Proof.
  unfold ExtrapUtils.get_extrap_pos.
  destruct (extrap_is e "bound"); [eexists; intros; reflexivity|].
  destruct (extrap_is e "periodic"); eexists; intros; reflexivity.
Qed.

(** A call that returns has evaluated lines 38-57 on the ordinates that
    were passed. *)
Lemma call_returns solve (uninit : fl) (x : vec) (y : batch)
      (at_init at_call : option batch) (bc : string) (extrap : option extrap_t)
      itp (xq : vec) w yq :
  CubicSpline1D.__init__ solve x at_init (Some bc) extrap = Ok itp ->
  passes y at_init at_call ->
  CubicSpline1D.__call__ uninit itp xq at_call = (w, Ok yq) ->
  BaseInterp1D.evaluate uninit itp xq y = Ok yq.
Proof.
  intros Hinit Hpass.
  destruct (init_inversion _ _ _ _ _ _ Hinit)
    as (e & xmin & xmax & A & B & He & _ & _ & _ & _ & _ & _ & ks' & _ & ->).
  unfold CubicSpline1D.__call__, BaseInterp1D.__call__, BaseInterp1D.ordinates,
    BaseInterp1D.is_periodic_required.
  cbn [BaseInterp1D.base BaseInterp1D.attr_y CubicSpline1D.kernel
       CubicSpline1D.super CubicSpline1D.y BaseInterp1D._y_is_given
       BaseInterp1D._is_periodic_required].
  destruct Hpass as [[-> ->] | [-> ->]]; cbn [is_not_None andb bind].
  - intros [= _ H]. exact H.
  - destruct (extrap_is e "periodic"); [|intros [= _ H]; exact H].
    destruct (check_periodic_value y) as [[]|]; cbn [bind];
      [intros [= _ H]; exact H | discriminate].
Qed.

(** X12. In exact arithmetic and for strictly increasing abscissas:
    whatever the extrapolation mode, a call that returns holds at every
    position whose query lies in [[xmin, xmax]] the spline value of that
    query, and the domain is [[x[0], x[-1]]]: extrapolation never touches
    the interior positions.  A callable extrapolation is taken to return
    one value per exterior query, as the write of line 56 requires. *)
Theorem interior_positions_hold_spline_values solve (uninit : fl) (x : vec) (y : batch)
        (bc : string) (extrap : option extrap_t) (at_init at_call : option batch)
        itp (xq : vec) w yq :
  strictly_increasing x = true ->
  CubicSpline1D.__init__ solve x at_init (Some bc) extrap = Ok itp ->
  solve_shape solve x bc = true ->
  rows_of_length (length x) y ->
  passes y at_init at_call ->
  (forall f, check_and_get_extrap extrap bc = Ok (ExtrapFun f) ->
             forall l, length (f l) = length l) ->
  CubicSpline1D.__call__ uninit itp xq at_call = (w, Ok yq) ->
  BaseInterp1D._xmin (CubicSpline1D.super itp) == nth 0 x 0 /\
  BaseInterp1D._xmax (CubicSpline1D.super itp) == nth (length x - 1) x 0 /\
  exists ks,
    Torch.matmul_rows (CubicSpline1D.spline_mat_inv itp) y = Ok ks /\
    shape (length y) (length x) ks /\
    length yq = length y /\
    forall r k, (r < length y)%nat -> (k < length xq)%nat ->
      BaseInterp1D._xmin (CubicSpline1D.super itp) <= nth k xq 0 ->
      nth k xq 0 <= BaseInterp1D._xmax (CubicSpline1D.super itp) ->
      exists v, nth k (nth r yq []) uninit = Fin v /\
                v == AtQuery.hermite x (nth r y []) (nth r ks []) (nth k xq 0).
Proof.
  intros Hs Hinit Hc Hy Hpass _ Hcall.
  pose proof (call_returns _ _ _ _ _ _ _ _ _ _ _ _ Hinit Hpass Hcall) as Hev.
  destruct (interp_constructed solve x at_init bc _ itp y Hinit Hc Hy)
    as (ks & Hmm & _ & Hlen & Hkrows & Hq).
  { intros y' Hy'. destruct Hpass as [[H1 _] | [H1 _]]; congruence. }
  destruct (init_inversion _ _ _ _ _ _ Hinit)
    as (e & xmin & xmax & A & B & He & Hmin & Hmax & _ & _ & Hn & _ & ks' & _ & Hitp).
  assert (Hxmin : BaseInterp1D._xmin (CubicSpline1D.super itp) = xmin)
    by (rewrite Hitp; reflexivity).
  assert (Hxmax : BaseInterp1D._xmax (CubicSpline1D.super itp) = xmax)
    by (rewrite Hitp; reflexivity).
  assert (Hext : BaseInterp1D._extrap (CubicSpline1D.super itp) = e)
    by (rewrite Hitp; reflexivity).
  rewrite Hxmin, Hxmax.
  split; [now apply min_increasing|]. split; [now apply max_increasing|].
  exists ks. split; [exact Hmm|]. split; [now split|].
  set (m := fun q : Q => Qle_bool xmin q && Qle_bool q xmax).
  assert (Hin : forall q, xmin <= q -> q <= xmax -> m q = true).
  { intros q H1 H2. unfold m. apply andb_true_intro.
    split; now apply Qle_bool_iff. }
  unfold BaseInterp1D.evaluate in Hev.
  cbn [BaseInterp1D.base CubicSpline1D.kernel BaseInterp1D._interp] in Hev.
  rewrite Hxmin, Hxmax, Hext in Hev. fold m in Hev.
  assert (Hrow : forall xs r k,
            (r < length y)%nat -> (k < length xs)%nat ->
            exists v,
              nth k (nth r (map (map Fin)
                              (interp_values (length x <? length xs)%nat x y ks xs)) [])
                  uninit = Fin v /\
              v == AtQuery.hermite x (nth r y []) (nth r ks []) (nth k xs 0)).
  { intros xs r k Hr Hk.
    rewrite (map_nth_in (map Fin) _ r [] [])
      by (rewrite interp_values_length; assumption).
    rewrite interp_values_row by assumption. rewrite (map_map _ Fin).
    rewrite (map_nth_in _ xs k uninit 0) by exact Hk.
    eexists. split; [reflexivity|].
    apply kernel_hermite; [exact Hn | now apply rows_of_length_nth |].
    apply rows_of_length_nth; [exact Hkrows | lia]. }
  destruct (forallb (fun b : bool => b) (map m xq)).
  - rewrite Hq in Hev. cbn [bind] in Hev. injection Hev as <-.
    split; [rewrite length_map; now apply interp_values_length|].
    intros r k Hr Hk _ _. now apply Hrow.
  - destruct (extrap_is e "mirror" || extrap_is e "periodic" || extrap_is e "bound").
    + destruct (get_extrap_pos_map e xmin xmax) as [g Hg].
      rewrite Hg, (masked_remap m) in Hev. rewrite Hq in Hev. cbn [bind] in Hev.
      injection Hev as <-.
      split; [rewrite length_map; now apply interp_values_length|].
      intros r k Hr Hk H1 H2.
      destruct (Hrow (map (fun q => if m q then q else g q) xq) r k Hr)
        as (v & Hv1 & Hv2); [now rewrite length_map|].
      exists v. split; [exact Hv1|]. rewrite Hv2.
      rewrite (map_nth_in _ xq k 0 0) by exact Hk.
      now rewrite (Hin _ H1 H2).
    + rewrite Hq in Hev. cbn [bind] in Hev.
      destruct (ExtrapUtils.get_extrap_val _ y e) as [yqe|] eqn:Hval;
        [|discriminate Hev].
      cbn [bind] in Hev. injection Hev as <-.
      assert (Hlqe : length yqe = length y).
      { unfold ExtrapUtils.get_extrap_val in Hval.
        destruct e as [s|v|f]; [destruct (String.eqb s "nan"); [|discriminate]| |];
          injection Hval as <-; apply length_map. }
      split.
      { rewrite !map2_length, !length_map.
        rewrite interp_values_length by assumption. lia. }
      intros r k Hr Hk H1 H2.
      rewrite (map2_nth _ _ _ r [] [] [])
        by (rewrite ?map2_length, ?length_map, ?interp_values_length; (assumption || lia)).
      rewrite (map2_nth _ _ _ r [] [] [])
        by (rewrite ?length_map, ?interp_values_length; (assumption || lia)).
      rewrite (map_nth_in (fun _ : list Q => map (fun _ : Q => uninit) xq) y r [] [])
        by exact Hr.
      rewrite (map_nth_in (map Fin) _ r [] [])
        by (rewrite interp_values_length; assumption).
      rewrite interp_values_row by assumption. rewrite (map_map _ Fin).
      rewrite masked_assign_unselected.
      2:{ rewrite (map_nth_in negb _ k false false) by (rewrite length_map; exact Hk).
          rewrite (map_nth_in m xq k false 0) by exact Hk.
          now rewrite (Hin _ H1 H2). }
      rewrite (masked_assign_selected m) by (rewrite ?length_map; auto).
      eexists. split; [reflexivity|].
      apply kernel_hermite; [exact Hn | now apply rows_of_length_nth |].
      apply rows_of_length_nth; [exact Hkrows | lia].
Qed.

(** X13. The content of the buffer that line 54 allocates never reaches
    the caller: every position is overwritten by line 55 or by line 56, so
    the warnings and the result of a call do not depend on it.  A callable
    extrapolation is taken to return one value per exterior query. *)
Theorem allocated_buffer_is_fully_overwritten solve (u1 u2 : fl) (x : vec) (y : batch)
        (bc : string) (extrap : option extrap_t) (at_init at_call : option batch)
        itp (xq : vec) :
  CubicSpline1D.__init__ solve x at_init (Some bc) extrap = Ok itp ->
  solve_shape solve x bc = true ->
  rows_of_length (length x) y ->
  passes y at_init at_call ->
  (forall f, check_and_get_extrap extrap bc = Ok (ExtrapFun f) ->
             forall l, length (f l) = length l) ->
  CubicSpline1D.__call__ u1 itp xq at_call = CubicSpline1D.__call__ u2 itp xq at_call.
Proof.
  intros Hinit Hc Hy Hpass Hf.
  destruct (interp_constructed solve x at_init bc _ itp y Hinit Hc Hy)
    as (ks & Hmm & _ & Hlen & Hkrows & Hq).
  { intros y' Hy'. destruct Hpass as [[H1 _] | [H1 _]]; congruence. }
  destruct (init_inversion _ _ _ _ _ _ Hinit)
    as (e & xmin & xmax & A & B & He & _ & _ & _ & _ & _ & _ & ks' & _ & Hitp).
  assert (Hext : BaseInterp1D._extrap (CubicSpline1D.super itp) = e)
    by (rewrite Hitp; reflexivity).
  assert (Hev : BaseInterp1D.evaluate u1 itp xq y = BaseInterp1D.evaluate u2 itp xq y).
  { unfold BaseInterp1D.evaluate.
    cbn [BaseInterp1D.base CubicSpline1D.kernel BaseInterp1D._interp].
    set (m := fun q : Q => Qle_bool (BaseInterp1D._xmin (CubicSpline1D.super itp)) q
                           && Qle_bool q (BaseInterp1D._xmax (CubicSpline1D.super itp))).
    destruct (forallb (fun b : bool => b) (map m xq)); [reflexivity|].
    destruct (_ || _); [reflexivity|].
    rewrite Hq. cbn [bind].
    destruct (ExtrapUtils.get_extrap_val _ y _) as [yqe|] eqn:Hval; [|reflexivity].
    cbn [bind]. f_equal. apply scatter_total.
    - apply length_map.
    - apply Forall_forall. intros r Hr.
      apply in_map_iff in Hr as (r' & <- & Hr'). rewrite length_map.
      unfold interp_values in Hr'.
      apply in_map_iff in Hr' as (yk & <- & _). apply length_map.
    - unfold ExtrapUtils.get_extrap_val in Hval. rewrite Hext in Hval.
      destruct e as [s|v|f];
        [destruct (String.eqb s "nan"); [|discriminate]| |];
        injection Hval as <-; apply Forall_forall; intros r Hr;
        apply in_map_iff in Hr as (r' & <- & _); rewrite !length_map;
        [reflexivity | reflexivity | now apply (Hf f He)]. }
  unfold CubicSpline1D.__call__, BaseInterp1D.__call__. f_equal.
  destruct (BaseInterp1D.ordinates itp at_call) as [y'|err] eqn:Hord; [|reflexivity].
  cbn [bind].
  assert (y' = y); [|subst y'; exact Hev].
  revert Hord. rewrite Hitp. unfold BaseInterp1D.ordinates, BaseInterp1D.is_periodic_required.
  cbn [BaseInterp1D.base BaseInterp1D.attr_y CubicSpline1D.kernel
       CubicSpline1D.super CubicSpline1D.y BaseInterp1D._y_is_given
       BaseInterp1D._is_periodic_required].
  destruct Hpass as [[-> ->] | [-> ->]]; cbn [is_not_None].
  - now intros [= <-].
  - destruct (extrap_is e "periodic"); [|now intros [= <-]].
    destruct (check_periodic_value y) as [[]|]; cbn [bind];
      [now intros [= <-] | discriminate].
Qed.

(** ** The rows of the system *)

Lemma sum_tridiagonal (n i : nat) (f : nat -> Q) :
  (i < n)%nat ->
  (forall k, (k < n)%nat -> k <> i -> k <> (i + 1)%nat -> (k + 1)%nat <> i -> f k == 0) ->
  Spec.sum n f
  == f i + (if (i + 1 <? n)%nat then f (i + 1)%nat else 0)
     + (if (1 <=? i)%nat then f (i - 1)%nat else 0).
Proof.
  intros Hi Hz.
  destruct (Nat.ltb_spec (i + 1) n) as [Hu|Hu];
    destruct (Nat.leb_spec 1 i) as [Hl|Hl].
  - rewrite (sum_support n [i; (i + 1)%nat; (i - 1)%nat]).
    + cbn [map fold_right]. ring.
    + repeat constructor; simpl; lia.
    + repeat constructor; lia.
    + intros k Hk Hin. simpl in Hin. apply Hz; auto; intros E; apply Hin; lia.
  - rewrite (sum_support n [i; (i + 1)%nat]).
    + cbn [map fold_right]. ring.
    + repeat constructor; simpl; lia.
    + repeat constructor; lia.
    + intros k Hk Hin. simpl in Hin. apply Hz; auto; try lia; intros E; apply Hin; lia.
  - rewrite (sum_support n [i; (i - 1)%nat]).
    + cbn [map fold_right]. ring.
    + repeat constructor; simpl; lia.
    + repeat constructor; lia.
    + intros k Hk Hin. simpl in Hin. apply Hz; auto; try lia; intros E; apply Hin; lia.
  - rewrite (sum_support n [i]).
    + cbn [map fold_right]. ring.
    + repeat constructor; simpl; lia.
    + repeat constructor; lia.
    + intros k Hk Hin. simpl in Hin. apply Hz; auto; try lia; intros E; apply Hin; lia.
Qed.

Lemma left_row (x : vec) (bc : string) (i : nat) (u : nat -> Q) :
  (i < length x)%nat -> Spec.pinned x bc i = false ->
  Spec.sum (length x) (fun k => Spec.LeftHand x bc i k * u k)
  == 2 * (Spec.dxinv x i + Spec.dxinv x (i + 1)) * u i
     + Spec.dxinv x (i + 1) * u (i + 1)%nat
     + Spec.dxinv x i * u (i - 1)%nat.
Proof.
  intros Hi Hp. rewrite (sum_tridiagonal _ i) by
    (try exact Hi; intros k Hk H1 H2 H3; unfold Spec.LeftHand; rewrite Hp;
     split_cases; ring).
  unfold Spec.LeftHand. rewrite Hp. rewrite Nat.eqb_refl.
  replace (i + 1 =? i)%nat with false by (symmetry; apply Nat.eqb_neq; lia).
  rewrite Nat.eqb_refl.
  destruct (Nat.ltb_spec (i + 1) (length x)) as [Hu|Hu];
    destruct (Nat.leb_spec 1 i) as [Hl|Hl].
  - replace (i - 1 =? i)%nat with false by (symmetry; apply Nat.eqb_neq; lia).
    replace (i - 1 =? i + 1)%nat with false by (symmetry; apply Nat.eqb_neq; lia).
    replace (i =? i - 1 + 1)%nat with true by (symmetry; apply Nat.eqb_eq; lia).
    replace (i - 1 + 1)%nat with i by lia. ring.
  - rewrite (dxinv_outside x i) by lia. ring.
  - replace (i - 1 =? i)%nat with false by (symmetry; apply Nat.eqb_neq; lia).
    replace (i - 1 =? i + 1)%nat with false by (symmetry; apply Nat.eqb_neq; lia).
    replace (i =? i - 1 + 1)%nat with true by (symmetry; apply Nat.eqb_eq; lia).
    replace (i - 1 + 1)%nat with i by lia.
    rewrite (dxinv_outside x (i + 1)) by lia. ring.
  - rewrite (dxinv_outside x i) by lia.
    rewrite (dxinv_outside x (i + 1)) by lia. ring.
Qed.

Lemma right_row (x : vec) (bc : string) (i : nat) (v : nat -> Q) :
  (i < length x)%nat -> Spec.pinned x bc i = false ->
  Spec.sum (length x) (fun j => Spec.RightHand x bc i j * v j)
  == 3 * (Spec.dxinv x i * Spec.dxinv x i) * (v i - v (i - 1)%nat)
     + 3 * (Spec.dxinv x (i + 1) * Spec.dxinv x (i + 1)) * (v (i + 1)%nat - v i).
Proof.
  intros Hi Hp. rewrite (sum_tridiagonal _ i) by
    (try exact Hi; intros k Hk H1 H2 H3; unfold Spec.RightHand; rewrite Hp;
     split_cases; ring).
  unfold Spec.RightHand. rewrite Hp. rewrite Nat.eqb_refl.
  replace (i + 1 =? i)%nat with false by (symmetry; apply Nat.eqb_neq; lia).
  rewrite Nat.eqb_refl.
  destruct (Nat.ltb_spec (i + 1) (length x)) as [Hu|Hu];
    destruct (Nat.leb_spec 1 i) as [Hl|Hl].
  - replace (i - 1 =? i)%nat with false by (symmetry; apply Nat.eqb_neq; lia).
    replace (i - 1 =? i + 1)%nat with false by (symmetry; apply Nat.eqb_neq; lia).
    replace (i =? i - 1 + 1)%nat with true by (symmetry; apply Nat.eqb_eq; lia).
    replace (i - 1 + 1)%nat with i by lia. ring.
  - rewrite (dxinv_outside x i) by lia. ring.
  - replace (i - 1 =? i)%nat with false by (symmetry; apply Nat.eqb_neq; lia).
    replace (i - 1 =? i + 1)%nat with false by (symmetry; apply Nat.eqb_neq; lia).
    replace (i =? i - 1 + 1)%nat with true by (symmetry; apply Nat.eqb_eq; lia).
    replace (i - 1 + 1)%nat with i by lia.
    rewrite (dxinv_outside x (i + 1)) by lia. ring.
  - rewrite (dxinv_outside x i) by lia.
    rewrite (dxinv_outside x (i + 1)) by lia. ring.
Qed.

Lemma pinned_left_row (x : vec) (bc : string) (i : nat) (u : nat -> Q) :
  (i < length x)%nat -> Spec.pinned x bc i = true ->
  Spec.sum (length x) (fun k => Spec.LeftHand x bc i k * u k) == u i.
Proof.
  intros Hi Hp. rewrite <- (sum_unit_row (length x) i u Hi).
  apply sum_ext. intros k _. unfold Spec.LeftHand. now rewrite Hp.
Qed.

Lemma pinned_right_row (x : vec) (bc : string) (i : nat) (v : nat -> Q) :
  Spec.pinned x bc i = true ->
  Spec.sum (length x) (fun j => Spec.RightHand x bc i j * v j) == 0.
Proof.
  intros Hp. apply sum_zero. intros k _. unfold Spec.RightHand. rewrite Hp. ring.
Qed.

(** ** The reciprocal widths *)

Lemma dxinv_nonneg (x : vec) (i : nat) :
  strictly_increasing x = true -> 0 <= Spec.dxinv x i.
Proof.
  intros Hs.
  destruct (Nat.eq_dec i 0) as [->|H0]; [rewrite dxinv_outside by lia; apply Qle_refl|].
  destruct (Nat.le_gt_cases (length x) i) as [Hn|Hn];
    [rewrite dxinv_outside by lia; apply Qle_refl|].
  rewrite dxinv_interior by lia.
  assert (Hh : nth (i - 1) x 0 < nth i x 0)
    by (apply strictly_increasing_nth; auto; lia).
  apply Qlt_le_weak. unfold Qdiv. rewrite Qmult_1_l. apply Qinv_lt_0_compat. lra.
Qed.

Lemma dxinv_pos (x : vec) (i : nat) :
  strictly_increasing x = true -> (1 <= i)%nat -> (i < length x)%nat ->
  0 < Spec.dxinv x i /\ Spec.dxinv x i * (nth i x 0 - nth (i - 1) x 0) == 1.
Proof.
  intros Hs H1 H2. rewrite dxinv_interior by lia.
  assert (Hh : nth (i - 1) x 0 < nth i x 0)
    by (apply strictly_increasing_nth; auto; lia).
  split.
  - unfold Qdiv. rewrite Qmult_1_l. apply Qinv_lt_0_compat. lra.
  - field. lra.
Qed.

Lemma dxinv_pair_pos (x : vec) (i : nat) :
  strictly_increasing x = true -> (2 <= length x)%nat -> (i < length x)%nat ->
  0 < Spec.dxinv x i + Spec.dxinv x (i + 1).
Proof.
  intros Hs Hn Hi.
  pose proof (dxinv_nonneg x i Hs) as Ha. pose proof (dxinv_nonneg x (i + 1) Hs) as Hb.
  destruct (Nat.eq_dec i 0) as [->|Hi0].
  - destruct (dxinv_pos x 1 Hs) as [Hp _]; try lia. simpl in *. lra.
  - destruct (dxinv_pos x i Hs) as [Hp _]; try lia. lra.
Qed.

(** ** Uniqueness of the slopes *)

Lemma argmax (u : nat -> Q) (n : nat) :
  (1 <= n)%nat ->
  exists i, (i < n)%nat /\ forall j, (j < n)%nat -> Qabs (u j) <= Qabs (u i).
Proof.
  induction n as [|n IH]; [lia|]. intros _.
  destruct n as [|n].
  - exists 0%nat. split; [lia|]. intros j Hj. replace j with 0%nat by lia. apply Qle_refl.
  - destruct IH as (i & Hi & Hmax); [lia|].
    destruct (Qlt_le_dec (Qabs (u i)) (Qabs (u (S n)))) as [Hlt|Hle].
    + exists (S n). split; [lia|]. intros j Hj.
      destruct (Nat.eq_dec j (S n)) as [->|Hne]; [apply Qle_refl|].
      apply Qle_trans with (Qabs (u i)); [apply Hmax; lia | now apply Qlt_le_weak].
    + exists i. split; [lia|]. intros j Hj.
      destruct (Nat.eq_dec j (S n)) as [->|Hne]; [exact Hle | apply Hmax; lia].
Qed.

Lemma dominant_row (d0 d1 a b c : Q) :
  0 <= d0 -> 0 <= d1 -> 0 < d0 + d1 ->
  2 * (d0 + d1) * a + d1 * b + d0 * c == 0 ->
  Qabs b <= Qabs a -> Qabs c <= Qabs a ->
  a == 0.
Proof.
  intros H0 H1 Hpos Heq Hb Hc.
  apply Qabs_Qle_condition in Hb as [Hb1 Hb2].
  apply Qabs_Qle_condition in Hc as [Hc1 Hc2].
  revert Hb1 Hb2 Hc1 Hc2. apply (Qabs_case a (fun A => - A <= b -> b <= A -> - A <= c -> c <= A -> a == 0));
    intros Ha Hb1 Hb2 Hc1 Hc2.
  - assert (P1 : 0 <= d1 * (b + a)) by (apply Qmult_le_0_compat; lra).
    assert (P2 : 0 <= d0 * (c + a)) by (apply Qmult_le_0_compat; lra).
    assert (P3 : (d0 + d1) * a <= 0) by lra.
    assert (P4 : 0 <= (d0 + d1) * a) by (apply Qmult_le_0_compat; lra).
    assert (P5 : (d0 + d1) * a == 0) by lra.
    apply Qmult_integral in P5 as [P5|P5]; [lra | exact P5].
  - assert (P1 : 0 <= d1 * (- a - b)) by (apply Qmult_le_0_compat; lra).
    assert (P2 : 0 <= d0 * (- a - c)) by (apply Qmult_le_0_compat; lra).
    assert (P3 : 0 <= (d0 + d1) * a) by lra.
    assert (P4 : 0 <= (d0 + d1) * (- a)) by (apply Qmult_le_0_compat; lra).
    assert (P5 : (d0 + d1) * a == 0) by lra.
    apply Qmult_integral in P5 as [P5|P5]; [lra | exact P5].
Qed.

(** The matrix of the system is strictly diagonally dominant, so the
    homogeneous system has the zero solution only. *)
Lemma system_injective (x : vec) (bc : string) (u : nat -> Q) :
  strictly_increasing x = true -> (2 <= length x)%nat ->
  (forall k, (length x <= k)%nat -> u k == 0) ->
  (forall i, (i < length x)%nat ->
     Spec.sum (length x) (fun k => Spec.LeftHand x bc i k * u k) == 0) ->
  forall i, (i < length x)%nat -> u i == 0.
Proof.
  intros Hs Hn Hout Hrows.
  destruct (argmax u (length x)) as (m & Hm & Hmax); [lia|].
  assert (Hum : u m == 0).
  { specialize (Hrows m Hm).
    destruct (Spec.pinned x bc m) eqn:Hp.
    - now rewrite pinned_left_row in Hrows.
    - rewrite left_row in Hrows by assumption.
      apply (dominant_row (Spec.dxinv x m) (Spec.dxinv x (m + 1))
               (u m) (u (m + 1)%nat) (u (m - 1)%nat)).
      + now apply dxinv_nonneg.
      + now apply dxinv_nonneg.
      + now apply dxinv_pair_pos.
      + rewrite <- Hrows. ring.
      + destruct (Nat.lt_ge_cases (m + 1) (length x)) as [H|H]; [now apply Hmax|].
        rewrite (Hout _ H). apply Qabs_nonneg.
      + apply Hmax. lia. }
  intros i Hi. specialize (Hmax i Hi). rewrite Hum in Hmax.
  change (Qabs 0) with 0 in Hmax.
  apply Qabs_Qle_condition in Hmax as [H1 H2]. lra.
Qed.

Lemma sum_minus (n : nat) (f g : nat -> Q) :
  Spec.sum n (fun k => f k - g k) == Spec.sum n f - Spec.sum n g.
Proof.
  unfold Spec.sum. induction (seq 0 n) as [|a l IH]; simpl; [ring|].
  rewrite IH. ring.
Qed.

Lemma entry_outside (M : mat) (n r k : nat) :
  rows_of_length n M -> (n <= k)%nat -> Torch.entry M r k = 0.
Proof.
  intros HM Hk. unfold Torch.entry.
  destruct (Nat.lt_ge_cases r (length M)) as [Hr|Hr].
  - apply nth_overflow. rewrite (rows_of_length_nth n M r HM Hr). exact Hk.
  - rewrite (nth_overflow M [] Hr). now destruct k.
Qed.

(** Two slope vectors that solve the system for the same right-hand side
    agree. *)
Lemma slopes_determined (x : vec) (bc : string) (u v : nat -> Q) :
  strictly_increasing x = true -> (2 <= length x)%nat ->
  (forall k, (length x <= k)%nat -> u k == v k) ->
  (forall i, (i < length x)%nat ->
     Spec.sum (length x) (fun k => Spec.LeftHand x bc i k * u k)
     == Spec.sum (length x) (fun k => Spec.LeftHand x bc i k * v k)) ->
  forall i, (i < length x)%nat -> u i == v i.
Proof.
  intros Hs Hn Hout Hrows i Hi.
  assert (H := system_injective x bc (fun k => u k - v k) Hs Hn).
  cbv beta in H.
  assert (Hz : u i - v i == 0); [|lra].
  apply H; [intros k Hk; rewrite (Hout k Hk); ring | | exact Hi].
  intros j Hj.
  rewrite (sum_ext _ _ (fun k => Spec.LeftHand x bc j k * u k
                                 - Spec.LeftHand x bc j k * v k))
    by (intros; ring).
  rewrite sum_minus, (Hrows j Hj). ring.
Qed.

(** X14. The system that [_get_spline_mat_inv] hands to the solver has one
    solution only: any two solvers that return a solution return the same
    [nr] by [nr] matrix, and the same slopes, one row of [nr] per row of
    the batch, for every batch of ordinates. *)
Theorem spline_system_has_one_solution solve1 solve2 (x : vec) (bc : string) :
  strictly_increasing x = true -> (2 <= length x)%nat ->
  solve_contract solve1 x bc = true ->
  solve_contract solve2 x bc = true ->
  exists Z1 Z2,
    _get_spline_mat_inv solve1 x bc = Ok Z1 /\
    _get_spline_mat_inv solve2 x bc = Ok Z2 /\
    shape (length x) (length x) Z1 /\ shape (length x) (length x) Z2 /\
    (forall i j, (i < length x)%nat -> (j < length x)%nat ->
       Torch.entry Z1 i j == Torch.entry Z2 i j) /\
    forall y, rows_of_length (length x) y ->
      exists ks1 ks2,
        Torch.matmul_rows Z1 y = Ok ks1 /\ Torch.matmul_rows Z2 y = Ok ks2 /\
        shape (length y) (length x) ks1 /\ shape (length y) (length x) ks2 /\
        forall r i, (r < length y)%nat -> (i < length x)%nat ->
          Torch.entry ks1 r i == Torch.entry ks2 r i.
Proof.
  intros Hs Hn Hc1 Hc2.
  destruct (spline_system solve1 x bc Hn Hc1)
    as (A & B & Hsm & Hinv1 & _ & _ & [HZ1 HZ1'] & _ & Heq1 & _).
  destruct (spline_system solve2 x bc Hn Hc2)
    as (A' & B' & Hsm' & Hinv2 & _ & _ & [HZ2 HZ2'] & _ & Heq2 & _).
  rewrite Hsm in Hsm'. injection Hsm' as <- <-.
  exists (solve1 B A), (solve2 B A). do 2 (split; [assumption|]).
  split; [now split|]. split; [now split|].
  split.
  - intros i j Hi Hj.
    apply (slopes_determined x bc (fun k => Torch.entry (solve1 B A) k j)
             (fun k => Torch.entry (solve2 B A) k j) Hs Hn); [| |exact Hi].
    + intros k Hk. unfold Torch.entry.
      rewrite (nth_overflow (solve1 B A)), (nth_overflow (solve2 B A)) by lia.
      reflexivity.
    + intros i' Hi'. now rewrite (Heq1 i' j Hi' Hj), (Heq2 i' j Hi' Hj).
  - intros y Hy.
    destruct (slope_equations solve1 x bc y Hn Hc1 Hy)
      as (Z1 & ks1 & Hinv1' & Hmm1 & Hl1 & Hr1 & _ & He1).
    destruct (slope_equations solve2 x bc y Hn Hc2 Hy)
      as (Z2 & ks2 & Hinv2' & Hmm2 & Hl2 & Hr2 & _ & He2).
    rewrite Hinv1 in Hinv1'. injection Hinv1' as <-.
    rewrite Hinv2 in Hinv2'. injection Hinv2' as <-.
    exists ks1, ks2. do 2 (split; [assumption|]).
    split; [now split|]. split; [now split|].
    intros r i Hr Hi.
    apply (slopes_determined x bc (fun k => Torch.entry ks1 r k)
             (fun k => Torch.entry ks2 r k) Hs Hn); [| |exact Hi].
    + intros k Hk.
      now rewrite (entry_outside ks1 (length x)), (entry_outside ks2 (length x)).
    + intros i' Hi'. now rewrite (He1 r i' Hr Hi'), (He2 r i' Hr Hi').
Qed.

(** ** Exactness *)

(** The slopes of an interpolant that was constructed with a solver that
    meets its contract. *)
Lemma constructed_slopes solve (x : vec) (at_init : option batch) (bc : string)
      (extrap : option extrap_t) itp (y : batch) :
  CubicSpline1D.__init__ solve x at_init (Some bc) extrap = Ok itp ->
  solve_contract solve x bc = true ->
  rows_of_length (length x) y ->
  (forall y', at_init = Some y' -> y = y') ->
  exists ks,
    Torch.matmul_rows (CubicSpline1D.spline_mat_inv itp) y = Ok ks /\
    length ks = length y /\ rows_of_length (length x) ks /\
    (forall xq, CubicSpline1D._interp itp xq y
                = Ok (interp_values (length x <? length xq)%nat x y ks xq)) /\
    forall r i, (r < length y)%nat -> (i < length x)%nat ->
      Spec.sum (length x) (fun k => Spec.LeftHand x bc i k * Torch.entry ks r k)
      == Spec.sum (length x) (fun j => Spec.RightHand x bc i j * Torch.entry y r j).
Proof.
  intros Hinit Hc Hy Hyeff.
  destruct (interp_constructed solve x at_init bc extrap itp y Hinit
              (contract_gives_shape _ _ _ Hc) Hy Hyeff)
    as (ks & Hmm & _ & Hlen & Hkrows & Hq).
  destruct (init_inversion _ _ _ _ _ _ Hinit)
    as (e & xmin & xmax & A & B & _ & _ & _ & _ & Hsm & Hn & _ & ks' & _ & Hitp).
  destruct (slope_equations solve x bc y Hn Hc Hy)
    as (Zm & ks2 & Hinv & Hmm2 & _ & _ & _ & Heq).
  unfold _get_spline_mat_inv in Hinv. rewrite Hsm in Hinv. cbn [bind] in Hinv.
  injection Hinv as <-.
  assert (HZ : CubicSpline1D.spline_mat_inv itp = solve B A)
    by (rewrite Hitp; reflexivity).
  rewrite HZ in Hmm. rewrite Hmm in Hmm2. injection Hmm2 as <-.
  exists ks. rewrite HZ. repeat split; assumption.
Qed.

Lemma hermite_constant (x y ks : vec) (q c : Q) :
  nth (Z.to_nat (AtQuery.idxl x q)) y 0 == c ->
  nth (Z.to_nat (AtQuery.idxr x q)) y 0 == c ->
  nth (Z.to_nat (AtQuery.idxl x q)) ks 0 == 0 ->
  nth (Z.to_nat (AtQuery.idxr x q)) ks 0 == 0 ->
  AtQuery.hermite x y ks q == c.
Proof.
  intros H1 H2 H3 H4. unfold AtQuery.hermite. cbv zeta.
  rewrite H1, H2, H3, H4. ring.
Qed.

Lemma hermite_line (x y ks : vec) (q a b : Q) :
  let l := Z.to_nat (AtQuery.idxl x q) in
  let r := Z.to_nat (AtQuery.idxr x q) in
  nth l x 0 < nth r x 0 ->
  nth l y 0 == a + b * nth l x 0 ->
  nth r y 0 == a + b * nth r x 0 ->
  nth l ks 0 == b -> nth r ks 0 == b ->
  AtQuery.hermite x y ks q == a + b * q.
Proof.
  intros l r Hlt H1 H2 H3 H4. unfold AtQuery.hermite. cbv zeta.
  fold l r. rewrite H1, H2, H3, H4. field. lra.
Qed.

(** X15. Constant ordinates are reproduced exactly, under either boundary
    condition and at every query, inside the domain or not: every slope is
    zero and the interpolant is the constant. *)
Theorem constant_ordinates_are_reproduced solve (x : vec) (at_init : option batch)
        (bc : string) (extrap : option extrap_t) itp (y : batch) (c : nat -> Q)
        (xq : vec) :
  strictly_increasing x = true ->
  CubicSpline1D.__init__ solve x at_init (Some bc) extrap = Ok itp ->
  solve_contract solve x bc = true ->
  rows_of_length (length x) y ->
  (forall y', at_init = Some y' -> y = y') ->
  (forall r j, (r < length y)%nat -> (j < length x)%nat -> Torch.entry y r j == c r) ->
  exists yq,
    CubicSpline1D._interp itp xq y = Ok yq /\ length yq = length y /\
    forall r k, (r < length y)%nat -> (k < length xq)%nat ->
      Torch.entry yq r k == c r.
Proof.
  intros Hs Hinit Hc Hy Hyeff Hconst.
  destruct (constructed_slopes solve x at_init bc extrap itp y Hinit Hc Hy Hyeff)
    as (ks & Hmm & Hlen & Hkrows & Hq & Heq).
  destruct (init_inversion _ _ _ _ _ _ Hinit)
    as (_ & _ & _ & _ & _ & _ & _ & _ & _ & _ & Hn & _).
  assert (Hks : forall r i, (r < length y)%nat -> (i < length x)%nat ->
                  Torch.entry ks r i == 0).
  { intros r i Hr Hi.
    apply (system_injective x bc (fun k => Torch.entry ks r k) Hs Hn); [| |exact Hi].
    - intros k Hk. now rewrite (entry_outside ks (length x)).
    - intros j Hj. rewrite (Heq r j Hr Hj).
      destruct (Spec.pinned x bc j) eqn:Hp; [now apply pinned_right_row|].
      rewrite right_row by assumption.
      rewrite (Hconst r j Hr Hj).
      destruct (Nat.leb_spec 1 j) as [H1|H1];
        destruct (Nat.ltb_spec (j + 1) (length x)) as [H2|H2];
        rewrite ?(Hconst r (j - 1)%nat Hr) by lia;
        rewrite ?(Hconst r (j + 1)%nat Hr) by lia;
        rewrite ?(dxinv_outside x j) by lia;
        rewrite ?(dxinv_outside x (j + 1)) by lia; ring. }
  exists (interp_values (length x <? length xq)%nat x y ks xq).
  split; [apply Hq|]. split; [now apply interp_values_length|].
  intros r k Hr Hk. unfold Torch.entry.
  rewrite interp_values_row by assumption.
  rewrite (map_nth_in _ xq k 0 0) by exact Hk.
  rewrite kernel_hermite;
    [|exact Hn | now apply rows_of_length_nth | apply rows_of_length_nth; auto; lia].
  pose proof (idxl_range x (nth k xq 0) Hn) as Hl.
  pose proof (idxr_range x (nth k xq 0) Hn) as Hr'.
  apply hermite_constant.
  - apply (Hconst r _ Hr). lia.
  - apply (Hconst r _ Hr). lia.
  - apply (Hks r _ Hr). lia.
  - apply (Hks r _ Hr). lia.
Qed.

(** X16. With the natural boundary condition, ordinates that lie on a
    straight line are reproduced exactly at every query, inside the domain
    or not: every slope is the slope of the line and the interpolant is
    the line. *)
Theorem natural_spline_reproduces_lines solve (x : vec) (at_init : option batch)
        (extrap : option extrap_t) itp (y : batch) (a b : nat -> Q) (xq : vec) :
  strictly_increasing x = true ->
  CubicSpline1D.__init__ solve x at_init None extrap = Ok itp ->
  solve_contract solve x "natural" = true ->
  rows_of_length (length x) y ->
  (forall y', at_init = Some y' -> y = y') ->
  (forall r j, (r < length y)%nat -> (j < length x)%nat ->
     Torch.entry y r j == a r + b r * nth j x 0) ->
  exists yq,
    CubicSpline1D._interp itp xq y = Ok yq /\ length yq = length y /\
    forall r k, (r < length y)%nat -> (k < length xq)%nat ->
      Torch.entry yq r k == a r + b r * nth k xq 0.
Proof.
  intros Hs Hinit Hc Hy Hyeff Hline.
  change (CubicSpline1D.__init__ solve x at_init None extrap)
    with (CubicSpline1D.__init__ solve x at_init (Some "natural"%string) extrap) in Hinit.
  destruct (constructed_slopes solve x at_init _ extrap itp y Hinit Hc Hy Hyeff)
    as (ks & Hmm & Hlen & Hkrows & Hq & Heq).
  destruct (init_inversion _ _ _ _ _ _ Hinit)
    as (_ & _ & _ & _ & _ & _ & _ & _ & _ & _ & Hn & _).
  assert (Hks : forall r i, (r < length y)%nat -> (i < length x)%nat ->
                  Torch.entry ks r i == b r).
  { intros r i Hr Hi.
    assert (H : Torch.entry ks r i == if (i <? length x)%nat then b r else 0);
      [|replace (i <? length x)%nat with true in H
          by (symmetry; apply Nat.ltb_lt; lia); exact H].
    apply (slopes_determined x "natural" (fun k => Torch.entry ks r k)
             (fun k => if (k <? length x)%nat then b r else 0) Hs Hn);
      [| |exact Hi].
    - intros k Hk. rewrite (entry_outside ks (length x)) by assumption.
      replace (k <? length x)%nat with false by (symmetry; apply Nat.ltb_ge; lia).
      reflexivity.
    - intros j Hj. rewrite (Heq r j Hr Hj).
      rewrite right_row, left_row by (auto; apply unpinned; now left).
      rewrite (Hline r j Hr Hj).
      replace (j <? length x)%nat with true by (symmetry; apply Nat.ltb_lt; lia).
      replace (j - 1 <? length x)%nat with true by (symmetry; apply Nat.ltb_lt; lia).
      destruct (Nat.leb_spec 1 j) as [H1|H1];
        destruct (Nat.ltb_spec (j + 1) (length x)) as [H2|H2];
        rewrite ?(Hline r (j - 1)%nat Hr) by lia;
        rewrite ?(Hline r (j + 1)%nat Hr) by lia;
        rewrite ?(dxinv_outside x j) by lia;
        rewrite ?(dxinv_outside x (j + 1)) by lia.
      + rewrite (dxinv_interior x j), (dxinv_interior x (j + 1)) by lia.
        replace (j + 1 - 1)%nat with j by lia.
        assert (Hh0 : nth (j - 1) x 0 < nth j x 0)
          by (apply strictly_increasing_nth; auto; lia).
        assert (Hh1 : nth j x 0 < nth (j + 1) x 0)
          by (apply strictly_increasing_nth; auto; lia).
        field. split; lra.
      + rewrite (dxinv_interior x j) by lia.
        assert (Hh0 : nth (j - 1) x 0 < nth j x 0)
          by (apply strictly_increasing_nth; auto; lia).
        field. lra.
      + rewrite (dxinv_interior x (j + 1)) by lia.
        replace (j + 1 - 1)%nat with j by lia.
        assert (Hh1 : nth j x 0 < nth (j + 1) x 0)
          by (apply strictly_increasing_nth; auto; lia).
        field. lra.
      + lia. }
  exists (interp_values (length x <? length xq)%nat x y ks xq).
  split; [apply Hq|]. split; [now apply interp_values_length|].
  intros r k Hr Hk. unfold Torch.entry.
  rewrite interp_values_row by assumption.
  rewrite (map_nth_in _ xq k 0 0) by exact Hk.
  rewrite kernel_hermite;
    [|exact Hn | now apply rows_of_length_nth | apply rows_of_length_nth; auto; lia].
  pose proof (idxl_range x (nth k xq 0) Hn) as Hl.
  pose proof (idxr_range x (nth k xq 0) Hn) as Hr'.
  pose proof (idxr_succ_idxl x (nth k xq 0) Hn) as Hlr.
  apply hermite_line.
  - apply strictly_increasing_nth; auto; lia.
  - apply (Hline r _ Hr). lia.
  - apply (Hline r _ Hr). lia.
  - apply (Hks r _ Hr). lia.
  - apply (Hks r _ Hr). lia.
Qed.

(** ** Superposition *)

Lemma dot_combination (a b : Q) (row y1 y2 : vec) :
  length y1 = length row -> length y2 = length row ->
  Torch.dot row (Torch.map2 (fun p q => a * p + b * q) y1 y2)
  == a * Torch.dot row y1 + b * Torch.dot row y2.
Proof.
  unfold Torch.dot, Torch.map2. revert y1 y2.
  induction row as [|r0 row IH]; intros [|p y1] [|q y2] H1 H2; simpl in H1, H2;
    try lia; cbn [combine map fold_right fst snd]; [ring|].
  rewrite IH by lia. ring.
Qed.

Lemma hermite_combination (x y y1 y2 ks k1 k2 : vec) (q a b : Q) :
  (forall j, (j < length x)%nat -> nth j y 0 == a * nth j y1 0 + b * nth j y2 0) ->
  (forall j, (j < length x)%nat -> nth j ks 0 == a * nth j k1 0 + b * nth j k2 0) ->
  (2 <= length x)%nat ->
  AtQuery.hermite x y ks q
  == a * AtQuery.hermite x y1 k1 q + b * AtQuery.hermite x y2 k2 q.
Proof.
  intros Hy Hk Hn.
  pose proof (idxl_range x q Hn) as Hl. pose proof (idxr_range x q Hn) as Hr.
  unfold AtQuery.hermite. cbv zeta.
  rewrite (Hy (Z.to_nat (AtQuery.idxl x q))), (Hy (Z.to_nat (AtQuery.idxr x q))) by lia.
  rewrite (Hk (Z.to_nat (AtQuery.idxl x q))), (Hk (Z.to_nat (AtQuery.idxr x q))) by lia.
  ring.
Qed.

(** X17. An interpolant without bound ordinates is linear in the ordinates
    it is called with: on a combination [a y1 + b y2] it returns the same
    combination of what it returns on [y1] and on [y2], query by query. *)
Theorem interpolant_is_linear_in_ordinates solve (x : vec) (bc : string)
        (extrap : option extrap_t) itp (y1 y2 : vec) (a b : Q) (xq : vec) :
  CubicSpline1D.__init__ solve x None (Some bc) extrap = Ok itp ->
  solve_shape solve x bc = true ->
  length y1 = length x -> length y2 = length x ->
  exists r1 r2 r,
    CubicSpline1D._interp itp xq [y1] = Ok [r1] /\
    CubicSpline1D._interp itp xq [y2] = Ok [r2] /\
    CubicSpline1D._interp itp xq [Torch.map2 (fun p q => a * p + b * q) y1 y2] = Ok [r] /\
    length r = length xq /\
    veq r (Torch.map2 (fun p q => a * p + b * q) r1 r2).
Proof.
  intros Hinit Hc H1 H2.
  set (y := Torch.map2 (fun p q => a * p + b * q) y1 y2).
  assert (Hly : length y = length x) by (unfold y; rewrite map2_length; lia).
  destruct (init_inversion _ _ _ _ _ _ Hinit)
    as (e & xmin & xmax & A & B & _ & _ & _ & _ & Hsm & Hn & _ & ks' & _ & Hitp).
  destruct (solution_shape solve x bc A B Hc Hsm) as [HZ1 HZ2].
  assert (HZ : CubicSpline1D.spline_mat_inv itp = solve B A)
    by (rewrite Hitp; reflexivity).
  assert (Hone : forall v : vec, length v = length x ->
            Torch.matmul_rows (solve B A) [v]
            = Ok [map (fun row => Torch.dot row v) (solve B A)]).
  { intros v Hv. unfold Torch.matmul_rows, Torch.matvec. cbn [mapM].
    replace (forallb (fun r => (length r =? length v)%nat) (solve B A)) with true;
      [reflexivity|].
    symmetry. apply forallb_forall. intros r Hr. apply Nat.eqb_eq.
    eapply Forall_forall in HZ2; [|exact Hr]. congruence. }
  assert (Hint : forall v : vec, length v = length x ->
            CubicSpline1D._interp itp xq [v]
            = Ok [map ((if (length x <? length xq)%nat
                        then AtQuery.polynomial else AtQuery.hermite)
                         x v (map (fun row => Torch.dot row v) (solve B A))) xq]).
  { intros v Hv.
    destruct (interp_constructed solve x None bc extrap itp [v] Hinit Hc)
      as (ks & Hmm & _ & _ & _ & Hq); [repeat constructor; exact Hv | discriminate|].
    rewrite HZ, (Hone v Hv) in Hmm. injection Hmm as <-.
    rewrite Hq. reflexivity. }
  do 3 eexists.
  split; [apply (Hint y1 H1)|]. split; [apply (Hint y2 H2)|].
  split; [apply (Hint y Hly)|]. split; [apply length_map|].
  rewrite map2_map_map. apply veq_map. intros q _.
  rewrite !kernel_hermite by (rewrite ?length_map; (assumption || lia)).
  apply hermite_combination; [| |exact Hn].
  - intros j Hj. unfold y. now rewrite (map2_nth _ _ _ j 0 0 0) by lia.
  - intros j Hj.
    rewrite !(map_nth_in (fun row => Torch.dot row _) (solve B A) j 0 []) by lia.
    assert (Hrow : length (nth j (solve B A) []) = length x)
      by (apply rows_of_length_nth; auto; lia).
    unfold y. apply dot_combination; congruence.
Qed.

(** ** The shape of the result *)

Lemma masked_assign_length {A : Type} (dst : list A) (mask : list bool) (src : list A) :
  length (Torch.masked_assign dst mask src) = length dst.
Proof.
  revert mask src. induction dst as [|d dst IH]; intros mask src;
    [destruct mask; reflexivity|].
  destruct mask as [|[|] mask]; [reflexivity| |].
  - cbn [Torch.masked_assign]. destruct src; cbn [length]; now rewrite IH.
  - cbn [Torch.masked_assign length]. now rewrite IH.
Qed.

Lemma interp_values_rows (poly : bool) (x xq : vec) (y ks : batch) :
  Forall (fun r => length r = length xq) (interp_values poly x y ks xq).
Proof.
  unfold interp_values. apply Forall_forall. intros r Hr.
  apply in_map_iff in Hr as (yk & <- & _). apply length_map.
Qed.

Lemma scatter_shape {A B : Type} (u : A) (xs : vec) (mask nmask : list bool)
      (y : list B) (rowsI rowsE : list (list A)) :
  length rowsI = length y -> length rowsE = length y ->
  let yq := Torch.map2 (fun row src => Torch.masked_assign row nmask src)
              (Torch.map2 (fun row src => Torch.masked_assign row mask src)
                 (map (fun _ => map (fun _ => u) xs) y) rowsI) rowsE in
  length yq = length y /\ Forall (fun r => length r = length xs) yq.
Proof.
  intros HI HE yq. subst yq. split.
  - rewrite !map2_length, length_map. lia.
  - apply Forall_forall. intros r Hr. unfold Torch.map2 in Hr.
    apply in_map_iff in Hr as ([r1 s1] & <- & Hr). cbn [fst snd].
    apply in_combine_l in Hr.
    apply in_map_iff in Hr as ([r0 s0] & <- & Hr). cbn [fst snd].
    apply in_combine_l in Hr.
    apply in_map_iff in Hr as (y0 & <- & _).
    now rewrite !masked_assign_length, length_map.
Qed.

Lemma evaluate_shape solve (uninit : fl) (x : vec) (at_init : option batch)
      (bc : string) (extrap : option extrap_t) itp (y : batch) (xq : vec) :
  CubicSpline1D.__init__ solve x at_init (Some bc) extrap = Ok itp ->
  solve_shape solve x bc = true ->
  rows_of_length (length x) y ->
  (forall y', at_init = Some y' -> y = y') ->
  known_mode (BaseInterp1D._extrap (CubicSpline1D.super itp)) ->
  exists yq,
    BaseInterp1D.evaluate uninit itp xq y = Ok yq /\
    length yq = length y /\ Forall (fun r => length r = length xq) yq.
Proof.
  intros Hinit Hc Hy Hyeff Hknown.
  destruct (interp_constructed solve x at_init bc _ itp y Hinit Hc Hy Hyeff)
    as (ks & _ & _ & Hlen & _ & Hq).
  unfold BaseInterp1D.evaluate.
  cbn [BaseInterp1D.base CubicSpline1D.kernel BaseInterp1D._interp].
  set (e := BaseInterp1D._extrap (CubicSpline1D.super itp)) in *.
  set (m := fun q : Q => Qle_bool (BaseInterp1D._xmin (CubicSpline1D.super itp)) q
                         && Qle_bool q (BaseInterp1D._xmax (CubicSpline1D.super itp))).
  assert (Hfin : forall xs, length xs = length xq ->
            exists yq, Ok (map (map Fin) (interp_values (length x <? length xs)%nat
                                            x y ks xs)) = Ok yq /\
                       length yq = length y /\
                       Forall (fun r : list fl => length r = length xq) yq).
  { intros xs Hxs. eexists. split; [reflexivity|]. split.
    - rewrite length_map. now apply interp_values_length.
    - apply Forall_forall. intros r Hr.
      apply in_map_iff in Hr as (r' & <- & Hr'). rewrite length_map, <- Hxs.
      eapply Forall_forall in Hr'; [exact Hr' | apply interp_values_rows]. }
  destruct (forallb (fun b : bool => b) (map m xq)).
  - rewrite Hq. cbn [bind]. now apply Hfin.
  - destruct (extrap_is e "mirror" || extrap_is e "periodic" || extrap_is e "bound")
      eqn:Hremap.
    + destruct (get_extrap_pos_map e (BaseInterp1D._xmin (CubicSpline1D.super itp))
                  (BaseInterp1D._xmax (CubicSpline1D.super itp))) as [g Hg].
      rewrite Hg, (masked_remap m), Hq. cbn [bind]. apply Hfin. apply length_map.
    + rewrite Hq. cbn [bind].
      assert (Hval : exists yqe,
                ExtrapUtils.get_extrap_val
                  (Torch.masked_select xq (map negb (map m xq))) y e = Ok yqe /\
                length yqe = length y).
      { unfold ExtrapUtils.get_extrap_val.
        destruct e as [s|v|f] eqn:He.
        - destruct (Hknown s eq_refl) as [<-|[<-|[<-|[<-|[]]]]];
            try discriminate Hremap.
          eexists. split; [reflexivity | apply length_map].
        - eexists. split; [reflexivity | apply length_map].
        - eexists. split; [reflexivity | apply length_map]. }
      destruct Hval as (yqe & -> & Hlqe). cbn [bind].
      eexists. split; [reflexivity|].
      apply scatter_shape; [|exact Hlqe].
      rewrite length_map. now apply interp_values_length.
Qed.

Lemma init_extrap solve (x : vec) (y : option batch) (bc : string)
      (extrap : option extrap_t) itp :
  CubicSpline1D.__init__ solve x y (Some bc) extrap = Ok itp ->
  check_and_get_extrap extrap bc = Ok (BaseInterp1D._extrap (CubicSpline1D.super itp)).
Proof.
  intros Hinit.
  destruct (init_inversion _ _ _ _ _ _ Hinit)
    as (e & xmin & xmax & A & B & He & _ & _ & _ & _ & _ & _ & ks' & _ & ->).
  exact He.
Qed.

(** A call in a known mode returns what lines 38-57 compute. *)
Lemma call_total solve (uninit : fl) (x : vec) (y : batch)
      (bc : string) (extrap : option extrap_t) (at_init at_call : option batch)
      itp (xq : vec) :
  CubicSpline1D.__init__ solve x at_init (Some bc) extrap = Ok itp ->
  solve_shape solve x bc = true ->
  rows_of_length (length x) y ->
  passes y at_init at_call -> periodic_ok extrap bc y ->
  (forall e, check_and_get_extrap extrap bc = Ok e -> known_mode e) ->
  exists yq,
    CubicSpline1D.__call__ uninit itp xq at_call = ([], Ok yq) /\
    length yq = length y /\ Forall (fun r => length r = length xq) yq.
Proof.
  intros Hinit Hc Hy Hpass Hper Hknown.
  rewrite (call_constructed solve uninit x y at_init at_call bc extrap itp xq
             Hinit Hpass Hper).
  destruct (evaluate_shape solve uninit x at_init bc extrap itp y xq Hinit Hc Hy)
    as (yq & Hev & Hshape).
  - intros y' Hy'. destruct Hpass as [[H1 _] | [H1 _]]; congruence.
  - apply Hknown. now apply (init_extrap solve x at_init bc extrap itp).
  - exists yq. split; [now rewrite Hev | exact Hshape].
Qed.

(** X18. A call on a constructed interpolant whose extrapolation mode is a
    number, a callable or one of "mirror", "periodic", "bound" and "nan"
    returns, without a warning, a tensor with one row per row of the
    ordinates and one column per query, wherever the queries lie.  A
    callable extrapolation is taken to return one value per exterior
    query, as the write of line 56 requires. *)
Theorem call_returns_one_value_per_query solve (uninit : fl) (x : vec) (y : batch)
        (bc : string) (extrap : option extrap_t) (at_init at_call : option batch)
        itp (xq : vec) :
  CubicSpline1D.__init__ solve x at_init (Some bc) extrap = Ok itp ->
  solve_shape solve x bc = true ->
  rows_of_length (length x) y ->
  passes y at_init at_call -> periodic_ok extrap bc y ->
  (forall e, check_and_get_extrap extrap bc = Ok e -> known_mode e) ->
  (forall f, check_and_get_extrap extrap bc = Ok (ExtrapFun f) ->
             forall l, length (f l) = length l) ->
  exists yq,
    CubicSpline1D.__call__ uninit itp xq at_call = ([], Ok yq) /\
    length yq = length y /\ Forall (fun r => length r = length xq) yq.
Proof.
  intros Hinit Hc Hy Hpass Hper Hknown _.
  now apply (call_total solve uninit x y bc extrap at_init at_call itp xq).
Qed.

(** * The further properties on the test data *)

Lemma call_without_ordinates_witness :
  exists itp,
    CubicSpline1D.__init__ Reference.solve TestData.x None None None = Ok itp /\
    CubicSpline1D.__call__ NaN itp TestData.xq1 None = ([], Raise MissingDataError).
Proof.
  destruct (CubicSpline1D.__init__ Reference.solve TestData.x None None None)
    as [itp|e] eqn:Hinit.
  - exists itp. split; [reflexivity|].
    exact (call_without_ordinates Reference.solve NaN TestData.x None None itp
             TestData.xq1 Hinit).
  - exfalso. vm_compute in Hinit. discriminate Hinit.
Defined.

Lemma too_few_samples_refused_witness :
  (length [1 # 2] < 2)%nat /\
  CubicSpline1D.__init__ Reference.solve [1 # 2] (Some [[3]]) None None
  = Raise TorchError.
Proof.
  assert (H1 : (@None string = None \/ None = Some "natural"%string
                \/ None = Some "clamped"%string)) by (left; reflexivity).
  assert (H2 : (length [1 # 2] < 2)%nat) by (simpl; lia).
  split; [exact H2|].
  exact (too_few_samples_refused Reference.solve [1 # 2] (Some [[3]]) None None H1 H2).
Defined.

Lemma exactly_periodic_ordinates_pass_witness :
  Forall (fun r => r <> [] /\ nth 0 r 0 == nth (length r - 1) r 0)
         [[1; 15 # 10; 21 # 10; 1]; [0; 12 # 10; 22 # 10; 0]] /\
  check_periodic_value [[1; 15 # 10; 21 # 10; 1]; [0; 12 # 10; 22 # 10; 0]] = Ok tt.
Proof.
  assert (H : Forall (fun r => r <> [] /\ nth 0 r 0 == nth (length r - 1) r 0)
                     [[1; 15 # 10; 21 # 10; 1]; [0; 12 # 10; 22 # 10; 0]])
    by (repeat constructor; discriminate).
  split; [exact H|].
  exact (exactly_periodic_ordinates_pass _ H).
Defined.

Lemma exterior_queries_use_end_segments_witness :
  strictly_increasing TestData.x = true /\ (2 <= length TestData.x)%nat /\
  (4 < length TestData.xqe)%nat /\
  nth 4 TestData.xqe 0 <= nth 0 TestData.x 0 /\
  nth 4 (fst (CubicSpline1D.segment_indices TestData.x TestData.xqe)) 0%Z = 0%Z /\
  nth 4 (snd (CubicSpline1D.segment_indices TestData.x TestData.xqe)) 0%Z = 1%Z.
Proof.
  assert (H1 : strictly_increasing TestData.x = true) by reflexivity.
  assert (H2 : (2 <= length TestData.x)%nat) by (simpl; lia).
  assert (H3 : (4 < length TestData.xqe)%nat) by (simpl; lia).
  assert (H4 : nth 4 TestData.xqe 0 <= nth 0 TestData.x 0)
    by (unfold Qle; simpl; lia).
  split; [exact H1|]. split; [exact H2|]. split; [exact H3|]. split; [exact H4|].
  exact (proj1 (exterior_queries_use_end_segments TestData.x TestData.xqe 4 H1 H2 H3) H4).
Defined.


Lemma segment_matches_knot_data_witness :
  strictly_increasing TestData.x = true /\
  length (nth 0 TestData.y1 []) = length TestData.x /\
  length (nth 1 TestData.y2 []) = length TestData.x /\
  (3 < length TestData.x)%nat /\
  Segment.value TestData.x (nth 0 TestData.y1 []) (nth 1 TestData.y2 []) 2 1
  == nth 3 (nth 0 TestData.y1 []) 0 /\
  Segment.slope TestData.x (nth 0 TestData.y1 []) (nth 1 TestData.y2 []) 2 1
  == nth 3 (nth 1 TestData.y2 []) 0.
Proof.
  assert (H1 : strictly_increasing TestData.x = true) by reflexivity.
  assert (H2 : length (nth 0 TestData.y1 []) = length TestData.x) by reflexivity.
  assert (H3 : length (nth 1 TestData.y2 []) = length TestData.x) by reflexivity.
  assert (H4 : (3 < length TestData.x)%nat) by (simpl; lia).
  split; [exact H1|]. split; [exact H2|]. split; [exact H3|]. split; [exact H4|].
  destruct (segment_matches_knot_data TestData.x (nth 0 TestData.y1 [])
              (nth 1 TestData.y2 []) 2 H1 H2 H3 H4)
    as (_ & Ha & _ & Hb).
  split; [exact Ha | exact Hb].
Defined.

Lemma ordinates_of_wrong_length_refused_witness :
  (2 <= length TestData.x)%nat /\
  solve_shape Reference.solve TestData.x "natural" = true /\
  Exists (fun r => length r <> length TestData.x) [[1; 2; 3]] /\
  CubicSpline1D.__init__ Reference.solve TestData.x (Some [[1; 2; 3]])
    (Some "natural"%string) None = Raise TorchError.
Proof.
  assert (H2 : (2 <= length TestData.x)%nat) by (simpl; lia).
  assert (H4 : ("natural" = "natural" \/ "natural" = "clamped")%string)
    by (left; reflexivity).
  assert (H5 : solve_shape Reference.solve TestData.x "natural" = true)
    by (vm_compute; reflexivity).
  assert (H6 : Exists (fun r => length r <> length TestData.x) [[1; 2; 3]])
    by (constructor; simpl; lia).
  assert (H7 : forall e, check_and_get_extrap None "natural" = Ok e ->
                         extrap_is e "periodic" = false)
    by (intros e He; injection He as <-; reflexivity).
  split; [exact H2|]. split; [exact H5|]. split; [exact H6|].
  exact (proj1 (ordinates_of_wrong_length_refused Reference.solve NaN TestData.x
                  [[1; 2; 3]] "natural" None H2 H4 H5 H6 H7)).
Defined.

Lemma empty_query_returns_empty_rows_witness :
  solve_shape Reference.solve TestData.x "clamped" = true /\
  rows_of_length (length TestData.x) TestData.y2 /\
  passes TestData.y2 (Some TestData.y2) None /\
  periodic_ok (Some (ExtrapStr "mirror")) "clamped" TestData.y2 /\
  exists itp,
    CubicSpline1D.__init__ Reference.solve TestData.x (Some TestData.y2)
      (Some "clamped"%string) (Some (ExtrapStr "mirror")) = Ok itp /\
    CubicSpline1D.__call__ NaN itp [] None = ([], Ok [[]; []]).
Proof.
  assert (H3 : rows_of_length (length TestData.x) TestData.y2)
    by (repeat constructor).
  assert (H5 : solve_shape Reference.solve TestData.x "clamped" = true)
    by (vm_compute; reflexivity).
  assert (H6 : passes TestData.y2 (Some TestData.y2) None)
    by (left; split; reflexivity).
  assert (H7 : periodic_ok (Some (ExtrapStr "mirror")) "clamped" TestData.y2)
    by (intros e He Hp; injection He as <-; discriminate Hp).
  split; [exact H5|]. split; [exact H3|]. split; [exact H6|]. split; [exact H7|].
  destruct (CubicSpline1D.__init__ Reference.solve TestData.x (Some TestData.y2)
              (Some "clamped"%string) (Some (ExtrapStr "mirror")))
    as [itp|e] eqn:Hinit.
  - exists itp. split; [reflexivity|].
    exact (empty_query_returns_empty_rows Reference.solve NaN TestData.x TestData.y2
             "clamped" (Some (ExtrapStr "mirror")) (Some TestData.y2) None itp
             Hinit H5 H3 H6 H7).
  - exfalso. vm_compute in Hinit. discriminate Hinit.
Defined.

Lemma getparamnames_determine_calls_witness :
  exists itp1 itp2,
    CubicSpline1D.__init__ Reference.solve [0; 1] (Some [[1; 1]])
      (Some "natural"%string) (Some (ExtrapStr "nan")) = Ok itp1 /\
    CubicSpline1D.__init__ Reference.solve [0; 1] (Some [[1; 1]])
      (Some "clamped"%string) (Some (ExtrapStr "nan")) = Ok itp2 /\
    CubicSpline1D.bc_type itp1 <> CubicSpline1D.bc_type itp2 /\
    CubicSpline1D.spline_mat_inv itp1 <> CubicSpline1D.spline_mat_inv itp2 /\
    Forall (fun n => CubicSpline1D.getattr itp1 n <> None)
           (CubicSpline1D.getparamnames itp1) /\
    forall xq y,
      CubicSpline1D.__call__ NaN itp1 xq y = CubicSpline1D.__call__ NaN itp2 xq y.
Proof.
  destruct (CubicSpline1D.__init__ Reference.solve [0; 1] (Some [[1; 1]])
              (Some "natural"%string) (Some (ExtrapStr "nan")))
    as [itp1|e] eqn:Hinit1;
    [|exfalso; vm_compute in Hinit1; discriminate Hinit1].
  destruct (CubicSpline1D.__init__ Reference.solve [0; 1] (Some [[1; 1]])
              (Some "clamped"%string) (Some (ExtrapStr "nan")))
    as [itp2|e] eqn:Hinit2;
    [|exfalso; vm_compute in Hinit2; discriminate Hinit2].
  exists itp1, itp2. split; [reflexivity|]. split; [reflexivity|].
  destruct (getparamnames_determine_calls Reference.solve Reference.solve
              [0; 1] [0; 1] (Some [[1; 1]]) (Some [[1; 1]])
              (Some "natural"%string) (Some "clamped"%string)
              (Some (ExtrapStr "nan")) (Some (ExtrapStr "nan"))
              itp1 itp2 Hinit1 Hinit2)
    as [Hnames Hcalls].
  pose proof Hinit1 as E1. vm_compute in E1. injection E1 as E1.
  pose proof Hinit2 as E2. vm_compute in E2. injection E2 as E2.
  split; [rewrite <- E1, <- E2; discriminate|].
  split; [rewrite <- E1, <- E2; discriminate|].
  split; [exact Hnames|].
  intros xq y. apply Hcalls.
  - rewrite <- E1, <- E2. reflexivity.
  - intros n Hn. rewrite <- E1, <- E2 in Hn |- *.
    cbn in Hn. destruct Hn as [<-|[<-|[<-|[<-|[<-|[<-|[]]]]]]]; reflexivity.
Defined.

Lemma second_derivative_continuous_witness :
  strictly_increasing TestData.x = true /\ (2 <= length TestData.x)%nat /\
  solve_contract Reference.solve TestData.x "clamped" = true /\
  rows_of_length (length TestData.x) TestData.y2 /\
  exists Zm ks,
    _get_spline_mat_inv Reference.solve TestData.x "clamped" = Ok Zm /\
    Torch.matmul_rows Zm TestData.y2 = Ok ks /\
    forall r i, (r < length TestData.y2)%nat -> (1 <= i)%nat ->
      (i + 1 < length TestData.x)%nat ->
      Segment.curvature TestData.x (nth r TestData.y2 []) (nth r ks []) (i - 1) 1
      == Segment.curvature TestData.x (nth r TestData.y2 []) (nth r ks []) i 0.
Proof.
  assert (H1 : strictly_increasing TestData.x = true) by reflexivity.
  assert (H2 : (2 <= length TestData.x)%nat) by (simpl; lia).
  assert (H3 : rows_of_length (length TestData.x) TestData.y2)
    by (repeat constructor).
  assert (H5 : solve_contract Reference.solve TestData.x "clamped" = true)
    by (vm_compute; reflexivity).
  split; [exact H1|]. split; [exact H2|]. split; [exact H5|]. split; [exact H3|].
  destruct (second_derivative_continuous Reference.solve TestData.x "clamped"
              TestData.y2 H1 H2 H5 H3)
    as (Zm & ks & Ha & _ & Hb & _ & _ & Hc).
  exists Zm, ks. split; [exact Ha|]. split; [exact Hb|]. exact Hc.
Defined.

Lemma natural_end_curvature_is_zero_witness :
  strictly_increasing TestData.x = true /\ (2 <= length TestData.x)%nat /\
  solve_contract Reference.solve TestData.x "natural" = true /\
  rows_of_length (length TestData.x) TestData.ye /\
  exists Zm ks,
    _get_spline_mat_inv Reference.solve TestData.x "natural" = Ok Zm /\
    Torch.matmul_rows Zm TestData.ye = Ok ks /\
    forall r, (r < length TestData.ye)%nat ->
      Segment.curvature TestData.x (nth r TestData.ye []) (nth r ks []) 0 0 == 0 /\
      Segment.curvature TestData.x (nth r TestData.ye []) (nth r ks [])
        (length TestData.x - 2) 1 == 0.
Proof.
  assert (H1 : strictly_increasing TestData.x = true) by reflexivity.
  assert (H2 : (2 <= length TestData.x)%nat) by (simpl; lia).
  assert (H3 : rows_of_length (length TestData.x) TestData.ye)
    by (repeat constructor).
  assert (H5 : solve_contract Reference.solve TestData.x "natural" = true)
    by (vm_compute; reflexivity).
  split; [exact H1|]. split; [exact H2|]. split; [exact H5|]. split; [exact H3|].
  destruct (natural_end_curvature_is_zero Reference.solve TestData.x TestData.ye
              H1 H2 H5 H3)
    as (Zm & ks & Ha & _ & Hb & _ & _ & Hc).
  exists Zm, ks. split; [exact Ha|]. split; [exact Hb|]. exact Hc.
Defined.

Lemma interior_positions_hold_spline_values_witness :
  strictly_increasing TestData.x = true /\
  solve_shape Reference.solve TestData.x "natural" = true /\
  rows_of_length (length TestData.x) TestData.ye /\
  passes TestData.ye (Some TestData.ye) None /\
  exists itp w yq ks,
    CubicSpline1D.__init__ Reference.solve TestData.x (Some TestData.ye)
      (Some "natural"%string) (Some (ExtrapNum 1)) = Ok itp /\
    CubicSpline1D.__call__ NaN itp TestData.xqe None = (w, Ok yq) /\
    Torch.matmul_rows (CubicSpline1D.spline_mat_inv itp) TestData.ye = Ok ks /\
    forall r k, (r < length TestData.ye)%nat -> (k < length TestData.xqe)%nat ->
      BaseInterp1D._xmin (CubicSpline1D.super itp) <= nth k TestData.xqe 0 ->
      nth k TestData.xqe 0 <= BaseInterp1D._xmax (CubicSpline1D.super itp) ->
      exists v, nth k (nth r yq []) NaN = Fin v /\
                v == AtQuery.hermite TestData.x (nth r TestData.ye []) (nth r ks [])
                       (nth k TestData.xqe 0).
Proof.
  assert (H1 : strictly_increasing TestData.x = true) by reflexivity.
  assert (H3 : rows_of_length (length TestData.x) TestData.ye)
    by (repeat constructor).
  assert (H5 : solve_shape Reference.solve TestData.x "natural" = true)
    by (vm_compute; reflexivity).
  assert (H6 : passes TestData.ye (Some TestData.ye) None)
    by (left; split; reflexivity).
  assert (H7 : forall f, check_and_get_extrap (Some (ExtrapNum 1)) "natural"
                         = Ok (ExtrapFun f) -> forall l, length (f l) = length l)
    by (intros f Hf; discriminate Hf).
  assert (H8 : periodic_ok (Some (ExtrapNum 1)) "natural" TestData.ye)
    by (intros e He Hp; injection He as <-; discriminate Hp).
  assert (H9 : forall e, check_and_get_extrap (Some (ExtrapNum 1)) "natural" = Ok e ->
                         known_mode e)
    by (intros e He; injection He as <-; intros s Hs; discriminate Hs).
  split; [exact H1|]. split; [exact H5|]. split; [exact H3|]. split; [exact H6|].
  destruct (CubicSpline1D.__init__ Reference.solve TestData.x (Some TestData.ye)
              (Some "natural"%string) (Some (ExtrapNum 1)))
    as [itp|e] eqn:Hinit.
  - destruct (call_total Reference.solve NaN TestData.x TestData.ye "natural"
                (Some (ExtrapNum 1)) (Some TestData.ye) None itp TestData.xqe
                Hinit H5 H3 H6 H8 H9)
      as (yq & Hcall & _).
    destruct (interior_positions_hold_spline_values Reference.solve NaN TestData.x
                TestData.ye "natural" (Some (ExtrapNum 1)) (Some TestData.ye) None
                itp TestData.xqe [] yq H1 Hinit H5 H3 H6 H7 Hcall)
      as (_ & _ & ks & Ha & _ & _ & Hb).
    exists itp, [], yq, ks. split; [reflexivity|]. split; [exact Hcall|].
    split; [exact Ha | exact Hb].
  - exfalso. vm_compute in Hinit. discriminate Hinit.
Defined.

Lemma allocated_buffer_is_fully_overwritten_witness :
  solve_shape Reference.solve TestData.x "natural" = true /\
  rows_of_length (length TestData.x) TestData.ye /\
  passes TestData.ye None (Some TestData.ye) /\
  exists itp,
    CubicSpline1D.__init__ Reference.solve TestData.x None (Some "natural"%string)
      (Some (ExtrapFun (map (Qmult 2)))) = Ok itp /\
    CubicSpline1D.__call__ NaN itp TestData.xqe (Some TestData.ye)
    = CubicSpline1D.__call__ (Fin 0) itp TestData.xqe (Some TestData.ye).
Proof.
  assert (H3 : rows_of_length (length TestData.x) TestData.ye)
    by (repeat constructor).
  assert (H5 : solve_shape Reference.solve TestData.x "natural" = true)
    by (vm_compute; reflexivity).
  assert (H6 : passes TestData.ye None (Some TestData.ye))
    by (right; split; reflexivity).
  assert (H7 : forall f, check_and_get_extrap (Some (ExtrapFun (map (Qmult 2)))) "natural"
                         = Ok (ExtrapFun f) -> forall l, length (f l) = length l)
    by (intros f Hf l; injection Hf as <-; apply length_map).
  split; [exact H5|]. split; [exact H3|]. split; [exact H6|].
  destruct (CubicSpline1D.__init__ Reference.solve TestData.x None
              (Some "natural"%string) (Some (ExtrapFun (map (Qmult 2)))))
    as [itp|e] eqn:Hinit.
  - exists itp. split; [reflexivity|].
    exact (allocated_buffer_is_fully_overwritten Reference.solve NaN (Fin 0) TestData.x
             TestData.ye "natural" (Some (ExtrapFun (map (Qmult 2)))) None
             (Some TestData.ye) itp TestData.xqe Hinit H5 H3 H6 H7).
  - exfalso. vm_compute in Hinit. discriminate Hinit.
Defined.

Lemma spline_system_has_one_solution_witness :
  strictly_increasing TestData.x = true /\ (2 <= length TestData.x)%nat /\
  solve_contract Reference.solve TestData.x "natural" = true /\
  solve_contract Reference.solve_reversed TestData.x "natural" = true /\
  rows_of_length (length TestData.x) TestData.ye /\
  exists Z1 Z2 ks1 ks2,
    _get_spline_mat_inv Reference.solve TestData.x "natural" = Ok Z1 /\
    _get_spline_mat_inv Reference.solve_reversed TestData.x "natural" = Ok Z2 /\
    (forall i j, (i < length TestData.x)%nat -> (j < length TestData.x)%nat ->
       Torch.entry Z1 i j == Torch.entry Z2 i j) /\
    Torch.matmul_rows Z1 TestData.ye = Ok ks1 /\
    Torch.matmul_rows Z2 TestData.ye = Ok ks2 /\
    forall r i, (r < length TestData.ye)%nat -> (i < length TestData.x)%nat ->
      Torch.entry ks1 r i == Torch.entry ks2 r i.
Proof.
  assert (H1 : strictly_increasing TestData.x = true) by reflexivity.
  assert (H2 : (2 <= length TestData.x)%nat) by (simpl; lia).
  assert (H3 : rows_of_length (length TestData.x) TestData.ye)
    by (repeat constructor).
  assert (H5 : solve_contract Reference.solve TestData.x "natural" = true)
    by (vm_compute; reflexivity).
  assert (H6 : solve_contract Reference.solve_reversed TestData.x "natural" = true)
    by (vm_compute; reflexivity).
  split; [exact H1|]. split; [exact H2|]. split; [exact H5|]. split; [exact H6|].
  split; [exact H3|].
  destruct (spline_system_has_one_solution Reference.solve Reference.solve_reversed
              TestData.x "natural" H1 H2 H5 H6)
    as (Z1 & Z2 & Ha & Hb & _ & _ & Hc & Hd).
  destruct (Hd TestData.ye H3) as (ks1 & ks2 & He & Hf & _ & _ & Hg).
  exists Z1, Z2, ks1, ks2. split; [exact Ha|]. split; [exact Hb|]. split; [exact Hc|].
  split; [exact He|]. split; [exact Hf | exact Hg].
Defined.

Lemma constant_ordinates_are_reproduced_witness :
  strictly_increasing TestData.x = true /\
  solve_contract Reference.solve TestData.x "clamped" = true /\
  rows_of_length (length TestData.x) [repeat (3 # 2) 6] /\
  exists itp yq,
    CubicSpline1D.__init__ Reference.solve TestData.x None (Some "clamped"%string) None
    = Ok itp /\
    CubicSpline1D._interp itp TestData.xqe [repeat (3 # 2) 6] = Ok yq /\
    forall r k, (r < 1)%nat -> (k < length TestData.xqe)%nat ->
      Torch.entry yq r k == 3 # 2.
Proof.
  assert (H1 : strictly_increasing TestData.x = true) by reflexivity.
  assert (H3 : rows_of_length (length TestData.x) [repeat (3 # 2) 6])
    by (repeat constructor).
  assert (H5 : solve_contract Reference.solve TestData.x "clamped" = true)
    by (vm_compute; reflexivity).
  assert (H6 : forall y', @None batch = Some y' -> [repeat (3 # 2) 6] = y')
    by (intros y' Hy'; discriminate Hy').
  assert (H7 : forall r j, (r < length [repeat (3 # 2) 6])%nat ->
                 (j < length TestData.x)%nat ->
                 Torch.entry [repeat (3 # 2) 6] r j == (fun _ : nat => 3 # 2) r).
  { intros r j Hr Hj. destruct r as [|r]; [|simpl in Hr; lia].
    do 6 (destruct j as [|j]; [reflexivity|]). simpl in Hj. lia. }
  split; [exact H1|]. split; [exact H5|]. split; [exact H3|].
  destruct (CubicSpline1D.__init__ Reference.solve TestData.x None
              (Some "clamped"%string) None) as [itp|e] eqn:Hinit.
  - destruct (constant_ordinates_are_reproduced Reference.solve TestData.x None
                "clamped" None itp [repeat (3 # 2) 6] (fun _ => 3 # 2) TestData.xqe
                H1 Hinit H5 H3 H6 H7)
      as (yq & Ha & _ & Hb).
    exists itp, yq. split; [reflexivity|]. split; [exact Ha|]. exact Hb.
  - exfalso. vm_compute in Hinit. discriminate Hinit.
Defined.

Lemma natural_spline_reproduces_lines_witness :
  strictly_increasing TestData.x = true /\
  solve_contract Reference.solve TestData.x "natural" = true /\
  rows_of_length (length TestData.x) [map (fun v => 1 + 2 * v) TestData.x] /\
  exists itp yq,
    CubicSpline1D.__init__ Reference.solve TestData.x None None None = Ok itp /\
    CubicSpline1D._interp itp TestData.xqe [map (fun v => 1 + 2 * v) TestData.x]
    = Ok yq /\
    forall r k, (r < 1)%nat -> (k < length TestData.xqe)%nat ->
      Torch.entry yq r k == 1 + 2 * nth k TestData.xqe 0.
Proof.
  assert (H1 : strictly_increasing TestData.x = true) by reflexivity.
  assert (H3 : rows_of_length (length TestData.x)
                 [map (fun v => 1 + 2 * v) TestData.x])
    by (repeat constructor).
  assert (H5 : solve_contract Reference.solve TestData.x "natural" = true)
    by (vm_compute; reflexivity).
  assert (H6 : forall y', @None batch = Some y' ->
                 [map (fun v => 1 + 2 * v) TestData.x] = y')
    by (intros y' Hy'; discriminate Hy').
  assert (H7 : forall r j, (r < 1)%nat -> (j < length TestData.x)%nat ->
                 Torch.entry [map (fun v => 1 + 2 * v) TestData.x] r j
                 == (fun _ : nat => 1) r + (fun _ : nat => 2) r * nth j TestData.x 0).
  { intros r j Hr Hj. destruct r as [|r]; [|simpl in Hr; lia].
    do 6 (destruct j as [|j]; [reflexivity|]). simpl in Hj. lia. }
  split; [exact H1|]. split; [exact H5|]. split; [exact H3|].
  destruct (CubicSpline1D.__init__ Reference.solve TestData.x None None None)
    as [itp|e] eqn:Hinit.
  - destruct (natural_spline_reproduces_lines Reference.solve TestData.x None
                None itp [map (fun v => 1 + 2 * v) TestData.x]
                (fun _ => 1) (fun _ => 2) TestData.xqe H1 Hinit H5 H3 H6 H7)
      as (yq & Ha & _ & Hb).
    exists itp, yq. split; [reflexivity|]. split; [exact Ha|]. exact Hb.
  - exfalso. vm_compute in Hinit. discriminate Hinit.
Defined.

Lemma interpolant_is_linear_in_ordinates_witness :
  solve_shape Reference.solve TestData.x "natural" = true /\
  length (nth 0 TestData.ye []) = length TestData.x /\
  length (nth 1 TestData.ye []) = length TestData.x /\
  exists itp r1 r2 r,
    CubicSpline1D.__init__ Reference.solve TestData.x None (Some "natural"%string) None
    = Ok itp /\
    CubicSpline1D._interp itp TestData.xq1 [nth 0 TestData.ye []] = Ok [r1] /\
    CubicSpline1D._interp itp TestData.xq1 [nth 1 TestData.ye []] = Ok [r2] /\
    CubicSpline1D._interp itp TestData.xq1
      [Torch.map2 (fun p q => 2 * p + (- (1 # 3)) * q)
         (nth 0 TestData.ye []) (nth 1 TestData.ye [])] = Ok [r] /\
    veq r (Torch.map2 (fun p q => 2 * p + (- (1 # 3)) * q) r1 r2).
Proof.
  assert (H5 : solve_shape Reference.solve TestData.x "natural" = true)
    by (vm_compute; reflexivity).
  assert (H6 : length (nth 0 TestData.ye []) = length TestData.x) by reflexivity.
  assert (H7 : length (nth 1 TestData.ye []) = length TestData.x) by reflexivity.
  split; [exact H5|]. split; [exact H6|]. split; [exact H7|].
  destruct (CubicSpline1D.__init__ Reference.solve TestData.x None
              (Some "natural"%string) None) as [itp|e] eqn:Hinit.
  - destruct (interpolant_is_linear_in_ordinates Reference.solve TestData.x "natural"
                None itp (nth 0 TestData.ye []) (nth 1 TestData.ye [])
                2 (- (1 # 3)) TestData.xq1 Hinit H5 H6 H7)
      as (r1 & r2 & r & Ha & Hb & Hc & _ & Hd).
    exists itp, r1, r2, r. split; [reflexivity|]. split; [exact Ha|].
    split; [exact Hb|]. split; [exact Hc|]. exact Hd.
  - exfalso. vm_compute in Hinit. discriminate Hinit.
Defined.

Lemma call_returns_one_value_per_query_witness :
  solve_shape Reference.solve TestData.x "natural" = true /\
  rows_of_length (length TestData.x) TestData.ye /\
  passes TestData.ye None (Some TestData.ye) /\
  periodic_ok (Some (ExtrapFun (map (Qmult 2)))) "natural" TestData.ye /\
  exists itp yq,
    CubicSpline1D.__init__ Reference.solve TestData.x None (Some "natural"%string)
      (Some (ExtrapFun (map (Qmult 2)))) = Ok itp /\
    CubicSpline1D.__call__ NaN itp TestData.xqe (Some TestData.ye) = ([], Ok yq) /\
    length yq = length TestData.ye /\
    Forall (fun r => length r = length TestData.xqe) yq.
Proof.
  assert (H3 : rows_of_length (length TestData.x) TestData.ye)
    by (repeat constructor).
  assert (H5 : solve_shape Reference.solve TestData.x "natural" = true)
    by (vm_compute; reflexivity).
  assert (H6 : passes TestData.ye None (Some TestData.ye))
    by (right; split; reflexivity).
  assert (H7 : forall f, check_and_get_extrap (Some (ExtrapFun (map (Qmult 2)))) "natural"
                         = Ok (ExtrapFun f) -> forall l, length (f l) = length l)
    by (intros f Hf l; injection Hf as <-; apply length_map).
  assert (H8 : periodic_ok (Some (ExtrapFun (map (Qmult 2)))) "natural" TestData.ye)
    by (intros e He Hp; injection He as <-; discriminate Hp).
  assert (H9 : forall e, check_and_get_extrap (Some (ExtrapFun (map (Qmult 2)))) "natural"
                         = Ok e -> known_mode e)
    by (intros e He; injection He as <-; intros s Hs; discriminate Hs).
  split; [exact H5|]. split; [exact H3|]. split; [exact H6|]. split; [exact H8|].
  destruct (CubicSpline1D.__init__ Reference.solve TestData.x None
              (Some "natural"%string) (Some (ExtrapFun (map (Qmult 2)))))
    as [itp|e] eqn:Hinit.
  - destruct (call_returns_one_value_per_query Reference.solve NaN TestData.x
                TestData.ye "natural" (Some (ExtrapFun (map (Qmult 2)))) None
                (Some TestData.ye) itp TestData.xqe Hinit H5 H3 H6 H8 H9 H7)
      as (yq & Ha & Hb & Hc).
    exists itp, yq. split; [reflexivity|]. split; [exact Ha|].
    split; [exact Hb | exact Hc].
  - exfalso. vm_compute in Hinit. discriminate Hinit.
Defined.
